(** * The Z compiler front end: lexer, number parser, AST builder, emitter

    A shallow embedding of [Compiler/compiler.h] and
    [Compiler/compiler.cpp].  Every C++ function is a Rocq function of the
    same name; locals that the C++ code mutates are threaded explicitly,
    exceptions and undefined behaviour are values of [outcome]. *)

From Stdlib Require Import ZArith Ascii String List Bool Lia.
Import ListNotations.
Open Scope Z_scope.

Set Implicit Arguments.

(** ** Outcomes

    A C++ computation either returns, throws a [CompilerException], or
    performs an operation the language leaves undefined (a read of an
    uninitialised buffer cell, a write past the end of a buffer, the use of
    an iterator to an erased list node). *)

Inductive ErrorType : Type :=
| UNKNOWN
| STRING_TOO_LONG
| INVALID_NUMBER
| INVALID_CLOSING_PAREN
| INVALID_CLOSING_SQUARE
| INVALID_CLOSING_CURLY
| MISSING_CLOSING_PAREN
| MISSING_CLOSING_SQUARE
| MISSING_CLOSING_CURLY
| BINOP_MISSING_EXPRESSION
| BINOP_ILLEGAL_PATTERN
| OUT_OF_REGISTERS.

Record CompilerException : Type := mkException {
  eType : ErrorType;
  eLine : Z;
  eColumn : Z
}.

Inductive outcome (A : Type) : Type :=
| Ok (a : A)
| Throw (e : CompilerException)
| Undefined.

Arguments Ok {A} a.
Arguments Throw {A} e.
Arguments Undefined {A}.

Definition bind {A B : Type} (m : outcome A) (k : A -> outcome B) : outcome B :=
  match m with
  | Ok a => k a
  | Throw e => Throw e
  | Undefined => Undefined
  end.

Notation "x <- m ;; k" := (bind m (fun x => k))
  (at level 61, m at next level, right associativity).

Definition throw {A : Type} (t : ErrorType) (line column : Z) : outcome A :=
  Throw (mkException t line column).

(** ** Characters *)

Definition code (c : ascii) : Z := Z.of_N (N_of_ascii c).

Definition NUL : ascii := "000"%char.
Definition TAB : ascii := "009"%char.
Definition NEWLINE : ascii := "010"%char.
Definition ESC : ascii := "027"%char.
Definition SPACE : ascii := " "%char.
Definition DQUOTE : ascii := "034"%char.
Definition BACKSLASH : ascii := "\"%char.

Definition is_digit (c : ascii) : bool := (code "0" <=? code c) && (code c <=? code "9").
Definition is_upper (c : ascii) : bool := (code "A" <=? code c) && (code c <=? code "Z").
Definition is_lower (c : ascii) : bool := (code "a" <=? code c) && (code c <=? code "z").

(** ** Value types

    [int_t] is the 32-bit machine word of the target (vm.h: "32-bit word:
    addresses, integers"); its arithmetic is written with the wrap-around
    made explicit. *)

Definition wrap_int_t (z : Z) : Z := (z + 2147483648) mod 4294967296 - 2147483648.

(** [float_t] arithmetic is not interpreted: a float value is the term of
    the operations that [parseNumber] performs to compute it, so that no
    rounding behaviour is assumed. *)

Inductive float_t : Type :=
| float_of_int (z : Z)
| float_mul (a b : float_t)
| float_add (a b : float_t)
| float_div (a b : float_t).

(** ** Tokens *)

Definition MAX_STR_SIZE : nat := 1024.

Module TokenType.

Inductive t : Type :=
| IDENTIFIER | STRING | CHAR
| TILDE | BTICK | EXPT | AT | HASH | DOLLAR | PCT | CARET | AMP | STAR
| USCORE | DASH | PLUS | EQUALS | PIPE | BSLASH | COLON | SEMICOLON
| DBLQUOTE | QUOTE | COMMA | PERIOD | QMARK | SLASH
| LEFT_PAREN | RIGHT_PAREN | LEFT_SQUARE | RIGHT_SQUARE
| LEFT_CURLY | RIGHT_CURLY | LEFT_ANGLE | RIGHT_ANGLE
| PLUS_EQUALS | DASH_EQUALS | STAR_EQUALS | SLASH_EQUALS | PCT_EQUALS
| EQ_EQUALS | LEFT_ANGLE_EQUALS | RIGHT_ANGLE_EQUALS | PLUS_PLUS
| DASH_DASH | SLASH_SLASH | SLASH_STAR | STAR_SLASH
| INT | FLOAT | BOOL | CHAR_ | RETURN | WHILE | FOR | IF | ELSE | ELIF
| AND | OR | TRUE | FALSE
| NUM_UNIDENTIFIED | NUM_INT | NUM_FLOAT.

(** The enumerators in declaration order: [static_cast<int>] is the
    position in [enum], [static_cast<TokenType>] is the lookup. *)

Definition enum : list t :=
  [ IDENTIFIER; STRING; CHAR;
    TILDE; BTICK; EXPT; AT; HASH; DOLLAR; PCT; CARET; AMP; STAR;
    USCORE; DASH; PLUS; EQUALS; PIPE; BSLASH; COLON; SEMICOLON;
    DBLQUOTE; QUOTE; COMMA; PERIOD; QMARK; SLASH;
    LEFT_PAREN; RIGHT_PAREN; LEFT_SQUARE; RIGHT_SQUARE;
    LEFT_CURLY; RIGHT_CURLY; LEFT_ANGLE; RIGHT_ANGLE;
    PLUS_EQUALS; DASH_EQUALS; STAR_EQUALS; SLASH_EQUALS; PCT_EQUALS;
    EQ_EQUALS; LEFT_ANGLE_EQUALS; RIGHT_ANGLE_EQUALS; PLUS_PLUS;
    DASH_DASH; SLASH_SLASH; SLASH_STAR; STAR_SLASH;
    INT; FLOAT; BOOL; CHAR_; RETURN; WHILE; FOR; IF; ELSE; ELIF;
    AND; OR; TRUE; FALSE;
    NUM_UNIDENTIFIED; NUM_INT; NUM_FLOAT ].

Definition to_int (x : t) : Z :=
  match x with
  | IDENTIFIER => 0 | STRING => 1 | CHAR => 2
  | TILDE => 3 | BTICK => 4 | EXPT => 5 | AT => 6 | HASH => 7
  | DOLLAR => 8 | PCT => 9 | CARET => 10 | AMP => 11 | STAR => 12
  | USCORE => 13 | DASH => 14 | PLUS => 15 | EQUALS => 16 | PIPE => 17
  | BSLASH => 18 | COLON => 19 | SEMICOLON => 20 | DBLQUOTE => 21
  | QUOTE => 22 | COMMA => 23 | PERIOD => 24 | QMARK => 25 | SLASH => 26
  | LEFT_PAREN => 27 | RIGHT_PAREN => 28 | LEFT_SQUARE => 29
  | RIGHT_SQUARE => 30 | LEFT_CURLY => 31 | RIGHT_CURLY => 32
  | LEFT_ANGLE => 33 | RIGHT_ANGLE => 34
  | PLUS_EQUALS => 35 | DASH_EQUALS => 36 | STAR_EQUALS => 37
  | SLASH_EQUALS => 38 | PCT_EQUALS => 39 | EQ_EQUALS => 40
  | LEFT_ANGLE_EQUALS => 41 | RIGHT_ANGLE_EQUALS => 42 | PLUS_PLUS => 43
  | DASH_DASH => 44 | SLASH_SLASH => 45 | SLASH_STAR => 46
  | STAR_SLASH => 47
  | INT => 48 | FLOAT => 49 | BOOL => 50 | CHAR_ => 51 | RETURN => 52
  | WHILE => 53 | FOR => 54 | IF => 55 | ELSE => 56 | ELIF => 57
  | AND => 58 | OR => 59 | TRUE => 60 | FALSE => 61
  | NUM_UNIDENTIFIED => 62 | NUM_INT => 63 | NUM_FLOAT => 64
  end.

Definition of_int (z : Z) : t :=
  nth (Z.to_nat z) enum IDENTIFIER.

End TokenType.

(** Token1s are length-1 tokens. *)
Definition firstToken1 : Z := TokenType.to_int TokenType.TILDE.
Definition token1s : list ascii :=
  [ "~"; "`"; "!"; "@"; "#"; "$"; "%"; "^"; "&"; "*"; "_"; "-"; "+"; "=";
    "|"; "\"; ":"; ";"; DQUOTE; "'"; ","; "."; "?"; "/";
    "("; ")"; "["; "]"; "{"; "}"; "<"; ">" ]%char.

(** Token2s are length-2 tokens. *)
Definition firstToken2 : Z := TokenType.to_int TokenType.PLUS_EQUALS.
Definition token2s : list (TokenType.t * ascii) :=
  [ (TokenType.PLUS, "="); (TokenType.DASH, "="); (TokenType.STAR, "=");
    (TokenType.SLASH, "="); (TokenType.PCT, "="); (TokenType.EQUALS, "=");
    (TokenType.LEFT_ANGLE, "="); (TokenType.RIGHT_ANGLE, "=");
    (TokenType.PLUS, "+"); (TokenType.DASH, "-"); (TokenType.SLASH, "/");
    (TokenType.SLASH, "*"); (TokenType.STAR, "/") ]%char.

(** Keywords are full strings that are matched exactly. *)
Definition firstKeyword : Z := TokenType.to_int TokenType.INT.
Definition keywords : list (list ascii) :=
  map list_ascii_of_string
    [ "int"; "float"; "bool"; "char"; "return"; "while"; "for"; "if";
      "else"; "elif"; "and"; "or"; "true"; "false" ]%string.

(** The anonymous union of [NoDestructToken]: the active member is the
    constructor.  [hasStr] is true exactly when the [str] member holds an
    owned string. *)
Inductive Payload : Type :=
| NoPayload
| PStr (str : list ascii)
| PInt (int_ : Z)
| PFloat (float_ : float_t).

Module Token.

Record t : Type := mk {
  type : TokenType.t;
  line : Z;
  column : Z;
  payload : Payload
}.

Definition hasStr (tok : t) : bool :=
  match payload tok with PStr _ => true | _ => false end.

End Token.

Definition TokenList : Type := list Token.t.

(** ** utils.h *)

(** Modelled from the spec: [stringMatchAt] is declared in utils.h and
    defined outside the sources at hand.  The lexer matches the buffered
    text "against a fixed keyword table (exact, case-sensitive)": the
    result is the index of the first table entry equal to the text, or -1. *)
Fixpoint stringMatchAt_from (i : Z) (match_ : list ascii) (strings : list (list ascii)) : Z :=
  match strings with
  | [] => -1
  | s :: strings' =>
      if list_eq_dec ascii_dec match_ s then i
      else stringMatchAt_from (i + 1) match_ strings'
  end.

Definition stringMatchAt (match_ : list ascii) (strings : list (list ascii)) : Z :=
  stringMatchAt_from 0 match_ strings.

(** ** parseNumber *)

(** The three-way digit test shared by the integer and the fractional
    loop: ['0'..'9'], then ['A'..'Z'] and ['a'..'z'] counting from 10. *)
Definition digit_value (c : ascii) : option Z :=
  if is_digit c then Some (code c - code "0")
  else if is_upper c then Some (code c - code "A" + 10)
  else if is_lower c then Some (code c - code "a" + 10)
  else None.

(** The inner loop, after the decimal point.  [None] is [return 1]. *)
Fixpoint parse_fraction (base : Z) (factor float_ : float_t) (str : list ascii)
  : option float_t :=
  match str with
  | [] => Some float_
  | c :: str' =>
      if (c =? NUL)%char then Some float_
      else
        let factor := float_mul factor (float_of_int base) in
        match digit_value c with
        | Some d =>
            if d >=? base then None
            else parse_fraction base factor
                   (float_add float_ (float_div (float_of_int d) factor)) str'
        | None => None
        end
  end.

(** The outer loop.  The result is the new union member of the token. *)
Fixpoint parse_digits (base : Z) (int_ : Z) (str : list ascii) : option Payload :=
  match str with
  | [] => Some (PInt int_)
  | c :: str' =>
      if (c =? NUL)%char then Some (PInt int_)
      else if (c =? ".")%char then
        match parse_fraction base (float_of_int 1) (float_of_int int_) str' with
        | Some float_ => Some (PFloat float_)
        | None => None
        end
      else
        let int_ := wrap_int_t (int_ * base) in
        match digit_value c with
        | Some d =>
            if d >=? base then None
            else parse_digits base (wrap_int_t (int_ + d)) str'
        | None => None
        end
  end.

(** The base-setting pattern at the start: the base and the text that is
    left to fold, or [None] for [return 1]. *)
Definition number_prefix (str : list ascii) : option (Z * list ascii) :=
  if (nth 0 str NUL =? NUL)%char then None
  else if (nth 0 str NUL =? "0")%char then
    let t := nth 1 str NUL in
    if (code t <? code "0") || (code t >? code "9") then
      if (t =? "x")%char then Some (16, skipn 2 str)
      else if (t =? "b")%char then Some (2, skipn 2 str)
      else if (t =? ".")%char || (t =? NUL)%char then Some (10, skipn 1 str)
      else if (t =? "d")%char then Some (10, skipn 2 str)
      else None
    else Some (10, str)
  else Some (10, str).

(** [parseNumber] returns its [int] status together with the token, which
    it rewrites in place on success and leaves alone on failure. *)
Definition parseNumber (token : Token.t) : outcome (Z * Token.t) :=
  match Token.type token with
  | TokenType.NUM_UNIDENTIFIED =>
      match Token.payload token with
      | PStr str =>
          match number_prefix str with
          | None => Ok (1, token)
          | Some (base, str') =>
              match parse_digits base 0 str' with
              | None => Ok (1, token)
              | Some (PFloat float_) =>
                  Ok (0, Token.mk TokenType.NUM_FLOAT (Token.line token)
                           (Token.column token) (PFloat float_))
              | Some p =>
                  Ok (0, Token.mk TokenType.NUM_INT (Token.line token)
                           (Token.column token) p)
              end
          end
      | _ => Undefined
      end
  | _ => Ok (1, token)
  end.

(** ** tokenize *)

(** The working buffer [char str[MAX_STR_SIZE + 1]].  A cell is [None]
    until the first write to it; the cells past the end of the list have
    not been written either. *)
Definition buffer : Type := list (option ascii).

Fixpoint set_cell (i : nat) (c : ascii) (b : buffer) : buffer :=
  match i, b with
  | O, [] => [Some c]
  | O, _ :: b' => Some c :: b'
  | S i', [] => None :: set_cell i' c []
  | S i', x :: b' => x :: set_cell i' c b'
  end.

(** [str[i] = c]: the array has [MAX_STR_SIZE + 1] cells. *)
Definition buf_write (i : nat) (c : ascii) (b : buffer) : outcome buffer :=
  if (i <=? MAX_STR_SIZE)%nat then Ok (set_cell i c b) else Undefined.

(** [str[i]] as an rvalue. *)
Definition buf_read (i : nat) (b : buffer) : outcome ascii :=
  match nth_error b i with
  | Some (Some c) => Ok c
  | _ => Undefined
  end.

(** [std::string(str)]: the characters up to the first NUL. *)
Fixpoint c_str (b : buffer) : outcome (list ascii) :=
  match b with
  | Some c :: b' =>
      if (c =? NUL)%char then Ok []
      else s <- c_str b' ;; Ok (c :: s)
  | _ => Undefined
  end.

(** The locals of [tokenize] that live across iterations of the loop. *)
Module L.

Record state : Type := mk {
  str : buffer;
  strlen : nat;
  c : ascii;
  line : Z;
  column : Z;
  isComment : bool;
  isBlockComment : bool;
  isStr : bool;
  isEscaped : bool;
  isNumber : bool;
  hasDecimal : bool;
  token1Index : Z;
  tokenList : TokenList
}.

(** [char c = -1; int line = 0; int column = -1;], all flags false. *)
Definition init : state :=
  mk [] 0 "255"%char 0 (-1) false false false false false false (-1) [].

End L.

(** The search of [token2s] for the pair (previous token1, current char). *)
Fixpoint find_token2 (i : Z) (token1Index : Z) (c : ascii)
  (table : list (TokenType.t * ascii)) : Z :=
  match table with
  | [] => -1
  | (first, second) :: table' =>
      if (c =? second)%char && (token1Index =? TokenType.to_int first)
      then i + firstToken2
      else find_token2 (i + 1) token1Index c table'
  end.

(** The search of [token1s] for the current char. *)
Fixpoint find_token1 (i : Z) (c : ascii) (table : list ascii) : Z :=
  match table with
  | [] => -1
  | t :: table' =>
      if (c =? t)%char then i + firstToken1
      else find_token1 (i + 1) c table'
  end.

(** Lines 108-152: one character inside a string literal. *)
Definition string_mode (st : L.state) : outcome L.state :=
  let '(L.mk str strlen c line column isComment isBlockComment isStr
             isEscaped isNumber hasDecimal token1Index tokenList) := st in
  let add (c : ascii) (line : Z) (isEscaped : bool) : outcome L.state :=
    if (MAX_STR_SIZE <=? strlen)%nat then throw STRING_TOO_LONG line column
    else
      str <- buf_write strlen c str ;;
      Ok (L.mk str (S strlen) c line column isComment isBlockComment isStr
               isEscaped isNumber hasDecimal token1Index tokenList) in
  if isEscaped then
    if (c =? "n")%char then add NEWLINE (line - 1) false
    else if (c =? "c")%char then add ESC line false
    else if (c =? "0")%char then add NUL line false
    else if (c =? "t")%char then add TAB line false
    else add c line false
  else if (c =? DQUOTE)%char then
    str <- buf_write strlen NUL str ;;
    s <- c_str str ;;
    Ok (L.mk str 0 c line column isComment isBlockComment false
             isEscaped isNumber hasDecimal (-1)
             (tokenList ++ [Token.mk TokenType.STRING line column (PStr s)]))
  else if (c =? BACKSLASH)%char then
    Ok (L.mk str strlen c line column isComment isBlockComment isStr
             true isNumber hasDecimal token1Index tokenList)
  else add c line isEscaped.

(** Lines 223-264: the token that ended with the previous char is
    finalised, and the flags for the next token are set. *)
Definition end_of_token (st : L.state) : outcome L.state :=
  let '(L.mk str strlen c line column isComment isBlockComment isStr
             isEscaped isNumber hasDecimal token1Index tokenList) := st in
  r <- (if (strlen =? 0)%nat then Ok (str, tokenList)
        else
          str <- buf_write strlen NUL str ;;
          s <- c_str str ;;
          if isNumber then
            r <- parseNumber (Token.mk TokenType.NUM_UNIDENTIFIED line column (PStr s)) ;;
            if fst r =? 0 then Ok (str, tokenList ++ [snd r])
            else throw INVALID_NUMBER line column
          else
            let keyword := stringMatchAt s keywords in
            if 0 <=? keyword then
              Ok (str, tokenList ++
                    [Token.mk (TokenType.of_int (keyword + firstKeyword))
                       line column NoPayload])
            else
              Ok (str, tokenList ++
                    [Token.mk TokenType.IDENTIFIER line column (PStr s)])) ;;
  let '(str, tokenList) := r in
  if (c =? DQUOTE)%char then
    Ok (L.mk str 0 c line column isComment isBlockComment true
             false false hasDecimal token1Index tokenList)
  else if is_digit c then
    str <- buf_write 0 c str ;;
    Ok (L.mk str 1 c line column isComment isBlockComment isStr
             isEscaped true false token1Index tokenList)
  else
    Ok (L.mk str 0 c line column isComment isBlockComment isStr
             isEscaped false hasDecimal token1Index tokenList).

(** Lines 186-271: token1/token2 matching, then either the end of a token
    or one more character of an identifier. *)
Definition token_processing (end_ : bool) (st : L.state) : outcome L.state :=
  let '(L.mk str strlen c line column isComment isBlockComment isStr
             isEscaped isNumber hasDecimal token1Index tokenList) := st in
  let token2Index :=
    if 0 <=? token1Index then find_token2 0 token1Index c token2s else -1 in
  if (0 <=? token1Index) && (0 <=? token2Index) then
    let isComment :=
      if token2Index =? TokenType.to_int TokenType.SLASH_SLASH then true
      else isComment in
    if token2Index =? TokenType.to_int TokenType.SLASH_STAR then
      Ok (L.mk str 0 c line column isComment true isStr
               isEscaped isNumber hasDecimal (-1) tokenList)
    else
      Ok (L.mk str 0 c line column isComment isBlockComment isStr
               isEscaped isNumber hasDecimal (-1)
               (tokenList ++
                  [Token.mk (TokenType.of_int token2Index) line column NoPayload]))
  else
    let tokenList :=
      if 0 <=? token1Index
      then tokenList ++
             [Token.mk (TokenType.of_int token1Index) line column NoPayload]
      else tokenList in
    let token1Index := find_token1 0 c token1s in
    if (0 <=? token1Index) || (c =? SPACE)%char || (c =? NEWLINE)%char
       || (c =? TAB)%char || (c =? DQUOTE)%char || is_digit c
       || isNumber || end_
    then
      end_of_token
        (L.mk str strlen c line column isComment isBlockComment isStr
              isEscaped isNumber hasDecimal token1Index tokenList)
    else if (MAX_STR_SIZE <=? strlen)%nat then
      throw STRING_TOO_LONG line column
    else
      str <- buf_write strlen c str ;;
      Ok (L.mk str (S strlen) c line column isComment isBlockComment isStr
               isEscaped isNumber hasDecimal token1Index tokenList).

(** Lines 169-183: one character while a number is being read.  The
    result is [inl] for [continue] and [inr] when control falls through to
    the token processing. *)
Definition number_mode (end_ : bool) (st : L.state)
  : outcome (L.state + L.state) :=
  let '(L.mk str strlen c line column isComment isBlockComment isStr
             isEscaped isNumber hasDecimal token1Index tokenList) := st in
  str0 <- (if (strlen =? 1)%nat then buf_read 0 str else Ok NUL) ;;
  if (strlen =? 1)%nat && (str0 =? "0")%char
     && ((c =? "x")%char || (c =? "b")%char) then
    str <- buf_write strlen c str ;;
    Ok (inl (L.mk str (S strlen) c line column isComment isBlockComment isStr
                  isEscaped isNumber hasDecimal token1Index tokenList))
  else if (negb end_ && is_digit c) || is_upper c || is_lower c
          || ((c =? ".")%char && negb hasDecimal) then
    let hasDecimal := if (c =? ".")%char then true else hasDecimal in
    str <- buf_write strlen c str ;;
    Ok (inl (L.mk str (S strlen) c line column isComment isBlockComment isStr
                  isEscaped isNumber hasDecimal token1Index tokenList))
  else Ok (inr st).

(** The body of the loop after [file.get(c)]. *)
Definition iteration (end_ : bool) (st : L.state) : outcome L.state :=
  let '(L.mk str strlen c line column isComment isBlockComment isStr
             isEscaped isNumber hasDecimal token1Index tokenList) := st in
  if isStr then string_mode st
  else if isBlockComment then
    if (strlen =? 1)%nat && (c =? "/")%char then
      Ok (L.mk str strlen c line column isComment false isStr
               isEscaped isNumber hasDecimal token1Index tokenList)
    else if (c =? "*")%char then
      Ok (L.mk str 1 c line column isComment isBlockComment isStr
               isEscaped isNumber hasDecimal token1Index tokenList)
    else
      Ok (L.mk str 0 c line column isComment isBlockComment isStr
               isEscaped isNumber hasDecimal token1Index tokenList)
  else if isComment then
    if (c =? NEWLINE)%char then
      Ok (L.mk str strlen c line column false isBlockComment isStr
               isEscaped isNumber hasDecimal token1Index tokenList)
    else Ok st
  else if isNumber then
    r <- number_mode end_ st ;;
    match r with
    | inl st' => Ok st'
    | inr st' => token_processing end_ st'
    end
  else token_processing end_ st.

(** The head of the loop: the position is advanced past the previous
    character, then [file.get(c)] reads the next one.  At the end of the
    file [get] leaves [c] as it was and sets [eof], so the body runs one
    last time with the previous character and [end] set. *)
Definition advance (st : L.state) : L.state :=
  let '(L.mk str strlen c line column isComment isBlockComment isStr
             isEscaped isNumber hasDecimal token1Index tokenList) := st in
  if (c =? NEWLINE)%char then
    L.mk str strlen c (line + 1) 0 isComment isBlockComment isStr
         isEscaped isNumber hasDecimal token1Index tokenList
  else
    L.mk str strlen c line (column + 1) isComment isBlockComment isStr
         isEscaped isNumber hasDecimal token1Index tokenList.

(** [file.get(c)] when a character [ch] is available. *)
Definition get (ch : ascii) (st : L.state) : L.state :=
  let '(L.mk str strlen c line column isComment isBlockComment isStr
             isEscaped isNumber hasDecimal token1Index tokenList) := st in
  L.mk str strlen ch line column isComment isBlockComment isStr
       isEscaped isNumber hasDecimal token1Index tokenList.

Fixpoint tokenize_loop (file : list ascii) (st : L.state) : outcome L.state :=
  match file with
  | [] => iteration true (advance st)
  | ch :: file' =>
      st' <- iteration false (get ch (advance st)) ;;
      tokenize_loop file' st'
  end.

(** [tokenize]: the token list it leaves in [tokenList]. *)
Definition tokenize (file : list ascii) : outcome TokenList :=
  st <- tokenize_loop file L.init ;;
  Ok (L.tokenList st).

(** ** AST *)

Module NodeType.
Inductive t : Type :=
| NONE | TOKEN | PAREN_GROUP | SQUARE_GROUP | CURLY_GROUP
| IDENTIFIER | INT | FLOAT | BOOL | CHAR | CAST | BINOP.
End NodeType.

Module ExprType.
Inductive t : Type := UNKNOWN | INT | FLOAT | BOOL | CHAR.

Definition eqb (a b : t) : bool :=
  match a, b with
  | UNKNOWN, UNKNOWN | INT, INT | FLOAT, FLOAT | BOOL, BOOL | CHAR, CHAR => true
  | _, _ => false
  end.
End ExprType.

Module OpType.
Inductive t : Type := ADD | SUB | MULT | DIV.
End OpType.

(** A pattern for the possible type patterns for a binop, and their
    implicit type casts.  The struct has three constructors. *)
Module ArithmeticBinopPattern.

Record t : Type := mk {
  resultType : ExprType.t;
  aType : ExprType.t;
  bType : ExprType.t
}.

Definition rab (r a b : ExprType.t) : t := mk r a b.
Definition ab (a b : ExprType.t) : t := mk a a b.
Definition a (a : ExprType.t) : t := mk a a a.

End ArithmeticBinopPattern.

(** The valid patterns. *)
Definition arithmeticBinopPatterns : list ArithmeticBinopPattern.t :=
  [ ArithmeticBinopPattern.a ExprType.INT;
    ArithmeticBinopPattern.a ExprType.FLOAT;
    ArithmeticBinopPattern.a ExprType.CHAR;
    ArithmeticBinopPattern.ab ExprType.FLOAT ExprType.INT;
    ArithmeticBinopPattern.ab ExprType.FLOAT ExprType.CHAR;
    ArithmeticBinopPattern.ab ExprType.FLOAT ExprType.BOOL;
    ArithmeticBinopPattern.ab ExprType.INT ExprType.CHAR;
    ArithmeticBinopPattern.ab ExprType.INT ExprType.BOOL;
    ArithmeticBinopPattern.ab ExprType.CHAR ExprType.BOOL;
    ArithmeticBinopPattern.rab ExprType.INT ExprType.BOOL ExprType.BOOL ].

(** The subclasses of [Expr].  A cast takes its position from its source
    when it is constructed, so it stores none of its own. *)
Inductive Expr : Type :=
| ExprInt (line column : Z) (int_ : Z)
| ExprFloat (line column : Z) (float_ : float_t)
| ExprBool (line column : Z) (bool_ : Z)
| ExprChar (line column : Z) (char_ : ascii)
| ExprIdentifier (line column : Z) (str : list ascii)
| ExprCast (source : Expr) (evalType : ExprType.t)
| ExprBinop (left right : Expr) (opType : OpType.t) (evalType : ExprType.t)
    (line column : Z).

(** The subclasses of [Node].  A [NodeToken] wraps its token; the groups
    are constructed at position (-1, -1). *)
#[warnings="-register-all"]
Inductive Node : Type :=
| NodeToken (token : Token.t)
| NodeParenGroup (nodeList : list Node)
| NodeSquareGroup (nodeList : list Node)
| NodeCurlyGroup (nodeList : list Node)
| NodeExpr (e : Expr).

Definition NodeList : Type := list Node.

Fixpoint Expr_line (e : Expr) : Z :=
  match e with
  | ExprInt l _ _ | ExprFloat l _ _ | ExprBool l _ _ | ExprChar l _ _
  | ExprIdentifier l _ _ => l
  | ExprCast source _ => Expr_line source
  | ExprBinop _ _ _ _ l _ => l
  end.

Fixpoint Expr_column (e : Expr) : Z :=
  match e with
  | ExprInt _ c _ | ExprFloat _ c _ | ExprBool _ c _ | ExprChar _ c _
  | ExprIdentifier _ c _ => c
  | ExprCast source _ => Expr_column source
  | ExprBinop _ _ _ _ _ c => c
  end.

Definition evalType (e : Expr) : ExprType.t :=
  match e with
  | ExprInt _ _ _ => ExprType.INT
  | ExprFloat _ _ _ => ExprType.FLOAT
  | ExprBool _ _ _ => ExprType.BOOL
  | ExprChar _ _ _ => ExprType.CHAR
  | ExprIdentifier _ _ _ => ExprType.UNKNOWN
  | ExprCast _ t => t
  | ExprBinop _ _ _ t _ _ => t
  end.

Definition Expr_type (e : Expr) : NodeType.t :=
  match e with
  | ExprInt _ _ _ => NodeType.INT
  | ExprFloat _ _ _ => NodeType.FLOAT
  | ExprBool _ _ _ => NodeType.BOOL
  | ExprChar _ _ _ => NodeType.CHAR
  | ExprIdentifier _ _ _ => NodeType.IDENTIFIER
  | ExprCast _ _ => NodeType.CAST
  | ExprBinop _ _ _ _ _ _ => NodeType.BINOP
  end.

Definition Node_type (n : Node) : NodeType.t :=
  match n with
  | NodeToken _ => NodeType.TOKEN
  | NodeParenGroup _ => NodeType.PAREN_GROUP
  | NodeSquareGroup _ => NodeType.SQUARE_GROUP
  | NodeCurlyGroup _ => NodeType.CURLY_GROUP
  | NodeExpr e => Expr_type e
  end.

Definition isExpr (n : Node) : bool :=
  match n with NodeExpr _ => true | _ => false end.

Definition Node_line (n : Node) : Z :=
  match n with
  | NodeToken token => Token.line token
  | NodeExpr e => Expr_line e
  | _ => -1
  end.

Definition Node_column (n : Node) : Z :=
  match n with
  | NodeToken token => Token.column token
  | NodeExpr e => Expr_column e
  | _ => -1
  end.

(** *** constructAST, first pass *)

(** The node that replaces the wrapper of one token, and the token as the
    pass leaves it: an identifier hands its string over to the node. *)
Definition promote (token : Token.t) : outcome (Node * Token.t) :=
  let l := Token.line token in
  let c := Token.column token in
  match Token.type token with
  | TokenType.NUM_INT =>
      match Token.payload token with
      | PInt int_ => Ok (NodeExpr (ExprInt l c int_), token)
      | _ => Undefined
      end
  | TokenType.NUM_FLOAT =>
      match Token.payload token with
      | PFloat float_ => Ok (NodeExpr (ExprFloat l c float_), token)
      | _ => Undefined
      end
  | TokenType.IDENTIFIER =>
      match Token.payload token with
      | PStr str =>
          Ok (NodeExpr (ExprIdentifier l c str),
              Token.mk TokenType.IDENTIFIER l c NoPayload)
      | _ => throw UNKNOWN l c
      end
  | TokenType.TRUE => Ok (NodeExpr (ExprBool l c 1), token)
  | TokenType.FALSE => Ok (NodeExpr (ExprBool l c 0), token)
  | _ => Ok (NodeToken token, token)
  end.

Fixpoint promote_all (tokenList : TokenList) : outcome (NodeList * TokenList) :=
  match tokenList with
  | [] => Ok ([], [])
  | token :: tokenList' =>
      r <- promote token ;;
      rs <- promote_all tokenList' ;;
      Ok (fst r :: fst rs, snd r :: snd rs)
  end.

(** *** condenseAST, the two precedence passes *)

(** The scan of [arithmeticBinopPatterns]: the result type and the two
    operands after casting; the result type stays [UNKNOWN] when no
    pattern matches. *)
Fixpoint apply_patterns (patterns : list ArithmeticBinopPattern.t)
  (left right : Expr) : ExprType.t * Expr * Expr :=
  match patterns with
  | [] => (ExprType.UNKNOWN, left, right)
  | pattern :: patterns' =>
      let aType := ArithmeticBinopPattern.aType pattern in
      let bType := ArithmeticBinopPattern.bType pattern in
      if (ExprType.eqb (evalType left) aType && ExprType.eqb (evalType right) bType)
         || (ExprType.eqb (evalType left) bType && ExprType.eqb (evalType right) aType)
      then
        let resultType := ArithmeticBinopPattern.resultType pattern in
        let left' :=
          if negb (ExprType.eqb (evalType left) resultType)
          then ExprCast left resultType else left in
        let right' :=
          if negb (ExprType.eqb (evalType right) resultType)
          then ExprCast right resultType else right in
        (resultType, left', right')
      else apply_patterns patterns' left right
  end.

(** The binop node built at an operator token, or the exception. *)
Definition make_binop (left right : Expr) (opType : OpType.t) (line column : Z)
  : outcome Expr :=
  let '(resultType, lhs, rhs) :=
    apply_patterns arithmeticBinopPatterns left right in
  if ExprType.eqb resultType ExprType.UNKNOWN
  then throw BINOP_ILLEGAL_PATTERN line column
  else Ok (ExprBinop lhs rhs opType resultType line column).

Definition TokenType_eqb (a b : TokenType.t) : bool :=
  TokenType.to_int a =? TokenType.to_int b.

(** One pass over [outputList].  [done] holds the nodes in front of [ptr],
    nearest first; [todo] starts at [ptr].  Pass 1 is the instance
    (STAR, MULT, SLASH, DIV), pass 2 is (PLUS, ADD, DASH, SUB): the source
    repeats the same loop with these. *)
Fixpoint binop_pass (flagToken : TokenType.t) (flagOp : OpType.t)
  (otherToken : TokenType.t) (otherOp : OpType.t)
  (done todo : NodeList) : outcome NodeList :=
  match todo with
  | [] => Ok (rev done)
  | NodeToken token :: todo' =>
      let flag := TokenType_eqb (Token.type token) flagToken in
      if flag || TokenType_eqb (Token.type token) otherToken then
        match done, todo' with
        | NodeExpr lhs :: done', NodeExpr rhs :: todo'' =>
            binop <- make_binop lhs rhs (if flag then flagOp else otherOp)
                       (Token.line token) (Token.column token) ;;
            binop_pass flagToken flagOp otherToken otherOp
              (NodeExpr binop :: done') todo''
        | _, _ =>
            throw BINOP_MISSING_EXPRESSION (Token.line token) (Token.column token)
        end
      else
        binop_pass flagToken flagOp otherToken otherOp
          (NodeToken token :: done) todo'
  | node :: todo' =>
      binop_pass flagToken flagOp otherToken otherOp (node :: done) todo'
  end.

(** The code after the label [process]. *)
Definition process (outputList : NodeList) : outcome NodeList :=
  outputList <- binop_pass TokenType.STAR OpType.MULT
                  TokenType.SLASH OpType.DIV [] outputList ;;
  binop_pass TokenType.PLUS OpType.ADD TokenType.DASH OpType.SUB [] outputList.

(** *** condenseAST, the grouping loop *)

(** What the caller inserts for a resolved group: a paren group of exactly
    one expression is replaced by that expression. *)
Definition group_node (type : NodeType.t) (nodeList : NodeList) : Node :=
  match type with
  | NodeType.PAREN_GROUP =>
      match nodeList with
      | [NodeExpr e] => NodeExpr e
      | _ => NodeParenGroup nodeList
      end
  | NodeType.SQUARE_GROUP => NodeSquareGroup nodeList
  | _ => NodeCurlyGroup nodeList
  end.

Definition NodeType_eqb (a b : NodeType.t) : bool :=
  match a, b with
  | NodeType.NONE, NodeType.NONE
  | NodeType.PAREN_GROUP, NodeType.PAREN_GROUP
  | NodeType.SQUARE_GROUP, NodeType.SQUARE_GROUP
  | NodeType.CURLY_GROUP, NodeType.CURLY_GROUP => true
  | _, _ => false
  end.

(** [ptr--] at the end of the list, then the exception at [*ptr]. *)
Definition missing_closing (t : ErrorType) (inputList_rev : NodeList)
  : outcome (NodeList * NodeList) :=
  match inputList_rev with
  | last :: _ => throw t (Node_line last) (Node_column last)
  | [] => Undefined
  end.

(** [outputList.splice(outputList.begin(), inputList, start, ptr)] and the
    jump to [process].  [start] must still be an iterator of the list. *)
Definition splice_process (startValid : bool) (acc rest : NodeList)
  : outcome (NodeList * NodeList) :=
  if startValid then
    outputList <- process (rev acc) ;;
    Ok (outputList, rest)
  else Undefined.

(** The shared list [inputList] is a zipper:
    - [front]: the nodes in front of [start], nearest first; no call
      touches them;
    - [acc]: the nodes of [start, ptr), nearest first;
    - [rest]: the nodes from [ptr] on.
    [startValid] is false once the node [start] points to has been erased,
    which happens when the first node of the region is an opening bracket.
    The result is [outputList] and the list from the closing bracket on.
    Every iteration and every nested call uses one unit of [fuel]; [None]
    is the end of the fuel. *)
Fixpoint condenseAST_loop (fuel : nat) (front acc rest : NodeList)
  (startValid : bool) (type : NodeType.t)
  : option (outcome (NodeList * NodeList)) :=
  match fuel with
  | O => None
  | S fuel' =>
      let next (node : Node) (rest' : NodeList) :=
        condenseAST_loop fuel' front (node :: acc) rest' startValid type in
      let opening (node : Node) (rest' : NodeList) (group : NodeType.t) :=
        match condenseAST_loop fuel' (node :: acc ++ front) [] rest' true group with
        | None => None
        | Some (Ok (nodeList, _ :: rest'')) =>
            condenseAST_loop fuel' front (group_node group nodeList :: acc) rest''
              (startValid && match acc with [] => false | _ => true end) type
        | Some (Ok (_, [])) => Some Undefined
        | Some (Throw e) => Some (Throw e)
        | Some Undefined => Some Undefined
        end in
      let closing (node : Node) (group : NodeType.t) (invalid : ErrorType) :=
        if NodeType_eqb type group
        then Some (splice_process startValid acc rest)
        else Some (throw invalid (Node_line node) (Node_column node)) in
      match rest with
      | [] =>
          match type with
          | NodeType.NONE => Some (splice_process startValid acc rest)
          | NodeType.PAREN_GROUP =>
              Some (missing_closing MISSING_CLOSING_PAREN (acc ++ front))
          | NodeType.SQUARE_GROUP =>
              Some (missing_closing MISSING_CLOSING_SQUARE (acc ++ front))
          | NodeType.CURLY_GROUP =>
              Some (missing_closing MISSING_CLOSING_CURLY (acc ++ front))
          | _ => Some (outputList <- process [] ;; Ok (outputList, rest))
          end
      | node :: rest' =>
          match node with
          | NodeToken token =>
              match Token.type token with
              | TokenType.LEFT_PAREN => opening node rest' NodeType.PAREN_GROUP
              | TokenType.LEFT_SQUARE => opening node rest' NodeType.SQUARE_GROUP
              | TokenType.LEFT_CURLY => opening node rest' NodeType.CURLY_GROUP
              | TokenType.RIGHT_PAREN =>
                  closing node NodeType.PAREN_GROUP INVALID_CLOSING_PAREN
              | TokenType.RIGHT_SQUARE =>
                  closing node NodeType.SQUARE_GROUP INVALID_CLOSING_SQUARE
              | TokenType.RIGHT_CURLY =>
                  closing node NodeType.CURLY_GROUP INVALID_CLOSING_CURLY
              | _ => next node rest'
              end
          | _ => next node rest'
          end
      end
  end.

(** [condenseAST(inputList, outputList, start, type)] with [start] at the
    head of [rest] and an empty [outputList].  The fuel is one more than
    the number of nodes from [start] on, which is enough
    ([condenseAST_loop_fuel]). *)
Definition condenseAST (front rest : NodeList) (type : NodeType.t)
  : outcome (NodeList * NodeList) :=
  match condenseAST_loop (S (length rest)) front [] rest true type with
  | Some r => r
  | None => Undefined
  end.

(** [constructAST]: [outputList] and the token list as the first pass
    leaves it. *)
Definition constructAST (tokenList : TokenList) : outcome (NodeList * TokenList) :=
  r <- promote_all tokenList ;;
  o <- condenseAST [] (fst r) NodeType.NONE ;;
  Ok (fst o, snd r).

(** ** Register manager and bytecode *)

(** The constants of [register_] and [opcode] and the byte order of the
    host are declared outside the sources at hand; they are the fields of
    a [Target].  [int_t_bytes v] is the object representation of the
    [int_t] value [v], as [ASM_WRITE] copies it to the stream. *)
Record Target : Type := mkTarget {
  NUM_WORD_REGISTERS : nat;
  NUM_BYTE_REGISTERS : nat;
  W0 : Z;
  B0 : Z;
  MOV_W : Z;
  int_t_bytes : Z -> list Z
}.

(** Modelled from the spec: the typedefs [opcode_t], [reg_t] and [int_t]
    are declared outside the sources at hand.  The move-word-immediate
    record is "{opcode byte}{destination register byte}{4-byte signed
    integer}", so the three sizes are 1, 1 and 4. *)
Definition sizeof_opcode_t : Z := 1.
Definition sizeof_reg_t : Z := 1.
Definition sizeof_int_t : Z := 4.

(** A value of a one-byte type is identified with the byte that holds it. *)
Definition to_byte (z : Z) : Z := z mod 256.

Module RegManager.

Record t : Type := mk {
  wordsActive : list bool;
  bytesActive : list bool
}.

(** The constructor marks every register as free. *)
Definition new (T : Target) : t :=
  mk (repeat false (NUM_WORD_REGISTERS T)) (repeat false (NUM_BYTE_REGISTERS T)).

(** The loop of [getWord] and [getByte]: the index of the first inactive
    slot, from [i] on, and the array with that slot set. *)
Fixpoint acquire (i : Z) (active : list bool) : option (Z * list bool) :=
  match active with
  | [] => None
  | a :: active' =>
      if negb a then Some (i, true :: active')
      else
        match acquire (i + 1) active' with
        | Some (j, active'') => Some (j, a :: active'')
        | None => None
        end
  end.

(** [active[i] = false]; an index outside the array is undefined. *)
Fixpoint release (i : nat) (active : list bool) : outcome (list bool) :=
  match i, active with
  | _, [] => Undefined
  | O, _ :: active' => Ok (false :: active')
  | S i', a :: active' => r <- release i' active' ;; Ok (a :: r)
  end.

Definition getWord (T : Target) (reg : t) : outcome (Z * t) :=
  match acquire 0 (wordsActive reg) with
  | Some (i, words) => Ok (to_byte (i + W0 T), mk words (bytesActive reg))
  | None => throw OUT_OF_REGISTERS (-1) (-1)
  end.

Definition freeWord (T : Target) (reg : t) (r : Z) : outcome t :=
  if r - W0 T <? 0 then Undefined
  else
    words <- release (Z.to_nat (r - W0 T)) (wordsActive reg) ;;
    Ok (mk words (bytesActive reg)).

Definition getByte (T : Target) (reg : t) : outcome (Z * t) :=
  match acquire 0 (bytesActive reg) with
  | Some (i, bytes) => Ok (to_byte (i + B0 T), mk (wordsActive reg) bytes)
  | None => throw OUT_OF_REGISTERS (-1) (-1)
  end.

Definition freeByte (T : Target) (reg : t) (r : Z) : outcome t :=
  if r - B0 T <? 0 then Undefined
  else
    bytes <- release (Z.to_nat (r - B0 T)) (bytesActive reg) ;;
    Ok (mk (wordsActive reg) bytes).

End RegManager.

(** The state that [makeExprBytecode] works on: its own parameter [reg],
    which is a copy of the caller's register manager, and the two objects
    it has by reference, the stream and the byte counter. *)
Module Emit.

Record state : Type := mk {
  reg : RegManager.t;
  outputFile : list Z;
  byteCounter : Z
}.

End Emit.

(** [ASM_WRITE(thing, type)]: the bytes go to the stream and the counter
    grows by [sizeof(type)]. *)
Definition ASM_WRITE (bytes : list Z) (size : Z) (st : Emit.state) : Emit.state :=
  Emit.mk (Emit.reg st) (Emit.outputFile st ++ bytes) (Emit.byteCounter st + size).

(** [makeExprBytecode]: the register id it returns and the state at the
    return; [Emit.reg] of that state is the parameter [reg] of the callee
    at the moment it goes out of scope.  The [switch] on [expr->type] is
    the match on the subclass; an identifier has no case. *)
Definition makeExprBytecode (T : Target) (expr : Expr) (reg : RegManager.t)
  (outputFile : list Z) (byteCounter : Z) : outcome (Z * Emit.state) :=
  let ridOut := 0 in
  let st := Emit.mk reg outputFile byteCounter in
  match expr with
  | ExprInt _ _ int_ =>
      r <- RegManager.getWord T reg ;;
      let ridOut := fst r in
      let st := Emit.mk (snd r) outputFile byteCounter in
      let opcode := to_byte (MOV_W T) in
      let st := ASM_WRITE [opcode] sizeof_opcode_t st in
      let st := ASM_WRITE [ridOut] sizeof_reg_t st in
      let st := ASM_WRITE (int_t_bytes T int_) sizeof_int_t st in
      Ok (ridOut, st)
  | ExprFloat _ _ _ => Ok (ridOut, st)
  | ExprBool _ _ _ => Ok (ridOut, st)
  | ExprCast _ _ => Ok (ridOut, st)
  | ExprChar _ _ _ => Ok (ridOut, st)
  | ExprBinop _ _ _ _ _ _ => Ok (ridOut, st)
  | ExprIdentifier _ _ _ => Ok (ridOut, st)
  end.

(** The locals of [makeBytecode] at its return, and the stream. *)
Module Bytecode.

Record state : Type := mk {
  reg : RegManager.t;
  byteCounter : Z;
  rid1 : Z;
  outputFile : list Z
}.

End Bytecode.

(** [makeBytecode] passes its [reg] by value: the callee's copy is dropped
    at the return, the stream and the counter are shared. *)
Definition makeBytecode (T : Target) (nodes : NodeList) (outputFile : list Z)
  : outcome (Z * Bytecode.state) :=
  let reg := RegManager.new T in
  let byteCounter := 0 in
  let rid1 := 0 in
  match nodes with
  | [] => Undefined
  | NodeExpr expr :: _ =>
      r <- makeExprBytecode T expr reg outputFile byteCounter ;;
      let rid1 := fst r in
      Ok (0, Bytecode.mk reg (Emit.byteCounter (snd r)) rid1
               (Emit.outputFile (snd r)))
  | _ :: _ => Ok (0, Bytecode.mk reg byteCounter rid1 outputFile)
  end.

(** [compile_]: tokenize, construct the AST, make the bytecode.  The
    result is that of [makeBytecode] on an empty output file. *)
Definition compile_ (T : Target) (inputFile : list ascii)
  : outcome (Z * Bytecode.state) :=
  tokenList <- tokenize inputFile ;;
  ast <- constructAST tokenList ;;
  makeBytecode T (fst ast) [].

(** Source text given as a string literal. *)
Definition src (s : string) : list ascii := list_ascii_of_string s.

(** A little-endian target with eight registers of each kind, for closed
    examples. *)
Definition le_bytes (v : Z) : list Z :=
  [ v mod 256; (v / 256) mod 256; (v / 65536) mod 256; (v / 16777216) mod 256 ].

Definition example_target : Target := mkTarget 8 8 0 8 1 le_bytes.

(** ** Vocabulary of the statements *)

(** A resolved integer literal and a token without payload. *)
Definition int_token (line column value : Z) : Token.t :=
  Token.mk TokenType.NUM_INT line column (PInt value).

Definition punct (t : TokenType.t) (line column : Z) : Token.t :=
  Token.mk t line column NoPayload.

(** The lexer is inside a line comment, with nothing pending, and has
    emitted [toks]. *)
Definition in_comment (toks : TokenList) (st : L.state) : Prop :=
  L.isStr st = false /\ L.isBlockComment st = false /\
  L.isComment st = true /\ L.isNumber st = false /\
  L.strlen st = 0%nat /\ L.token1Index st = -1 /\
  L.c st <> NEWLINE /\ L.tokenList st = toks.

(** The iterations of the loop that read a character, without the last
    one that sees the end of the file. *)
Fixpoint feed (file : list ascii) (st : L.state) : outcome L.state :=
  match file with
  | [] => Ok st
  | ch :: file' =>
      st' <- iteration false (get ch (advance st)) ;;
      feed file' st'
  end.

(** The lexer is inside a string literal, has accumulated [acc] in the
    buffer and has emitted [toks]. *)
Definition in_string (acc : list ascii) (toks : TokenList) (st : L.state) : Prop :=
  L.isStr st = true /\ L.isEscaped st = false /\
  (exists junk, L.str st = map Some acc ++ junk) /\
  L.strlen st = length acc /\ L.tokenList st = toks /\
  L.isComment st = false /\ L.isBlockComment st = false /\
  L.isNumber st = false.

(** A character that string mode accumulates as it is. *)
Definition plain_char (c : ascii) : Prop :=
  c <> DQUOTE /\ c <> BACKSLASH /\ c <> NUL.


(** What number mode accepts after the first two characters: letters and
    digits, and one decimal point. *)
Definition alnum (c : ascii) : bool := is_digit c || is_upper c || is_lower c.

Fixpoint number_body (hasDecimal : bool) (text : list ascii) : bool :=
  match text with
  | [] => true
  | c :: text' =>
      if alnum c then number_body hasDecimal text'
      else if (c =? ".")%char && negb hasDecimal then number_body true text'
      else false
  end.

(** The lexer is reading a number at the start of the first line, has
    accumulated [acc] and has emitted nothing. *)
Definition in_number (acc : list ascii) (hasDecimal : bool) (st : L.state) : Prop :=
  L.isStr st = false /\ L.isBlockComment st = false /\
  L.isComment st = false /\ L.isNumber st = true /\
  L.hasDecimal st = hasDecimal /\
  (exists junk, L.str st = map Some acc ++ junk) /\
  L.strlen st = length acc /\ (1 <= length acc)%nat /\
  L.tokenList st = [] /\ L.token1Index st = -1 /\
  L.line st = 0 /\ L.column st = Z.of_nat (length acc) - 1 /\
  L.c st <> NEWLINE /\ Forall (fun c => c <> NUL) acc.





(** The operator that a precedence pass folds at a token. *)
Definition operator_of (t : TokenType.t) : option OpType.t :=
  match t with
  | TokenType.STAR => Some OpType.MULT
  | TokenType.SLASH => Some OpType.DIV
  | TokenType.PLUS => Some OpType.ADD
  | TokenType.DASH => Some OpType.SUB
  | _ => None
  end.

(** The move-word-immediate record for the value [v] into register [r]. *)
Definition mov_w_record (T : Target) (r v : Z) : list Z :=
  [to_byte (MOV_W T); r] ++ int_t_bytes T v.

(** What the switch of the grouping loop does with a node. *)
Inductive bracket : Type :=
| Opening (group : NodeType.t)
| Closing (group : NodeType.t)
| Plain.

(** The six bracket tokens; every other node is [Plain]. *)
Definition classify (node : Node) : bracket :=
  match node with
  | NodeToken token =>
      match Token.type token with
      | TokenType.LEFT_PAREN => Opening NodeType.PAREN_GROUP
      | TokenType.LEFT_SQUARE => Opening NodeType.SQUARE_GROUP
      | TokenType.LEFT_CURLY => Opening NodeType.CURLY_GROUP
      | TokenType.RIGHT_PAREN => Closing NodeType.PAREN_GROUP
      | TokenType.RIGHT_SQUARE => Closing NodeType.SQUARE_GROUP
      | TokenType.RIGHT_CURLY => Closing NodeType.CURLY_GROUP
      | _ => Plain
      end
  | _ => Plain
  end.

Definition is_closing (node : Node) : bool :=
  match classify node with Closing _ => true | _ => false end.

Definition is_group (type : NodeType.t) : bool :=
  match type with
  | NodeType.PAREN_GROUP | NodeType.SQUARE_GROUP | NodeType.CURLY_GROUP => true
  | _ => false
  end.

(** The error named after a kind of bracket. *)
Definition invalid_closing_of (group : NodeType.t) : ErrorType :=
  match group with
  | NodeType.PAREN_GROUP => INVALID_CLOSING_PAREN
  | NodeType.SQUARE_GROUP => INVALID_CLOSING_SQUARE
  | _ => INVALID_CLOSING_CURLY
  end.

Definition missing_closing_of (group : NodeType.t) : ErrorType :=
  match group with
  | NodeType.PAREN_GROUP => MISSING_CLOSING_PAREN
  | NodeType.SQUARE_GROUP => MISSING_CLOSING_SQUARE
  | _ => MISSING_CLOSING_CURLY
  end.

(** The kind that is open after a sequence without closing brackets: that
    of its last opening bracket, or [type] when it has none. *)
Fixpoint innermost (type : NodeType.t) (l : NodeList) : NodeType.t :=
  match l with
  | [] => type
  | node :: l' =>
      match classify node with
      | Opening group => innermost group l'
      | _ => innermost type l'
      end
  end.

(** The first fault of the brackets of a list: a closing bracket of
    another kind than the innermost open one, or the end of the list while
    a kind is open. *)
Inductive fault : Type :=
| InvalidAt (group : NodeType.t) (node : Node)
| MissingAtEnd (group : NodeType.t).

(** [stack] holds the open kinds, innermost first; [None] means that the
    brackets are well nested. *)
Fixpoint bracket_fault (stack : list NodeType.t) (l : NodeList) : option fault :=
  match l with
  | [] =>
      match stack with
      | [] => None
      | top :: _ => Some (MissingAtEnd top)
      end
  | node :: l' =>
      match classify node with
      | Opening group => bracket_fault (group :: stack) l'
      | Closing group =>
          match stack with
          | top :: stack' =>
              if NodeType_eqb top group then bracket_fault stack' l'
              else Some (InvalidAt group node)
          | [] => Some (InvalidAt group node)
          end
      | Plain => bracket_fault stack l'
      end
  end.

(** The exception that reports a fault: an invalid closing bracket is
    reported under its own kind and at its own position, a missing one
    under the kind that is open. *)
Definition reports (f : fault) (e : CompilerException) : Prop :=
  match f with
  | InvalidAt group node =>
      e = mkException (invalid_closing_of group) (Node_line node) (Node_column node)
  | MissingAtEnd group => eType e = missing_closing_of group
  end.

Definition is_bracket_error (t : ErrorType) : bool :=
  match t with
  | INVALID_CLOSING_PAREN | INVALID_CLOSING_SQUARE | INVALID_CLOSING_CURLY
  | MISSING_CLOSING_PAREN | MISSING_CLOSING_SQUARE | MISSING_CLOSING_CURLY => true
  | _ => false
  end.

Definition is_binop_error (t : ErrorType) : bool :=
  match t with
  | BINOP_MISSING_EXPRESSION | BINOP_ILLEGAL_PATTERN => true
  | _ => false
  end.

(** The open kinds that a call with expected kind [type] stands for, given
    those of its callers. *)
Definition open_kinds (type : NodeType.t) (outer : list NodeType.t)
  : list NodeType.t :=
  if is_group type then type :: outer else [].

(** ** Vocabulary of the further properties *)

(** The array [active] with slot [k] set to [v]. *)
Definition with_slot (k : nat) (v : bool) (active : list bool) : list bool :=
  firstn k active ++ v :: skipn (S k) active.

(** Slot [k] is the lowest free slot of [active]. *)
Definition lowest_free (k : nat) (active : list bool) : Prop :=
  nth_error active k = Some false /\
  forall m, (m < k)%nat -> nth_error active m = Some true.

(** The order of the operand types in the pattern table. *)
Definition rank (t : ExprType.t) : nat :=
  match t with
  | ExprType.UNKNOWN => 0
  | ExprType.BOOL => 1
  | ExprType.CHAR => 2
  | ExprType.INT => 3
  | ExprType.FLOAT => 4
  end.

(** The result type that the table gives to a pair of operand types:
    none for an unknown type, INT for two BOOL, else the type of higher
    rank. *)
Definition result_type (a b : ExprType.t) : ExprType.t :=
  match a, b with
  | ExprType.UNKNOWN, _ | _, ExprType.UNKNOWN => ExprType.UNKNOWN
  | ExprType.BOOL, ExprType.BOOL => ExprType.INT
  | _, _ => if (rank a <? rank b)%nat then b else a
  end.

(** An operand as the binop node holds it: cast when its type is not the
    result type. *)
Definition cast_to (t : ExprType.t) (e : Expr) : Expr :=
  if ExprType.eqb (evalType e) t then e else ExprCast e t.

(** Every binop has operands of its own type, every cast changes the type,
    and no cast or binop is of, or from, the unknown type. *)
Fixpoint well_typed (e : Expr) : Prop :=
  match e with
  | ExprCast source t =>
      well_typed source /\ evalType source <> t /\
      evalType source <> ExprType.UNKNOWN /\ t <> ExprType.UNKNOWN
  | ExprBinop lhs rhs _ t _ _ =>
      well_typed lhs /\ well_typed rhs /\
      evalType lhs = t /\ evalType rhs = t /\ t <> ExprType.UNKNOWN
  | _ => True
  end.

(** The expressions of a node, inside groups too, are well typed. *)
Fixpoint node_well_typed (n : Node) : Prop :=
  let all :=
    fix all (l : list Node) : Prop :=
      match l with
      | [] => True
      | x :: l' => node_well_typed x /\ all l'
      end in
  match n with
  | NodeToken _ => True
  | NodeParenGroup l | NodeSquareGroup l | NodeCurlyGroup l => all l
  | NodeExpr e => well_typed e
  end.

(** A token that one of the two precedence passes folds. *)
Definition is_operator (n : Node) : bool :=
  match n with
  | NodeToken token =>
      match operator_of (Token.type token) with Some _ => true | None => false end
  | _ => false
  end.

(** The nodes of [e0 op1 e1 ... opn en] after [e0]. *)
Fixpoint chain_nodes (chain : list (Token.t * Expr)) : NodeList :=
  match chain with
  | [] => []
  | (token, e) :: chain' => NodeToken token :: NodeExpr e :: chain_nodes chain'
  end.

(** The left fold of a chain: each operator takes everything to its left
    as its left operand. *)
Fixpoint fold_chain (flagToken : TokenType.t) (flagOp otherOp : OpType.t)
  (acc : Expr) (chain : list (Token.t * Expr)) : outcome Expr :=
  match chain with
  | [] => Ok acc
  | (token, e) :: chain' =>
      binop <- make_binop acc e
                 (if TokenType_eqb (Token.type token) flagToken
                  then flagOp else otherOp)
                 (Token.line token) (Token.column token) ;;
      fold_chain flagToken flagOp otherOp binop chain'
  end.

(** A token that the pass for [flagToken] and [otherToken] folds. *)
Definition folds (flagToken otherToken : TokenType.t) (n : Node) : bool :=
  match n with
  | NodeToken token =>
      TokenType_eqb (Token.type token) flagToken
      || TokenType_eqb (Token.type token) otherToken
  | _ => false
  end.

(** What a list of nodes is made of, read from left to right: the
    operands, the arithmetic operators (an operator token and the root of a
    binop count alike, with the kind and the position of the operator) and
    the nodes of every other sort.  A cast is transparent. *)
Inductive atom : Type :=
| AtomOp (opType : OpType.t) (line column : Z)
| AtomExpr (e : Expr)
| AtomNode (n : Node).

Fixpoint expr_atoms (e : Expr) : list atom :=
  match e with
  | ExprBinop lhs rhs opType _ line column =>
      expr_atoms lhs ++ AtomOp opType line column :: expr_atoms rhs
  | ExprCast source _ => expr_atoms source
  | _ => [AtomExpr e]
  end.

Definition node_atoms (n : Node) : list atom :=
  match n with
  | NodeExpr e => expr_atoms e
  | NodeToken token =>
      match operator_of (Token.type token) with
      | Some opType => [AtomOp opType (Token.line token) (Token.column token)]
      | None => [AtomNode n]
      end
  | _ => [AtomNode n]
  end.

Definition atoms (l : NodeList) : list atom := flat_map node_atoms l.

(** A digit of the given base, by the digit test of [parseNumber]. *)
Definition digit_below (base : Z) (c : ascii) : bool :=
  match digit_value c with
  | Some d => d <? base
  | None => false
  end.

(** The positional value of a run of digits, most significant first. *)
Definition digits_value (base : Z) (digits : list ascii) : Z :=
  fold_left
    (fun value c =>
       value * base + match digit_value c with Some d => d | None => 0 end)
    digits 0.

(** The characters that a [const char*] shows: those before the first NUL. *)
Fixpoint before_nul (str : list ascii) : list ascii :=
  match str with
  | [] => []
  | c :: str' => if (c =? NUL)%char then [] else c :: before_nul str'
  end.

(** The base that goes with a prefix letter after the leading zero. *)
Definition prefix_base (t : ascii) : option Z :=
  if (t =? "x")%char then Some 16
  else if (t =? "b")%char then Some 2
  else if (t =? "d")%char then Some 10
  else None.

(** A token whose union member is the one that goes with its type: a
    number holds its value, an identifier and a string hold their text,
    every other token holds nothing, and no number is left unidentified. *)
Definition well_formed (token : Token.t) : Prop :=
  match Token.type token with
  | TokenType.NUM_INT => exists int_, Token.payload token = PInt int_
  | TokenType.NUM_FLOAT => exists float_, Token.payload token = PFloat float_
  | TokenType.IDENTIFIER | TokenType.STRING =>
      exists str, Token.payload token = PStr str
  | TokenType.NUM_UNIDENTIFIED => False
  | _ => Token.payload token = NoPayload
  end.

(** The pending length-1 token: none, or an entry of [token1s]. *)
Definition token1_pending (token1Index : Z) : Prop :=
  token1Index = -1 \/
  firstToken1 <= token1Index < firstToken1 + Z.of_nat (length token1s).

(** The characters that only separate tokens. *)
Definition blank (c : ascii) : bool :=
  (c =? SPACE)%char || (c =? NEWLINE)%char || (c =? TAB)%char.

(** The lexer is between tokens, with nothing pending, and has emitted
    [toks]. *)
Definition between_tokens (toks : TokenList) (st : L.state) : Prop :=
  L.isStr st = false /\ L.isBlockComment st = false /\
  L.isComment st = false /\ L.isNumber st = false /\
  L.strlen st = 0%nat /\ L.token1Index st = -1 /\
  L.tokenList st = toks.

(** The length-2 token that a character makes with itself. *)
Definition doubled (op : ascii) : option TokenType.t :=
  if (op =? "+")%char then Some TokenType.PLUS_PLUS
  else if (op =? "-")%char then Some TokenType.DASH_DASH
  else if (op =? "=")%char then Some TokenType.EQ_EQUALS
  else if (op =? "/")%char then Some TokenType.SLASH_SLASH
  else None.

Definition is_letter (c : ascii) : bool := is_upper c || is_lower c.

(** The lexer has accumulated the letters [acc] of a word that started
    the file. *)
Definition in_word (acc : list ascii) (st : L.state) : Prop :=
  L.isStr st = false /\ L.isBlockComment st = false /\
  L.isComment st = false /\ L.isNumber st = false /\
  (exists junk, L.str st = map Some acc ++ junk) /\
  L.strlen st = length acc /\
  L.tokenList st = [] /\ L.token1Index st = -1 /\
  L.line st = 0 /\ L.column st = Z.of_nat (length acc) - 1 /\
  L.c st <> NEWLINE /\ Forall (fun c => c <> NUL) acc.

(** The token for a word: that of the keyword it is, or an identifier. *)
Definition word_token (word : list ascii) (line column : Z) : Token.t :=
  let keyword := stringMatchAt word keywords in
  if 0 <=? keyword
  then Token.mk (TokenType.of_int (keyword + firstKeyword)) line column NoPayload
  else Token.mk TokenType.IDENTIFIER line column (PStr word).

(** The character that an escape sequence stands for. *)
Definition unescape (e : ascii) : ascii :=
  if (e =? "n")%char then NEWLINE
  else if (e =? "c")%char then ESC
  else if (e =? "0")%char then NUL
  else if (e =? "t")%char then TAB
  else e.

(** * Properties *)

Unset Implicit Arguments.

(** ** Lexer and parser on concrete sources *)

Example tokenize_2_plus_3_times_4 :
  tokenize (src "2+3*4") =
  Ok [ int_token 0 1 2; punct TokenType.PLUS 0 2; int_token 0 3 3;
       punct TokenType.STAR 0 4; int_token 0 5 4 ].
Proof. reflexivity. Qed.

Example fold_left_assoc :
  (t <- tokenize (src "8-3-2") ;; r <- constructAST t ;; Ok (fst r)) =
  Ok [ NodeExpr
         (ExprBinop
            (ExprBinop (ExprInt 0 1 8) (ExprInt 0 3 3) OpType.SUB ExprType.INT 0 2)
            (ExprInt 0 5 2) OpType.SUB ExprType.INT 0 4) ].
Proof. reflexivity. Qed.

(** C1.  The source ["2+3*4"] lexes to five tokens; the multiplicative
    pass folds [3*4] and leaves [+] alone, the additive pass then folds
    the rest, so that [constructAST] yields one additive node whose left
    child is [2] and whose right child is the multiplicative node [3*4]. *)
Theorem precedence_mult_before_add :
  let two := ExprInt 0 1 2 in
  let three := ExprInt 0 3 3 in
  let four := ExprInt 0 5 4 in
  let plus := punct TokenType.PLUS 0 2 in
  let star := punct TokenType.STAR 0 4 in
  let product := ExprBinop three four OpType.MULT ExprType.INT 0 4 in
  let sum := ExprBinop two product OpType.ADD ExprType.INT 0 2 in
  let tokens := [int_token 0 1 2; plus; int_token 0 3 3; star; int_token 0 5 4] in
  let nodes := [NodeExpr two; NodeToken plus; NodeExpr three; NodeToken star;
                NodeExpr four] in
  tokenize (src "2+3*4") = Ok tokens /\
  promote_all tokens = Ok (nodes, tokens) /\
  binop_pass TokenType.STAR OpType.MULT TokenType.SLASH OpType.DIV [] nodes
    = Ok [NodeExpr two; NodeToken plus; NodeExpr product] /\
  binop_pass TokenType.PLUS OpType.ADD TokenType.DASH OpType.SUB []
    [NodeExpr two; NodeToken plus; NodeExpr product] = Ok [NodeExpr sum] /\
  constructAST tokens = Ok ([NodeExpr sum], tokens).
Proof. repeat split; reflexivity. Qed.

(** ** The lexer loop, compositionally *)

Lemma tokenize_loop_feed (a b : list ascii) (st : L.state) :
  tokenize_loop (a ++ b) st = (st' <- feed a st ;; tokenize_loop b st').
Proof.
  revert st. induction a as [|ch a IH]; intros st; simpl; [reflexivity|].
  destruct (iteration false (get ch (advance st))); simpl; auto.
Qed.

(** The fields of a lexer state, by name, in the hypotheses. *)
Ltac open_state st :=
  destruct st;
  cbn [L.str L.strlen L.c L.line L.column L.isComment L.isBlockComment
       L.isStr L.isEscaped L.isNumber L.hasDecimal L.token1Index
       L.tokenList] in *;
  subst.

(** ** Line comments (C5) *)

(** In line-comment mode a character other than the newline changes
    nothing but the current character and the position. *)
Lemma comment_step (st : L.state) (ch : ascii) toks :
  in_comment toks st -> ch <> NEWLINE ->
  exists st', iteration false (get ch (advance st)) = Ok st' /\
              in_comment toks st'.
Proof.
  intros (Hs & Hb & Hc & Hn & Hl & Ht & Hnl & Hk) Hch. open_state st.
  apply Ascii.eqb_neq in Hnl, Hch.
  unfold advance, get, iteration. rewrite Hnl, Hch.
  eexists. split; [reflexivity|].
  repeat split. apply Ascii.eqb_neq. exact Hch.
Qed.

Lemma comment_feed (body : list ascii) :
  forall st toks,
    in_comment toks st -> ~ In NEWLINE body ->
    exists st', feed body st = Ok st' /\ in_comment toks st'.
Proof.
  induction body as [|ch body IH]; intros st toks Hst Hn.
  - exists st. split; [reflexivity | exact Hst].
  - destruct (comment_step st ch toks Hst) as (st1 & E1 & H1).
    { intros ->. apply Hn. left. reflexivity. }
    destruct (IH st1 toks H1) as (st2 & E2 & H2).
    { intros H. apply Hn. right. exact H. }
    exists st2. simpl. rewrite E1. cbn [bind]. split; assumption.
Qed.

(** The end of the file inside the comment, and the newline that ends the
    comment followed by the end of the file. *)
Lemma comment_end (st : L.state) toks :
  in_comment toks st ->
  (exists st', tokenize_loop [] st = Ok st' /\ L.tokenList st' = toks) /\
  (exists st', tokenize_loop [NEWLINE] st = Ok st' /\ L.tokenList st' = toks).
Proof.
  intros (Hs & Hb & Hc & Hn & Hl & Ht & Hnl & Hk). open_state st.
  apply Ascii.eqb_neq in Hnl.
  split; cbn [tokenize_loop]; unfold advance; rewrite Hnl;
    unfold get, iteration; rewrite ?Hnl;
    eexists; (split; [reflexivity|]); reflexivity.
Qed.

(** C5 (what the code does).  On the pair [//] the lexer sets the comment
    flag and then, since the [else] of line 203 belongs to the test for
    [/*] only, also emits a SLASH_SLASH token; the body of the comment, up
    to the end of the file or to the newline, adds no token. *)
Theorem line_comment_emits_slash_slash (body : list ascii) :
  ~ In NEWLINE body ->
  tokenize (src "//" ++ body) = Ok [punct TokenType.SLASH_SLASH 0 1] /\
  tokenize (src "//" ++ body ++ [NEWLINE]) =
    Ok [punct TokenType.SLASH_SLASH 0 1].
Proof.
  intros Hn.
  set (st2 := L.mk [] 0 "/" 0 1 true false false false false false (-1)
                [punct TokenType.SLASH_SLASH 0 1]).
  assert (E : feed (src "//") L.init = Ok st2) by reflexivity.
  assert (H2 : in_comment [punct TokenType.SLASH_SLASH 0 1] st2)
    by (repeat split; discriminate).
  destruct (comment_feed body st2 _ H2 Hn) as (st3 & E3 & H3).
  destruct (comment_end st3 _ H3) as [(st4 & E4 & T4) (st5 & E5 & T5)].
  unfold tokenize. split.
  - rewrite <- (app_nil_r body).
    rewrite tokenize_loop_feed, E. cbn [bind].
    rewrite tokenize_loop_feed, E3. cbn [bind].
    rewrite E4. cbn [bind]. rewrite T4. reflexivity.
  - rewrite tokenize_loop_feed, E. cbn [bind].
    rewrite tokenize_loop_feed, E3. cbn [bind].
    rewrite E5. cbn [bind]. rewrite T5. reflexivity.
Qed.

Lemma line_comment_emits_slash_slash_witness :
  ~ In NEWLINE (src "a b") /\
  tokenize (src "//a b") = Ok [punct TokenType.SLASH_SLASH 0 1].
Proof.
  assert (H : ~ In NEWLINE (src "a b")).
  { simpl. intros [H|[H|[H|[]]]]; discriminate H. }
  split; [exact H | exact (proj1 (line_comment_emits_slash_slash (src "a b") H))].
Defined.

(** After the newline the lexer goes on with the next line. *)
Example line_comment_then_number :
  tokenize (src "//x" ++ NEWLINE :: src "7") =
  Ok [punct TokenType.SLASH_SLASH 0 1; int_token 1 1 7].
Proof. reflexivity. Qed.

(** ** The working buffer *)

Lemma set_cell_app (acc : list ascii) (c : ascii) (junk : buffer) :
  set_cell (length acc) c (map Some acc ++ junk) =
  map Some (acc ++ [c]) ++ tl junk.
Proof.
  induction acc as [|a acc IH]; simpl.
  - destruct junk; reflexivity.
  - rewrite IH. reflexivity.
Qed.

Lemma c_str_app (acc : list ascii) (junk : buffer) :
  Forall (fun c => c <> NUL) acc ->
  c_str (map Some (acc ++ [NUL]) ++ junk) = Ok acc.
Proof.
  induction 1 as [|a acc Ha _ IH]; simpl.
  - reflexivity.
  - apply Ascii.eqb_neq in Ha. rewrite Ha. simpl in IH. rewrite IH. reflexivity.
Qed.

(** ** String literals (C7) *)

Lemma string_step (st : L.state) (ch : ascii) acc toks :
  in_string acc toks st -> plain_char ch ->
  (length acc < MAX_STR_SIZE)%nat ->
  exists st', iteration false (get ch (advance st)) = Ok st' /\
              in_string (acc ++ [ch]) toks st'.
Proof.
  intros (Hs & He & [junk Hb] & Hl & Ht & Hc & Hbc & Hn) (Hq & Hbs & _) Hlen.
  open_state st.
  apply Ascii.eqb_neq in Hq, Hbs.
  assert (Hfull : (MAX_STR_SIZE <=? length acc)%nat = false)
    by (apply Nat.leb_gt; exact Hlen).
  assert (Hin : (length acc <=? MAX_STR_SIZE)%nat = true)
    by (apply Nat.leb_le; lia).
  unfold advance, get, iteration, string_mode, buf_write.
  destruct (Ascii.eqb c NEWLINE);
    rewrite Hq, Hbs, Hfull, Hin; simpl bind;
    (eexists; split; [reflexivity|]);
    (repeat split; simpl; try (rewrite set_cell_app; eauto);
     rewrite length_app; simpl; lia).
Qed.

Lemma string_feed (content : list ascii) :
  forall st acc toks,
    in_string acc toks st -> Forall plain_char content ->
    (length acc + length content <= MAX_STR_SIZE)%nat ->
    exists st', feed content st = Ok st' /\
                in_string (acc ++ content) toks st'.
Proof.
  induction content as [|ch content IH]; intros st acc toks Hst Hp Hlen.
  - exists st. rewrite app_nil_r. split; [reflexivity | exact Hst].
  - inversion Hp as [|? ? Hch Hp']; subst. simpl in Hlen.
    destruct (string_step st ch acc toks Hst Hch) as [st1 [E1 H1]]; [lia|].
    destruct (IH st1 (acc ++ [ch]) toks H1 Hp') as [st2 [E2 H2]].
    { rewrite length_app. simpl. lia. }
    exists st2. simpl. rewrite E1. simpl. rewrite E2.
    split; [reflexivity|]. rewrite <- app_assoc in H2. exact H2.
Qed.



Lemma string_open :
  exists st, feed [DQUOTE] L.init = Ok st /\ in_string [] [] st.
Proof.
  eexists. split; [reflexivity|].
  repeat split. exists []. reflexivity.
Qed.




(** ** Numerals with a leading zero (C6) *)




Lemma alnum_not_special (c : ascii) :
  alnum c = true -> c <> NUL /\ c <> NEWLINE /\ c <> "."%char.
Proof.
  destruct c as [[] [] [] [] [] [] [] []]; vm_compute; intros H;
    try discriminate H; repeat split; discriminate.
Qed.

Lemma alnum_x_b (c : ascii) :
  (c =? "x")%char || (c =? "b")%char = true -> alnum c = true.
Proof.
  intros H. apply orb_true_iff in H.
  destruct H as [H|H]; apply Ascii.eqb_eq in H; subst; reflexivity.
Qed.

(** One more character of the number.  The test for the prefixes 0x and
    0b and the general test lead to the same state. *)
Lemma number_step (st : L.state) (ch : ascii) acc hd :
  in_number acc hd st ->
  number_body hd (ch :: nil) = true ->
  (length acc <= MAX_STR_SIZE)%nat ->
  exists st' hd',
    iteration false (get ch (advance st)) = Ok st' /\
    in_number (acc ++ [ch]) hd' st' /\
    forall text, number_body hd (ch :: text) = number_body hd' text.
Proof.
  intros (Hs & Hbc & Hc & Hn & Hh & [junk Hb] & Hl & H2 & Ht & Ht1 & Hli & Hco
          & Hnl & Hnul) Hch Hlen.
  open_state st.
  apply Ascii.eqb_neq in Hnl.
  assert (Hin : (length acc <=? MAX_STR_SIZE)%nat = true)
    by (apply Nat.leb_le; exact Hlen).
  assert (Hread : exists a0, (if (length acc =? 1)%nat
                              then buf_read 0 (map Some acc ++ junk)
                              else Ok NUL) = Ok a0).
  { destruct acc as [|a0 acc']; [simpl in H2; lia|].
    destruct (length (a0 :: acc') =? 1)%nat; eexists; reflexivity. }
  destruct Hread as [a0 Hread].
  assert (Hlast : forall hd',
    in_number (acc ++ [ch]) hd'
      (L.mk (set_cell (length acc) ch (map Some acc ++ junk))
            (S (length acc)) ch 0 (Z.of_nat (length acc) - 1 + 1)
            false false false isEscaped true hd' (-1) []) \/ ch = NUL
                                                           \/ ch = NEWLINE).
  { intros hd'. destruct (ascii_dec ch NUL) as [|N1]; [auto|].
    destruct (ascii_dec ch NEWLINE) as [|N2]; [auto|]. left.
    repeat split; cbn; try reflexivity; try assumption.
    - rewrite set_cell_app. eauto.
    - rewrite length_app. simpl. lia.
    - rewrite length_app. simpl. lia.
    - rewrite length_app. simpl. lia.
    - apply Forall_app. split; [assumption | repeat constructor; assumption]. }
  unfold advance, get, iteration, number_mode, buf_write.
  rewrite Hnl, Hread, Hin. cbn [bind negb].
  cbn [number_body] in Hch.
  destruct ((length acc =? 1)%nat && (a0 =? "0")%char
            && ((ch =? "x")%char || (ch =? "b")%char)) eqn:Hpre.
  - apply andb_true_iff in Hpre. destruct Hpre as [_ Hxb].
    pose proof (alnum_x_b _ Hxb) as Ha.
    destruct (alnum_not_special _ Ha) as (N1 & N2 & N3).
    eexists; exists hd. cbn [bind]. split; [reflexivity|]. split.
    + destruct (Hlast hd) as [H|[H|H]]; [exact H | contradiction..].
    + intros text. cbn [number_body]. rewrite Ha. reflexivity.
  - cbn [andb]. destruct (alnum ch) eqn:Ha.
    + destruct (alnum_not_special _ Ha) as (N1 & N2 & N3).
      unfold alnum in Ha. rewrite Ha. cbn [orb].
      apply Ascii.eqb_neq in N3. rewrite N3.
      eexists; exists hd. cbn [bind]. split; [reflexivity|]. split.
      * destruct (Hlast hd) as [H|[H|H]]; [exact H | contradiction..].
      * intros text. cbn [number_body]. unfold alnum. rewrite Ha. reflexivity.
    + destruct ((ch =? ".")%char && negb hd) eqn:Hdot; [|discriminate].
      apply andb_true_iff in Hdot. destruct Hdot as [Hd1 Hd2].
      unfold alnum in Ha. rewrite Ha, Hd1. cbn [orb andb].
      eexists; exists true. cbn [bind]. split; [reflexivity|]. split.
      * apply Ascii.eqb_eq in Hd1.
        destruct (Hlast true) as [H|[H|H]]; [exact H | subst; discriminate..].
      * intros text. cbn [number_body]. unfold alnum.
        rewrite Ha, Hd1, Hd2. reflexivity.
Qed.

Lemma get_same (st : L.state) : get (L.c st) st = st.
Proof. destruct st. reflexivity. Qed.










Lemma wrap_int_t_mod (z : Z) : wrap_int_t z mod 4294967296 = z mod 4294967296.
Proof.
  unfold wrap_int_t. rewrite Zminus_mod_idemp_l. f_equal. lia.
Qed.

Lemma wrap_int_t_eq (a b : Z) :
  a mod 4294967296 = b mod 4294967296 -> wrap_int_t a = wrap_int_t b.
Proof.
  intros H. unfold wrap_int_t.
  rewrite <- (Zplus_mod_idemp_l a), <- (Zplus_mod_idemp_l b), H. reflexivity.
Qed.

Lemma wrap_int_t_step (value base d : Z) :
  wrap_int_t (wrap_int_t (wrap_int_t value * base) + d) =
  wrap_int_t (value * base + d).
Proof.
  apply wrap_int_t_eq.
  rewrite <- Zplus_mod_idemp_l, wrap_int_t_mod, Zplus_mod_idemp_l.
  rewrite <- Zplus_mod_idemp_l, <- Zmult_mod_idemp_l, wrap_int_t_mod,
    Zmult_mod_idemp_l, Zplus_mod_idemp_l.
  reflexivity.
Qed.

Lemma wrap_int_t_small (z : Z) :
  -2147483648 <= z < 2147483648 -> wrap_int_t z = z.
Proof.
  intros H. unfold wrap_int_t. rewrite Z.mod_small by lia. lia.
Qed.

Lemma digit_below_plain base c :
  digit_below base c = true ->
  (c =? NUL)%char = false /\ (c =? ".")%char = false /\
  exists d, digit_value c = Some d /\ (d >=? base) = false.
Proof.
  unfold digit_below. intros H. repeat split.
  - destruct (Ascii.eqb_spec c NUL) as [->|]; [discriminate H | reflexivity].
  - destruct (Ascii.eqb_spec c ".") as [->|]; [discriminate H | reflexivity].
  - destruct (digit_value c) as [d|]; [|discriminate H].
    exists d. split; [reflexivity|]. apply Z.ltb_lt in H.
    rewrite Z.geb_leb. apply Z.leb_gt. exact H.
Qed.

Lemma parse_digits_run base digits :
  forall value,
    forallb (digit_below base) digits = true ->
    parse_digits base (wrap_int_t value) digits =
    Some (PInt (wrap_int_t
                  (fold_left
                     (fun value c =>
                        value * base +
                        match digit_value c with Some d => d | None => 0 end)
                     digits value))).
Proof.
  induction digits as [|c digits IH]; intros value H.
  - reflexivity.
  - cbn [forallb] in H. apply andb_prop in H. destruct H as [Hc Hd].
    destruct (digit_below_plain base c Hc) as (N & P & d & D & B).
    cbn [parse_digits fold_left]. rewrite N, P, D, B.
    rewrite wrap_int_t_step, (IH _ Hd). reflexivity.
Qed.

Lemma is_digit_below_10 c : is_digit c = true -> digit_below 10 c = true.
Proof.
  unfold digit_below, digit_value. intros H. rewrite H.
  unfold is_digit in H. apply andb_prop in H. destruct H as [_ H].
  apply Z.leb_le in H. apply Z.ltb_lt.
  change (code "9") with 57 in H. change (code "0") with 48. lia.
Qed.

Lemma decimal_run (digits : list ascii) :
  digits <> [] ->
  forallb is_digit digits = true ->
  exists base body,
    number_prefix digits = Some (base, body) /\
    parse_digits base 0 body =
    Some (PInt (wrap_int_t (digits_value 10 digits))).
Proof.
  intros Hne Hd.
  assert (Hb : forallb (digit_below 10) digits = true).
  { rewrite forallb_forall in *. intros c Hc. apply is_digit_below_10, Hd, Hc. }
  assert (Run : forall ds, forallb (digit_below 10) ds = true ->
                  parse_digits 10 0 ds =
                  Some (PInt (wrap_int_t (digits_value 10 ds)))).
  { intros ds H. exact (parse_digits_run 10 ds 0 H). }
  destruct digits as [|c0 digits]; [contradiction Hne; reflexivity|].
  cbn [forallb] in Hd. apply andb_prop in Hd. destruct Hd as [H0 Hd].
  assert (N0 : (c0 =? NUL)%char = false).
  { destruct (Ascii.eqb_spec c0 NUL) as [->|]; [discriminate H0 | reflexivity]. }
  unfold number_prefix. cbn [nth]. rewrite N0.
  destruct (Ascii.eqb_spec c0 "0") as [->|_].
  - destruct digits as [|c1 digits].
    + exists 10, []. split; reflexivity.
    + cbn [nth]. cbn [forallb] in Hd. apply andb_prop in Hd. destruct Hd as [H1 Hd].
      unfold is_digit in H1. apply andb_prop in H1. destruct H1 as [L1 U1].
      apply Z.leb_le in L1, U1.
      replace (code c1 <? code "0") with false by (symmetry; apply Z.ltb_ge; exact L1).
      replace (code c1 >? code "9") with false
        by (symmetry; rewrite Z.gtb_ltb; apply Z.ltb_ge; exact U1).
      cbn [orb]. eexists _, _. split; [reflexivity|]. exact (Run _ Hb).
  - eexists _, _. split; [reflexivity|]. exact (Run _ Hb).
Qed.




(** ** The binop patterns (C3, C4) *)

Lemma make_binop_float_int (f i : Expr) (opType : OpType.t) (line column : Z) :
  evalType f = ExprType.FLOAT -> evalType i = ExprType.INT ->
  make_binop f i opType line column =
    Ok (ExprBinop f (ExprCast i ExprType.FLOAT) opType ExprType.FLOAT line column)
  /\ make_binop i f opType line column =
    Ok (ExprBinop (ExprCast i ExprType.FLOAT) f opType ExprType.FLOAT line column).
Proof.
  intros Hf Hi. unfold make_binop, arithmeticBinopPatterns. simpl.
  rewrite Hf, Hi. simpl. split; reflexivity.
Qed.

(** Two expressions around one operator token: the two passes fold them
    into the binop node that [make_binop] builds. *)
Lemma process_single_operator (lhs rhs : Expr) (token : Token.t) (opType : OpType.t) :
  operator_of (Token.type token) = Some opType ->
  process [NodeExpr lhs; NodeToken token; NodeExpr rhs] =
  (binop <- make_binop lhs rhs opType (Token.line token) (Token.column token) ;;
   Ok [NodeExpr binop]).
Proof.
  destruct token as [ty l c p]. simpl. intros H.
  destruct ty; try discriminate H; injection H as <-;
    unfold process; simpl; destruct (make_binop lhs rhs _ l c); reflexivity.
Qed.

(** C3.  For a float operand and an int operand, in either order and for
    each of the four operators, the pattern (FLOAT, INT) is selected: the
    result type is float, the int operand is wrapped in a cast to float and
    the float operand is left as it is; this is the node that the
    precedence passes put in place of the three nodes. *)
Theorem binop_resolution_symmetric
  (f i : Expr) (token : Token.t) (opType : OpType.t) :
  evalType f = ExprType.FLOAT -> evalType i = ExprType.INT ->
  operator_of (Token.type token) = Some opType ->
  let line := Token.line token in
  let column := Token.column token in
  let float_int :=
    ExprBinop f (ExprCast i ExprType.FLOAT) opType ExprType.FLOAT line column in
  let int_float :=
    ExprBinop (ExprCast i ExprType.FLOAT) f opType ExprType.FLOAT line column in
  make_binop f i opType line column = Ok float_int /\
  make_binop i f opType line column = Ok int_float /\
  evalType float_int = evalType int_float /\
  process [NodeExpr f; NodeToken token; NodeExpr i] = Ok [NodeExpr float_int] /\
  process [NodeExpr i; NodeToken token; NodeExpr f] = Ok [NodeExpr int_float].
Proof.
  intros Hf Hi Hop line column float_int int_float.
  destruct (make_binop_float_int f i opType line column Hf Hi) as [E1 E2].
  repeat split; try assumption.
  - rewrite (process_single_operator f i token opType Hop).
    fold line column. rewrite E1. reflexivity.
  - rewrite (process_single_operator i f token opType Hop).
    fold line column. rewrite E2. reflexivity.
Qed.

Lemma binop_resolution_symmetric_witness :
  process [NodeExpr (ExprFloat 0 3 (float_of_int 2));
           NodeToken (punct TokenType.STAR 0 4); NodeExpr (ExprInt 0 5 3)] =
    Ok [NodeExpr (ExprBinop (ExprFloat 0 3 (float_of_int 2))
                    (ExprCast (ExprInt 0 5 3) ExprType.FLOAT)
                    OpType.MULT ExprType.FLOAT 0 4)] /\
  process [NodeExpr (ExprInt 0 5 3);
           NodeToken (punct TokenType.STAR 0 4);
           NodeExpr (ExprFloat 0 3 (float_of_int 2))] =
    Ok [NodeExpr (ExprBinop (ExprCast (ExprInt 0 5 3) ExprType.FLOAT)
                    (ExprFloat 0 3 (float_of_int 2))
                    OpType.MULT ExprType.FLOAT 0 4)].
Proof.
  pose proof (binop_resolution_symmetric
                (ExprFloat 0 3 (float_of_int 2)) (ExprInt 0 5 3)
                (punct TokenType.STAR 0 4) OpType.MULT
                eq_refl eq_refl eq_refl) as H.
  split; [exact (proj1 (proj2 (proj2 (proj2 H))))
         | exact (proj2 (proj2 (proj2 (proj2 H))))].
Defined.

(** The last pattern has result INT for two BOOL operands. *)
Lemma make_binop_bool_bool (l r : Expr) (opType : OpType.t) (line column : Z) :
  evalType l = ExprType.BOOL -> evalType r = ExprType.BOOL ->
  make_binop l r opType line column =
    Ok (ExprBinop (ExprCast l ExprType.INT) (ExprCast r ExprType.INT)
          opType ExprType.INT line column).
Proof.
  intros Hl Hr. unfold make_binop, arithmeticBinopPatterns. simpl.
  rewrite Hl, Hr. reflexivity.
Qed.

(** No pattern mentions UNKNOWN, and every pair of the other four types
    is covered: the exception is raised exactly for an operand of unknown
    type, which is what an identifier has. *)
Lemma illegal_pattern_iff_unknown (l r : Expr) (opType : OpType.t) (line column : Z) :
  make_binop l r opType line column = throw BINOP_ILLEGAL_PATTERN line column
  <-> evalType l = ExprType.UNKNOWN \/ evalType r = ExprType.UNKNOWN.
Proof.
  unfold make_binop, arithmeticBinopPatterns. simpl.
  destruct (evalType l), (evalType r); simpl; split; intros H;
    try discriminate H; try reflexivity; auto;
    destruct H as [H|H]; discriminate H.
Qed.

(** C4 (amended).  Two operands of type bool match the last entry of the
    table, (INT, BOOL, BOOL): the result type is int, both operands are
    wrapped in casts to int, and the passes build the binop node; no
    exception is raised. *)
Theorem bool_bool_resolves_to_int
  (l r : Expr) (token : Token.t) (opType : OpType.t) :
  evalType l = ExprType.BOOL -> evalType r = ExprType.BOOL ->
  operator_of (Token.type token) = Some opType ->
  let binop :=
    ExprBinop (ExprCast l ExprType.INT) (ExprCast r ExprType.INT)
      opType ExprType.INT (Token.line token) (Token.column token) in
  make_binop l r opType (Token.line token) (Token.column token) = Ok binop /\
  process [NodeExpr l; NodeToken token; NodeExpr r] = Ok [NodeExpr binop].
Proof.
  intros Hl Hr Hop binop.
  pose proof (make_binop_bool_bool l r opType (Token.line token)
                (Token.column token) Hl Hr) as E.
  split; [exact E|].
  rewrite (process_single_operator l r token opType Hop), E. reflexivity.
Qed.

Lemma bool_bool_resolves_to_int_witness :
  process [NodeExpr (ExprBool 0 4 1); NodeToken (punct TokenType.STAR 0 5);
           NodeExpr (ExprBool 0 10 0)] =
  Ok [NodeExpr (ExprBinop (ExprCast (ExprBool 0 4 1) ExprType.INT)
                  (ExprCast (ExprBool 0 10 0) ExprType.INT)
                  OpType.MULT ExprType.INT 0 5)].
Proof.
  exact (proj2 (bool_bool_resolves_to_int
                  (ExprBool 0 4 1) (ExprBool 0 10 0)
                  (punct TokenType.STAR 0 5) OpType.MULT
                  eq_refl eq_refl eq_refl)).
Defined.

(** C4 (as stated) fails: ["true*false"] compiles to a binop node. *)
Lemma bool_bool_is_not_illegal :
  evalType (ExprBool 0 4 1) = ExprType.BOOL /\
  evalType (ExprBool 0 10 0) = ExprType.BOOL /\
  (t <- tokenize (src "true*false") ;; r <- constructAST t ;; Ok (fst r)) =
    Ok [NodeExpr (ExprBinop (ExprCast (ExprBool 0 4 1) ExprType.INT)
                    (ExprCast (ExprBool 0 10 0) ExprType.INT)
                    OpType.MULT ExprType.INT 0 5)] /\
  make_binop (ExprBool 0 4 1) (ExprBool 0 10 0) OpType.MULT 0 5 <>
    throw BINOP_ILLEGAL_PATTERN 0 5.
Proof. repeat split. discriminate. Qed.

(** ** The emitter (C8, C9, C10) *)

Lemma acquire_fresh (n : nat) :
  (0 < n)%nat ->
  RegManager.acquire 0 (repeat false n) = Some (0, true :: repeat false (n - 1)).
Proof.
  destruct n as [|n]; [lia|]. intros _. simpl. rewrite Nat.sub_0_r. reflexivity.
Qed.

Lemma getWord_fresh (T : Target) :
  (0 < NUM_WORD_REGISTERS T)%nat ->
  RegManager.getWord T (RegManager.new T) =
  Ok (to_byte (W0 T),
      RegManager.mk (true :: repeat false (NUM_WORD_REGISTERS T - 1))
                    (repeat false (NUM_BYTE_REGISTERS T))).
Proof.
  intros H. unfold RegManager.getWord, RegManager.new. simpl.
  rewrite (acquire_fresh _ H). reflexivity.
Qed.

Lemma makeExprBytecode_int (T : Target) (line column int_ : Z)
  (outputFile : list Z) (byteCounter : Z) :
  (0 < NUM_WORD_REGISTERS T)%nat ->
  makeExprBytecode T (ExprInt line column int_) (RegManager.new T)
    outputFile byteCounter =
  Ok (to_byte (W0 T),
      Emit.mk (RegManager.mk (true :: repeat false (NUM_WORD_REGISTERS T - 1))
                             (repeat false (NUM_BYTE_REGISTERS T)))
              (outputFile ++ mov_w_record T (to_byte (W0 T)) int_)
              (byteCounter + 6)).
Proof.
  intros H. unfold makeExprBytecode. rewrite (getWord_fresh T H).
  unfold ASM_WRITE, mov_w_record, sizeof_opcode_t, sizeof_reg_t, sizeof_int_t.
  simpl. rewrite <- !app_assoc. simpl. do 3 f_equal. lia.
Qed.

(** C8.  On a target with at least one word register, compiling the
    source ["42"] returns 0 and leaves in the output file exactly one
    move-word-immediate record: the opcode byte, the byte of the first
    word register, which the emitter's register manager now holds as
    acquired, and the bytes of the [int_t] 42; the byte counter is 6, which
    is the length of the output when an [int_t] takes four bytes. *)
Theorem compile_literal_42 (T : Target) :
  (0 < NUM_WORD_REGISTERS T)%nat ->
  (forall v, length (int_t_bytes T v) = 4%nat) ->
  let rid := to_byte (W0 T) in
  let record := [to_byte (MOV_W T); rid] ++ int_t_bytes T 42 in
  (t <- tokenize (src "42") ;; r <- constructAST t ;; Ok (fst r)) =
    Ok [NodeExpr (ExprInt 0 2 42)] /\
  makeExprBytecode T (ExprInt 0 2 42) (RegManager.new T) [] 0 =
    Ok (rid,
        Emit.mk (RegManager.mk (true :: repeat false (NUM_WORD_REGISTERS T - 1))
                               (repeat false (NUM_BYTE_REGISTERS T)))
                record 6) /\
  compile_ T (src "42") =
    Ok (0, Bytecode.mk (RegManager.new T) 6 rid record) /\
  length record = 6%nat.
Proof.
  intros Hreg Hsize rid record.
  pose proof (makeExprBytecode_int T 0 2 42 [] 0 Hreg) as E.
  repeat split.
  - exact E.
  - unfold compile_.
    change (tokenize (src "42")) with (Ok [int_token 0 2 42]). cbn [bind].
    change (constructAST [int_token 0 2 42])
      with (Ok ([NodeExpr (ExprInt 0 2 42)], [int_token 0 2 42])).
    cbn [bind fst]. unfold makeBytecode. rewrite E. reflexivity.
  - unfold record. simpl. rewrite Hsize. reflexivity.
Qed.

Lemma compile_literal_42_witness :
  compile_ example_target (src "42") =
  Ok (0, Bytecode.mk (RegManager.new example_target) 6 0 [1; 0; 42; 0; 0; 0]).
Proof.
  assert (Hreg : (0 < NUM_WORD_REGISTERS example_target)%nat) by (simpl; lia).
  assert (Hsize : forall v, length (int_t_bytes example_target v) = 4%nat)
    by (intros v; reflexivity).
  exact (proj1 (proj2 (proj2 (compile_literal_42 example_target Hreg Hsize)))).
Defined.

(** C9.  [makeBytecode] hands its register manager to [makeExprBytecode]
    by value.  The callee returns, unless it is asked for a word register
    on a target that has none.  Whenever it returns, [makeBytecode] returns
    0 with its own register manager as the constructor left it, every word
    and byte register free, and with the stream and the counter of the
    callee; for an integer literal the callee's copy has a register
    acquired. *)
Theorem makeBytecode_keeps_registers
  (T : Target) (expr : Expr) (rest : NodeList) (outputFile : list Z) :
  ((0 < NUM_WORD_REGISTERS T)%nat \/ Expr_type expr <> NodeType.INT ->
   exists r, makeExprBytecode T expr (RegManager.new T) outputFile 0 = Ok r) /\
  (forall ridOut st,
     makeExprBytecode T expr (RegManager.new T) outputFile 0 = Ok (ridOut, st) ->
     exists b,
       makeBytecode T (NodeExpr expr :: rest) outputFile = Ok (0, b) /\
       Bytecode.reg b = RegManager.new T /\
       Forall (fun a => a = false) (RegManager.wordsActive (Bytecode.reg b)) /\
       Forall (fun a => a = false) (RegManager.bytesActive (Bytecode.reg b)) /\
       Bytecode.outputFile b = Emit.outputFile st /\
       Bytecode.byteCounter b = Emit.byteCounter st /\
       Bytecode.rid1 b = ridOut /\
       (Expr_type expr = NodeType.INT ->
        exists words, RegManager.wordsActive (Emit.reg st) = true :: words)).
Proof.
  split.
  - intros H. destruct expr; try (eexists; reflexivity).
    destruct H as [H|H]; [|contradiction H; reflexivity].
    rewrite (makeExprBytecode_int T _ _ _ _ _ H). eexists. reflexivity.
  - intros ridOut st E. unfold makeBytecode. rewrite E. cbn [bind fst snd].
    eexists. split; [reflexivity|]. cbn.
    repeat split.
    + apply Forall_forall. intros a Ha. apply repeat_spec in Ha. exact Ha.
    + apply Forall_forall. intros a Ha. apply repeat_spec in Ha. exact Ha.
    + intros Hint. destruct expr; try discriminate Hint.
      unfold makeExprBytecode, RegManager.getWord, RegManager.new in E.
      cbn [RegManager.wordsActive] in E.
      destruct (NUM_WORD_REGISTERS T) as [|n]; [discriminate E|].
      simpl in E. injection E as _ <-. simpl. eauto.
Qed.

Lemma makeBytecode_keeps_registers_witness :
  exists b,
    makeBytecode example_target [NodeExpr (ExprInt 0 2 42)] [] = Ok (0, b) /\
    Bytecode.reg b = RegManager.new example_target.
Proof.
  destruct (proj2 (makeBytecode_keeps_registers example_target
                     (ExprInt 0 2 42) [] []) _ _ eq_refl)
    as (b & H1 & H2 & _).
  exists b. split; assumption.
Defined.

(** C10.  For a float, bool or char literal, a cast and a binop,
    [makeExprBytecode] returns register id 0 and leaves its register
    manager, the stream and the byte counter as they were. *)
Theorem makeExprBytecode_no_code
  (T : Target) (expr : Expr) (reg : RegManager.t)
  (outputFile : list Z) (byteCounter : Z) :
  In (Expr_type expr)
     [NodeType.FLOAT; NodeType.BOOL; NodeType.CHAR; NodeType.CAST;
      NodeType.BINOP] ->
  makeExprBytecode T expr reg outputFile byteCounter =
  Ok (0, Emit.mk reg outputFile byteCounter).
Proof.
  intros H. destruct expr; simpl in H; try reflexivity;
    repeat (destruct H as [H|H]; try discriminate H); contradiction.
Qed.

Lemma makeExprBytecode_no_code_witness :
  makeExprBytecode example_target
    (ExprBinop (ExprInt 0 1 2) (ExprInt 0 3 3) OpType.ADD ExprType.INT 0 2)
    (RegManager.new example_target) [] 0 =
  Ok (0, Emit.mk (RegManager.new example_target) [] 0).
Proof.
  apply makeExprBytecode_no_code. simpl. tauto.
Defined.

(** ** Bracket grouping (C2) *)

(** The three ways of an iteration. *)
Lemma loop_plain fuel front acc node rest sv type :
  classify node = Plain ->
  condenseAST_loop (S fuel) front acc (node :: rest) sv type =
  condenseAST_loop fuel front (node :: acc) rest sv type.
Proof.
  destruct node as [token| | | |]; try reflexivity.
  unfold classify. destruct token as [ty l c p]; simpl.
  destruct ty; intros H; try discriminate H; reflexivity.
Qed.

Lemma loop_opening fuel front acc node rest sv type group :
  classify node = Opening group ->
  condenseAST_loop (S fuel) front acc (node :: rest) sv type =
  match condenseAST_loop fuel (node :: acc ++ front) [] rest true group with
  | None => None
  | Some (Ok (nodeList, _ :: rest'')) =>
      condenseAST_loop fuel front (group_node group nodeList :: acc) rest''
        (sv && match acc with [] => false | _ => true end) type
  | Some (Ok (_, [])) => Some Undefined
  | Some (Throw e) => Some (Throw e)
  | Some Undefined => Some Undefined
  end.
Proof.
  destruct node as [token| | | |]; try discriminate.
  unfold classify. destruct token as [ty l c p]; simpl.
  destruct ty; intros H; try discriminate H; injection H as <-; reflexivity.
Qed.

Lemma loop_closing fuel front acc node rest sv type group :
  classify node = Closing group ->
  condenseAST_loop (S fuel) front acc (node :: rest) sv type =
  if NodeType_eqb type group
  then Some (splice_process sv acc (node :: rest))
  else Some (throw (invalid_closing_of group) (Node_line node) (Node_column node)).
Proof.
  destruct node as [token| | | |]; try discriminate.
  unfold classify. destruct token as [ty l c p]; simpl.
  destruct ty; intros H; try discriminate H; injection H as <-; reflexivity.
Qed.

Lemma loop_end fuel front acc sv type :
  is_group type = true ->
  condenseAST_loop (S fuel) front acc [] sv type =
  Some (missing_closing (missing_closing_of type) (acc ++ front)).
Proof. destruct type; intros H; try discriminate H; reflexivity. Qed.

Lemma classify_group node group :
  classify node = Opening group \/ classify node = Closing group ->
  is_group group = true.
Proof.
  destruct node as [token| | | |]; simpl; try (intros [H|H]; discriminate H).
  destruct (Token.type token); intros [H|H]; try discriminate H;
    injection H as <-; reflexivity.
Qed.

Lemma NodeType_eqb_eq a b :
  NodeType_eqb a b = true ->
  a = b /\ (is_group a = true \/ a = NodeType.NONE).
Proof. destruct a, b; intros H; try discriminate H; auto. Qed.

(** The first closing bracket of the list is of another kind than the
    innermost open one. *)
Lemma invalid_first_closer pre :
  forall fuel front acc sv type node rest group,
    Forall (fun n => is_closing n = false) pre ->
    classify node = Closing group ->
    NodeType_eqb (innermost type pre) group = false ->
    (length (pre ++ node :: rest) < fuel)%nat ->
    condenseAST_loop fuel front acc (pre ++ node :: rest) sv type =
    Some (throw (invalid_closing_of group) (Node_line node) (Node_column node)).
Proof.
  induction pre as [|n pre IH];
    intros fuel front acc sv type node rest group Hpre Hc Hin Hf;
    (destruct fuel as [|fuel]; [simpl in Hf; lia|]).
  - simpl app. rewrite (loop_closing _ _ _ _ _ _ _ _ Hc).
    simpl in Hin. rewrite Hin. reflexivity.
  - inversion Hpre as [|? ? Hn Hpre']; subst.
    simpl in Hf. simpl app. simpl in Hin. unfold is_closing in Hn.
    destruct (classify n) as [g|g|] eqn:Hcl; [| discriminate Hn |].
    + rewrite (loop_opening _ _ _ _ _ _ _ _ Hcl).
      rewrite (IH fuel (n :: acc ++ front) [] true g node rest group);
        auto; lia.
    + rewrite (loop_plain _ _ _ _ _ _ _ Hcl).
      apply IH; auto; lia.
Qed.

(** The list has no closing bracket and some kind is open at its end. *)
Lemma missing_without_closer l :
  forall fuel front acc sv type,
    Forall (fun n => is_closing n = false) l ->
    is_group (innermost type l) = true ->
    (length l < fuel)%nat ->
    condenseAST_loop fuel front acc l sv type =
    Some (missing_closing (missing_closing_of (innermost type l))
            (rev l ++ acc ++ front)).
Proof.
  induction l as [|n l IH]; intros fuel front acc sv type Hl Hg Hf;
    (destruct fuel as [|fuel]; [simpl in Hf; lia|]).
  - simpl in Hg. exact (loop_end fuel front acc sv type Hg).
  - inversion Hl as [|? ? Hn Hl']; subst.
    simpl in Hf. simpl in Hg. cbn [innermost]. unfold is_closing in Hn.
    destruct (classify n) as [g|g|] eqn:Hcl; [| discriminate Hn |].
    + rewrite (loop_opening _ _ _ _ _ _ _ _ Hcl).
      rewrite (IH fuel (n :: acc ++ front) [] true g); auto; [|lia].
      unfold missing_closing at 1.
      simpl rev. rewrite <- !app_assoc. simpl.
      destruct (rev l ++ n :: acc ++ front); reflexivity.
    + rewrite (loop_plain _ _ _ _ _ _ _ Hcl).
      rewrite (IH fuel front (n :: acc) sv type); auto; [|lia].
      simpl rev. rewrite <- !app_assoc. reflexivity.
Qed.

Lemma splice_process_ok sv acc rest out rest' :
  splice_process sv acc rest = Ok (out, rest') -> rest' = rest.
Proof.
  unfold splice_process. destruct sv; [|discriminate].
  destruct (process (rev acc)); simpl; intros H; try discriminate H.
  injection H as _ <-. reflexivity.
Qed.

(** A call that returns has consumed a well-nested segment of the list and
    stands at the closing bracket of its own kind, or at the end of the
    list when no kind is expected. *)
Lemma loop_ok_segment fuel :
  forall front acc rest sv type out rest',
    condenseAST_loop fuel front acc rest sv type = Some (Ok (out, rest')) ->
    exists seg,
      rest = seg ++ rest' /\
      (forall stack tail,
         bracket_fault stack (seg ++ tail) = bracket_fault stack tail) /\
      (if is_group type
       then exists c rest'', rest' = c :: rest'' /\ classify c = Closing type
       else rest' = []).
Proof.
  induction fuel as [|fuel IH]; intros front acc rest sv type out rest' H;
    [discriminate H|].
  destruct rest as [|node rest1].
  - exists []. destruct (is_group type) eqn:Hg.
    + rewrite (loop_end fuel front acc sv type Hg) in H.
      unfold missing_closing in H. destruct (acc ++ front); discriminate H.
    + destruct type; try discriminate Hg; simpl in H;
        injection H as H;
        try (apply splice_process_ok in H);
        try (injection H as _ <-); subst; repeat split.
  - destruct (classify node) as [g|g|] eqn:Hcl.
    + rewrite (loop_opening _ _ _ _ _ _ _ _ Hcl) in H.
      destruct (condenseAST_loop fuel (node :: acc ++ front) [] rest1 true g)
        as [[[nodeList [|c rest'']]|e|]|] eqn:Ecallee; try discriminate H.
      apply IH in Ecallee. destruct Ecallee as (segA & EA & BA & CA).
      rewrite (classify_group node _ (or_introl Hcl)) in CA.
      destruct CA as (c0 & r0 & Ec & Hc0). injection Ec as <- <-.
      apply IH in H. destruct H as (segB & EB & BB & CB).
      exists (node :: segA ++ c :: segB). repeat split.
      * simpl. rewrite EA, EB, <- app_assoc. reflexivity.
      * intros stack tail. simpl. rewrite Hcl, <- app_assoc, BA. simpl.
        rewrite Hc0.
        destruct g; try discriminate (classify_group node _ (or_introl Hcl));
          simpl; apply BB.
      * exact CB.
    + rewrite (loop_closing _ _ _ _ _ _ _ _ Hcl) in H.
      destruct (NodeType_eqb type g) eqn:Heq; [|discriminate H].
      injection H as H. apply splice_process_ok in H. subst rest'.
      apply NodeType_eqb_eq in Heq. destruct Heq as [<- _].
      exists []. repeat split.
      rewrite (classify_group node _ (or_intror Hcl)). eauto.
    + rewrite (loop_plain _ _ _ _ _ _ _ Hcl) in H.
      apply IH in H. destruct H as (seg & E & B & C).
      exists (node :: seg). repeat split.
      * simpl. rewrite E. reflexivity.
      * intros stack tail. simpl. rewrite Hcl. apply B.
      * exact C.
Qed.

(** One more unit of fuel than there are nodes is enough. *)
Lemma condenseAST_loop_fuel fuel :
  forall front acc rest sv type,
    (length rest < fuel)%nat ->
    condenseAST_loop fuel front acc rest sv type <> None.
Proof.
  induction fuel as [|fuel IH]; intros front acc rest sv type Hf; [lia|].
  destruct rest as [|node rest1].
  - destruct type; discriminate.
  - simpl in Hf. destruct (classify node) as [g|g|] eqn:Hcl.
    + rewrite (loop_opening _ _ _ _ _ _ _ _ Hcl).
      destruct (condenseAST_loop fuel (node :: acc ++ front) [] rest1 true g)
        as [[[nodeList [|c rest'']]|e|]|] eqn:Ecallee; try discriminate.
      * apply loop_ok_segment in Ecallee. destruct Ecallee as (seg & E & _).
        apply IH. rewrite E, length_app in Hf. simpl in Hf. lia.
      * exfalso. revert Ecallee. apply IH. lia.
    + rewrite (loop_closing _ _ _ _ _ _ _ _ Hcl).
      destruct (NodeType_eqb type g); discriminate.
    + rewrite (loop_plain _ _ _ _ _ _ _ Hcl). apply IH. lia.
Qed.

Lemma condenseAST_run front rest type :
  condenseAST_loop (S (length rest)) front [] rest true type =
  Some (condenseAST front rest type).
Proof.
  unfold condenseAST.
  destruct (condenseAST_loop (S (length rest)) front [] rest true type) eqn:E;
    [reflexivity|].
  exfalso. revert E. apply condenseAST_loop_fuel. lia.
Qed.

(** The precedence passes raise the two binop errors only. *)
Lemma make_binop_throw lhs rhs opType line column e :
  make_binop lhs rhs opType line column = Throw e ->
  is_binop_error (eType e) = true.
Proof.
  unfold make_binop.
  destruct (apply_patterns arithmeticBinopPatterns lhs rhs) as [[t l] r].
  destruct (ExprType.eqb t ExprType.UNKNOWN); intros H; [|discriminate H].
  injection H as <-. reflexivity.
Qed.

Lemma binop_pass_throw flagToken flagOp otherToken otherOp n :
  forall todo done e,
    (length todo <= n)%nat ->
    binop_pass flagToken flagOp otherToken otherOp done todo = Throw e ->
    is_binop_error (eType e) = true.
Proof.
  induction n as [|n IH]; intros todo done e Hn H.
  - destruct todo; [discriminate H | simpl in Hn; lia].
  - destruct todo as [|node todo]; [discriminate H|]. simpl in Hn.
    assert (IH1 : forall done',
               binop_pass flagToken flagOp otherToken otherOp done' todo
               = Throw e -> is_binop_error (eType e) = true).
    { intros done' H'. apply (IH todo done' e); [lia | exact H']. }
    destruct node as [token|l|l|l|x]; simpl in H; try (eapply IH1; exact H).
    destruct (TokenType_eqb (Token.type token) flagToken
              || TokenType_eqb (Token.type token) otherToken);
      [|eapply IH1; exact H].
    destruct done as [|[| | | |lhs] done']; try (injection H as <-; reflexivity).
    destruct todo as [|[| | | |rhs] todo']; try (injection H as <-; reflexivity).
    destruct (make_binop lhs rhs _ (Token.line token) (Token.column token))
      as [binop|e'|] eqn:E; simpl in H; try discriminate H.
    + apply (IH todo' (NodeExpr binop :: done') e); [simpl in Hn; lia | exact H].
    + injection H as <-. eapply make_binop_throw. exact E.
Qed.

Lemma process_throw outputList e :
  process outputList = Throw e -> is_binop_error (eType e) = true.
Proof.
  unfold process.
  destruct (binop_pass TokenType.STAR OpType.MULT TokenType.SLASH OpType.DIV
              [] outputList) as [l|e'|] eqn:E; simpl; intros H;
    try discriminate H.
  - eapply binop_pass_throw; [apply Nat.le_refl | exact H].
  - injection H as <-. eapply binop_pass_throw; [apply Nat.le_refl | exact E].
Qed.

Lemma splice_process_throw sv acc rest e :
  splice_process sv acc rest = Throw e -> is_binop_error (eType e) = true.
Proof.
  unfold splice_process. destruct sv; [|discriminate].
  destruct (process (rev acc)) as [l|e'|] eqn:E; simpl; intros H;
    try discriminate H.
  injection H as <-. eapply process_throw. exact E.
Qed.

Lemma missing_closing_throw t l e :
  missing_closing t l = Throw e -> eType e = t.
Proof.
  unfold missing_closing. destruct l; intros H; [discriminate H|].
  injection H as <-. reflexivity.
Qed.

Lemma open_kinds_group type outer :
  is_group type = true -> open_kinds type outer = type :: outer.
Proof. unfold open_kinds. intros ->. reflexivity. Qed.

(** An exception of the grouping loop is a binop error of a group that
    was complete, or it reports the first fault of the brackets. *)
Lemma loop_throw_fault fuel :
  forall front acc rest sv type e outer,
    condenseAST_loop fuel front acc rest sv type = Some (Throw e) ->
    is_binop_error (eType e) = true \/
    exists f, bracket_fault (open_kinds type outer) rest = Some f /\ reports f e.
Proof.
  induction fuel as [|fuel IH]; intros front acc rest sv type e outer H;
    [discriminate H|].
  destruct rest as [|node rest1].
  - destruct (is_group type) eqn:Hg.
    + rewrite (loop_end fuel front acc sv type Hg) in H.
      injection H as H. apply missing_closing_throw in H.
      right. exists (MissingAtEnd type).
      rewrite (open_kinds_group type outer Hg). split; [reflexivity | exact H].
    + left. destruct type; try discriminate Hg; simpl in H;
        injection H as H; try discriminate H.
      eapply splice_process_throw. exact H.
  - destruct (classify node) as [g|g|] eqn:Hcl.
    + pose proof (classify_group node _ (or_introl Hcl)) as Hg.
      rewrite (loop_opening _ _ _ _ _ _ _ _ Hcl) in H.
      destruct (condenseAST_loop fuel (node :: acc ++ front) [] rest1 true g)
        as [[[nodeList [|c rest'']]|e'|]|] eqn:Ecallee; try discriminate H.
      * apply loop_ok_segment in Ecallee.
        destruct Ecallee as (segA & EA & BA & CA). rewrite Hg in CA.
        destruct CA as (c0 & r0 & Ec & Hc0). injection Ec as <- <-.
        destruct (IH _ _ _ _ _ _ outer H) as [Hb|(f & Hf & Hr)]; [left; exact Hb|].
        right. exists f. split; [|exact Hr].
        simpl. rewrite Hcl, EA, BA. simpl. rewrite Hc0.
        destruct g; try discriminate Hg; simpl; exact Hf.
      * injection H as <-.
        destruct (IH _ _ _ _ _ _ (open_kinds type outer) Ecallee)
          as [Hb|(f & Hf & Hr)]; [left; exact Hb|].
        right. exists f. split; [|exact Hr].
        simpl. rewrite Hcl. rewrite (open_kinds_group _ _ Hg) in Hf. exact Hf.
    + rewrite (loop_closing _ _ _ _ _ _ _ _ Hcl) in H.
      destruct (NodeType_eqb type g) eqn:Heq.
      * left. injection H as H. eapply splice_process_throw. exact H.
      * right. injection H as <-. exists (InvalidAt g node).
        split; [|reflexivity]. simpl. rewrite Hcl.
        unfold open_kinds. destruct (is_group type); [|reflexivity].
        rewrite Heq. reflexivity.
    + rewrite (loop_plain _ _ _ _ _ _ _ Hcl) in H.
      destruct (IH _ _ _ _ _ _ outer H) as [Hb|(f & Hf & Hr)]; [left; exact Hb|].
      right. exists f. split; [|exact Hr]. simpl. rewrite Hcl. exact Hf.
Qed.

(** C2 (amended).  For the node sequence [l] that [constructAST] hands to
    [condenseAST]:
    - if the call returns, the brackets of [l] are well nested;
    - if the call raises an InvalidClosing or MissingClosing error, the
      error reports the first fault of the brackets of [l]: a closing
      bracket of another kind than the innermost open one, under the kind
      and at the position of that closing bracket, or the end of the
      sequence, under the innermost kind that is open;
    - if the brackets of [l] have a fault, the call does not return: it
      raises the error that reports the fault, unless a binop error of a
      group that was complete came first or an iterator was invalid;
    - if the first closing bracket of [l] is of another kind than the
      innermost open one, the call raises the InvalidClosing error of the
      kind of that closing bracket, at its position;
    - if [l] has no closing bracket and ends with some kind open, the call
      raises the MissingClosing error of the innermost open kind, at the
      position of the last node of [l]. *)
Theorem bracket_grouping_balanced_or_error (l : NodeList) :
  (forall out rest',
     condenseAST [] l NodeType.NONE = Ok (out, rest') ->
     rest' = [] /\ bracket_fault [] l = None) /\
  (forall e,
     condenseAST [] l NodeType.NONE = Throw e ->
     is_bracket_error (eType e) = true ->
     exists f, bracket_fault [] l = Some f /\ reports f e) /\
  (forall f,
     bracket_fault [] l = Some f ->
     match condenseAST [] l NodeType.NONE with
     | Ok _ => False
     | Throw e => reports f e \/ is_binop_error (eType e) = true
     | Undefined => True
     end) /\
  (forall pre node rest group,
     l = pre ++ node :: rest ->
     Forall (fun n => is_closing n = false) pre ->
     classify node = Closing group ->
     innermost NodeType.NONE pre <> group ->
     condenseAST [] l NodeType.NONE =
     throw (invalid_closing_of group) (Node_line node) (Node_column node)) /\
  (forall init last,
     l = init ++ [last] ->
     Forall (fun n => is_closing n = false) l ->
     is_group (innermost NodeType.NONE l) = true ->
     condenseAST [] l NodeType.NONE =
     throw (missing_closing_of (innermost NodeType.NONE l))
       (Node_line last) (Node_column last)).
Proof.
  pose proof (condenseAST_run [] l NodeType.NONE) as Hrun.
  assert (P1 : forall out rest',
             condenseAST [] l NodeType.NONE = Ok (out, rest') ->
             rest' = [] /\ bracket_fault [] l = None).
  { intros out rest' H. rewrite H in Hrun. apply loop_ok_segment in Hrun.
    destruct Hrun as (seg & E & B & C). simpl in C. subst rest'.
    split; [reflexivity|]. rewrite E, B. reflexivity. }
  assert (P2 : forall e,
             condenseAST [] l NodeType.NONE = Throw e ->
             is_binop_error (eType e) = true \/
             exists f, bracket_fault [] l = Some f /\ reports f e).
  { intros e H. rewrite H in Hrun.
    exact (loop_throw_fault _ _ _ _ _ _ _ [] Hrun). }
  split; [exact P1|]. split; [|split; [|split]].
  - intros e H Hb. destruct (P2 e H) as [Hbin|Hf]; [|exact Hf].
    destruct (eType e); discriminate.
  - intros f Hf.
    destruct (condenseAST [] l NodeType.NONE) as [[out rest']|e|] eqn:E.
    + destruct (P1 out rest' eq_refl) as [_ Hnone].
      rewrite Hf in Hnone. discriminate Hnone.
    + destruct (P2 e eq_refl) as [Hbin|(f' & Hf' & Hr)]; [right; exact Hbin|].
      left. rewrite Hf in Hf'. injection Hf' as <-. exact Hr.
    + exact I.
  - intros pre node rest group -> Hpre Hc Hin.
    rewrite (invalid_first_closer pre _ [] [] true NodeType.NONE node rest group)
      in Hrun; auto.
    + injection Hrun as <-. reflexivity.
    + destruct (NodeType_eqb (innermost NodeType.NONE pre) group) eqn:E;
        [|reflexivity].
      apply NodeType_eqb_eq in E. destruct E as [E _]. contradiction.
  - intros init last -> Hl Hg.
    rewrite (missing_without_closer (init ++ [last]) _ [] [] true NodeType.NONE)
      in Hrun; auto.
    rewrite rev_app_distr in Hrun. simpl in Hrun.
    injection Hrun as <-. reflexivity.
Qed.

Lemma bracket_grouping_balanced_or_error_witness :
  let open := NodeToken (punct TokenType.LEFT_PAREN 0 1) in
  let close := NodeToken (punct TokenType.RIGHT_SQUARE 0 2) in
  let one := NodeExpr (ExprInt 0 2 1) in
  condenseAST [] [open; close] NodeType.NONE = throw INVALID_CLOSING_SQUARE 0 2 /\
  condenseAST [] [open; one] NodeType.NONE = throw MISSING_CLOSING_PAREN 0 2.
Proof.
  intros open close one. split.
  - refine (proj1 (proj2 (proj2 (proj2
             (bracket_grouping_balanced_or_error [open; close]))))
             [open] close [] NodeType.SQUARE_GROUP eq_refl _ eq_refl _).
    + repeat constructor.
    + discriminate.
  - refine (proj2 (proj2 (proj2 (proj2
             (bracket_grouping_balanced_or_error [open; one]))))
             [open] one eq_refl _ eq_refl).
    repeat constructor.
Defined.

(** C2 (as stated) fails: in ["(]"] a paren is open and the closing
    bracket is a square one; the error is the one of the square bracket,
    not the one of the kind that was expected. *)
Lemma invalid_closing_names_the_closer :
  innermost NodeType.NONE [NodeToken (punct TokenType.LEFT_PAREN 0 1)] =
    NodeType.PAREN_GROUP /\
  (t <- tokenize (src "(]") ;; r <- constructAST t ;; Ok (fst r)) =
    throw INVALID_CLOSING_SQUARE 0 2 /\
  (t <- tokenize (src "(]") ;; r <- constructAST t ;; Ok (fst r)) <>
    throw INVALID_CLOSING_PAREN 0 2.
Proof. repeat split. discriminate. Qed.

(** * Further properties *)

(** ** The register manager *)

Lemma acquire_spec (active : list bool) :
  forall i j active',
    RegManager.acquire i active = Some (j, active') ->
    exists k, j = i + Z.of_nat k /\ lowest_free k active /\
              active' = with_slot k true active.
Proof.
  induction active as [|a active IH]; intros i j active' H; [discriminate H|].
  simpl in H. destruct a; simpl in H.
  - destruct (RegManager.acquire (i + 1) active) as [[j' a']|] eqn:E;
      [|discriminate H].
    injection H as <- <-.
    destruct (IH _ _ _ E) as (k & -> & [Hk Hlow] & ->).
    exists (S k). split; [lia|]. split; [split|].
    + exact Hk.
    + intros [|m] Hm; [reflexivity|]. simpl. apply Hlow. lia.
    + reflexivity.
  - injection H as <- <-. exists 0%nat. split; [lia|]. split; [split|].
    + reflexivity.
    + intros m Hm. lia.
    + reflexivity.
Qed.

Lemma acquire_none (active : list bool) :
  forall i, RegManager.acquire i active = None <->
            Forall (fun a => a = true) active.
Proof.
  induction active as [|a active IH]; intros i; simpl.
  - split; [constructor | reflexivity].
  - destruct a; simpl.
    + specialize (IH (i + 1)).
      destruct (RegManager.acquire (i + 1) active) as [[j a']|].
      * split; [discriminate|]. intros H. inversion H; subst.
        apply IH in H3. discriminate H3.
      * split; [|reflexivity]. intros _. constructor; [reflexivity|].
        apply IH. reflexivity.
    + split; [discriminate|]. intros H. inversion H; subst. discriminate.
Qed.

Lemma acquire_some (active : list bool) (i : Z) (k : nat) :
  lowest_free k active ->
  RegManager.acquire i active = Some (i + Z.of_nat k, with_slot k true active).
Proof.
  intros Hlow.
  destruct (RegManager.acquire i active) as [[j a']|] eqn:E.
  - destruct (acquire_spec _ _ _ _ E) as (k' & -> & [Hk' Hlow'] & ->).
    destruct Hlow as [Hk Hlow].
    assert (k' = k).
    { destruct (Nat.lt_trichotomy k' k) as [H|[H|H]]; [|exact H|].
      - rewrite (Hlow _ H) in Hk'. discriminate Hk'.
      - rewrite (Hlow' _ H) in Hk. discriminate Hk. }
    subst. reflexivity.
  - apply acquire_none in E. destruct Hlow as [Hk _].
    apply nth_error_In in Hk. rewrite Forall_forall in E.
    apply E in Hk. discriminate Hk.
Qed.

(** X1.  [getWord] and [getByte] are first fit: the register returned is
    the lowest free slot of its pool, offset by the first register id of
    the pool; that slot is marked as occupied, and nothing else changes,
    in either pool. *)
Theorem get_register_first_fit (T : Target) (reg reg' : RegManager.t) (r : Z) :
  (RegManager.getWord T reg = Ok (r, reg') ->
   exists k,
     lowest_free k (RegManager.wordsActive reg) /\
     r = to_byte (Z.of_nat k + W0 T) /\
     RegManager.wordsActive reg' = with_slot k true (RegManager.wordsActive reg) /\
     RegManager.bytesActive reg' = RegManager.bytesActive reg) /\
  (RegManager.getByte T reg = Ok (r, reg') ->
   exists k,
     lowest_free k (RegManager.bytesActive reg) /\
     r = to_byte (Z.of_nat k + B0 T) /\
     RegManager.bytesActive reg' = with_slot k true (RegManager.bytesActive reg) /\
     RegManager.wordsActive reg' = RegManager.wordsActive reg).
Proof.
  split; intros H.
  - unfold RegManager.getWord in H.
    destruct (RegManager.acquire 0 (RegManager.wordsActive reg))
      as [[j a']|] eqn:E; [|discriminate H].
    injection H as <- <-.
    destruct (acquire_spec _ _ _ _ E) as (k & -> & Hlow & ->).
    exists k. repeat split; try apply Hlow.
  - unfold RegManager.getByte in H.
    destruct (RegManager.acquire 0 (RegManager.bytesActive reg))
      as [[j a']|] eqn:E; [|discriminate H].
    injection H as <- <-.
    destruct (acquire_spec _ _ _ _ E) as (k & -> & Hlow & ->).
    exists k. repeat split; try apply Hlow.
Qed.

Lemma get_register_first_fit_witness :
  exists k,
    lowest_free k [true; false; false] /\
    RegManager.wordsActive
      (RegManager.mk [true; true; false] [false]) =
    with_slot k true [true; false; false].
Proof.
  destruct (proj1 (get_register_first_fit example_target
                     (RegManager.mk [true; false; false] [false])
                     (RegManager.mk [true; true; false] [false]) 1) eq_refl)
    as (k & H1 & _ & H3 & _).
  exists k. split; assumption.
Defined.

(** X2.  [getWord] raises OutOfRegisters, at position (-1, -1), exactly
    when every word register is occupied, and otherwise returns; [getByte]
    does the same on the byte registers.  Neither raises another
    exception. *)
Theorem out_of_registers_iff_full (T : Target) (reg : RegManager.t) :
  (RegManager.getWord T reg = throw OUT_OF_REGISTERS (-1) (-1) <->
   Forall (fun a => a = true) (RegManager.wordsActive reg)) /\
  (RegManager.getByte T reg = throw OUT_OF_REGISTERS (-1) (-1) <->
   Forall (fun a => a = true) (RegManager.bytesActive reg)) /\
  (forall e, RegManager.getWord T reg = Throw e ->
             e = mkException OUT_OF_REGISTERS (-1) (-1)) /\
  (forall e, RegManager.getByte T reg = Throw e ->
             e = mkException OUT_OF_REGISTERS (-1) (-1)) /\
  RegManager.getWord T reg <> Undefined /\
  RegManager.getByte T reg <> Undefined.
Proof.
  unfold RegManager.getWord, RegManager.getByte.
  pose proof (acquire_none (RegManager.wordsActive reg) 0) as Hw.
  pose proof (acquire_none (RegManager.bytesActive reg) 0) as Hb.
  destruct (RegManager.acquire 0 (RegManager.wordsActive reg)) as [[i w]|];
    destruct (RegManager.acquire 0 (RegManager.bytesActive reg)) as [[j b]|];
    repeat split; try discriminate; try tauto;
    try (intros H; apply Hw in H; discriminate H);
    try (intros H; apply Hb in H; discriminate H);
    try (intros _; apply Hw; reflexivity);
    try (intros _; apply Hb; reflexivity);
    try (intros e H; injection H as <-; reflexivity).
Qed.

Lemma with_slot_length k v (l : list bool) :
  (k < length l)%nat -> length (with_slot k v l) = length l.
Proof.
  revert k. induction l as [|a l IH]; intros k H; [simpl in H; lia|].
  destruct k as [|k]; [reflexivity|].
  change (with_slot (S k) v (a :: l)) with (a :: with_slot k v l).
  simpl in *. rewrite IH; [reflexivity | lia].
Qed.

Lemma nth_error_with_slot k v (l : list bool) m :
  (k < length l)%nat ->
  nth_error (with_slot k v l) m =
  if (m =? k)%nat then Some v else nth_error l m.
Proof.
  revert k m. induction l as [|a l IH]; intros k m H; [simpl in H; lia|].
  destruct k as [|k]; destruct m as [|m]; try reflexivity.
  simpl in H. change (with_slot (S k) v (a :: l)) with (a :: with_slot k v l).
  simpl. apply IH. lia.
Qed.

Lemma with_slot_same k v (l : list bool) :
  nth_error l k = Some v -> with_slot k v l = l.
Proof.
  revert k. induction l as [|a l IH]; intros [|k] H; try discriminate H.
  - injection H as ->. reflexivity.
  - change (with_slot (S k) v (a :: l)) with (a :: with_slot k v l).
    rewrite (IH k H). reflexivity.
Qed.

Lemma with_slot_twice k v w (l : list bool) :
  (k < length l)%nat ->
  with_slot k v (with_slot k w l) = with_slot k v l.
Proof.
  revert k. induction l as [|a l IH]; intros [|k] H; try reflexivity;
    try (simpl in H; lia).
  change (with_slot (S k) w (a :: l)) with (a :: with_slot k w l).
  change (with_slot (S k) v (a :: with_slot k w l))
    with (a :: with_slot k v (with_slot k w l)).
  rewrite IH; [reflexivity | simpl in H; lia].
Qed.

Lemma release_spec (l : list bool) :
  forall k,
    RegManager.release k l =
    if (k <? length l)%nat then Ok (with_slot k false l) else Undefined.
Proof.
  induction l as [|a l IH]; intros [|k]; try reflexivity.
  simpl RegManager.release. rewrite IH.
  change (S k <? length (a :: l))%nat with (k <? length l)%nat.
  destruct (k <? length l)%nat; reflexivity.
Qed.

Lemma lowest_free_lt k (l : list bool) :
  lowest_free k l -> (k < length l)%nat.
Proof. intros [H _]. apply nth_error_Some. rewrite H. discriminate. Qed.

Lemma to_byte_inj (a b : Z) :
  to_byte a = to_byte b -> Z.abs (a - b) < 256 -> a = b.
Proof.
  unfold to_byte. intros H Hd.
  assert (Hm : (a - b) mod 256 = 0).
  { rewrite Zminus_mod, H, Z.sub_diag. reflexivity. }
  apply Z.mod_divide in Hm; [|lia]. destruct Hm as [q Hq]. lia.
Qed.

(** X3.  Two acquisitions in a row never return the same register id, as
    long as the pool has at most 256 registers, which is what fits in the
    one-byte id. *)
Theorem getWord_twice_distinct
  (T : Target) (reg reg1 reg2 : RegManager.t) (a b : Z) :
  (length (RegManager.wordsActive reg) <= 256)%nat ->
  RegManager.getWord T reg = Ok (a, reg1) ->
  RegManager.getWord T reg1 = Ok (b, reg2) ->
  a <> b.
Proof.
  intros Hlen H1 H2.
  unfold RegManager.getWord in H1, H2.
  destruct (RegManager.acquire 0 (RegManager.wordsActive reg))
    as [[j1 w1]|] eqn:E1; [|discriminate H1].
  injection H1 as <- <-. cbn [RegManager.wordsActive] in H2.
  destruct (RegManager.acquire 0 w1) as [[j2 w2]|] eqn:E2; [|discriminate H2].
  injection H2 as <- <-.
  destruct (acquire_spec _ _ _ _ E1) as (k1 & -> & L1 & ->).
  destruct (acquire_spec _ _ _ _ E2) as (k2 & -> & L2 & _).
  pose proof (lowest_free_lt _ _ L1) as B1.
  pose proof (lowest_free_lt _ _ L2) as B2.
  rewrite with_slot_length in B2 by exact B1.
  intros Heq. apply to_byte_inj in Heq; [|lia].
  assert (k2 = k1) by lia. subst k2.
  destruct L2 as [L2 _]. rewrite nth_error_with_slot in L2 by exact B1.
  rewrite Nat.eqb_refl in L2. discriminate L2.
Qed.

Lemma getWord_twice_distinct_witness :
  exists a b reg1 reg2,
    RegManager.getWord example_target (RegManager.new example_target) =
      Ok (a, reg1) /\
    RegManager.getWord example_target reg1 = Ok (b, reg2) /\
    a <> b.
Proof.
  exists 0, 1,
    (RegManager.mk (true :: repeat false 7) (repeat false 8)),
    (RegManager.mk (true :: true :: repeat false 6) (repeat false 8)).
  split; [reflexivity|]. split; [reflexivity|].
  refine (getWord_twice_distinct example_target
            (RegManager.new example_target)
            (RegManager.mk (true :: repeat false 7) (repeat false 8))
            (RegManager.mk (true :: true :: repeat false 6) (repeat false 8))
            0 1 _ eq_refl eq_refl).
  simpl. lia.
Defined.

(** X4.  Release undoes acquisition: when the register ids of the pool do
    not wrap around in a byte, releasing the register that [getWord] has
    just returned restores the register manager as it was. *)
Theorem freeWord_undoes_getWord
  (T : Target) (reg reg' : RegManager.t) (r : Z) :
  0 <= W0 T ->
  W0 T + Z.of_nat (length (RegManager.wordsActive reg)) <= 256 ->
  RegManager.getWord T reg = Ok (r, reg') ->
  RegManager.freeWord T reg' r = Ok reg.
Proof.
  intros H0 Hmax H.
  unfold RegManager.getWord in H.
  destruct (RegManager.acquire 0 (RegManager.wordsActive reg))
    as [[j w]|] eqn:E; [|discriminate H].
  injection H as <- <-.
  destruct (acquire_spec _ _ _ _ E) as (k & -> & L & ->).
  pose proof (lowest_free_lt _ _ L) as B.
  unfold RegManager.freeWord, to_byte. cbn [RegManager.wordsActive RegManager.bytesActive].
  rewrite Z.mod_small by lia.
  replace (0 + Z.of_nat k + W0 T - W0 T) with (Z.of_nat k) by lia.
  destruct (Z.of_nat k <? 0) eqn:Hneg; [apply Z.ltb_lt in Hneg; lia|].
  rewrite Nat2Z.id, release_spec, with_slot_length by exact B.
  apply Nat.ltb_lt in B. rewrite B. cbn [bind].
  apply Nat.ltb_lt in B.
  rewrite with_slot_twice by exact B. rewrite with_slot_same by apply L.
  destruct reg; reflexivity.
Qed.

Lemma freeWord_undoes_getWord_witness :
  RegManager.freeWord example_target
    (RegManager.mk [true; true; false] [false]) 1 =
  Ok (RegManager.mk [true; false; false] [false]).
Proof.
  refine (freeWord_undoes_getWord example_target
            (RegManager.mk [true; false; false] [false]) _ 1 _ _ eq_refl);
    simpl; lia.
Defined.

(** X5.  After a word register is released, the next [getWord] succeeds
    and returns a slot that is not above the released one; it returns the
    released slot exactly when every slot below it is occupied. *)
Theorem getWord_after_freeWord
  (T : Target) (reg reg' : RegManager.t) (k : nat) :
  RegManager.freeWord T reg (Z.of_nat k + W0 T) = Ok reg' ->
  exists j reg'',
    RegManager.getWord T reg' = Ok (to_byte (Z.of_nat j + W0 T), reg'') /\
    (j <= k)%nat /\
    (j = k <->
     forall m, (m < k)%nat ->
               nth_error (RegManager.wordsActive reg) m = Some true).
Proof.
  unfold RegManager.freeWord.
  replace (Z.of_nat k + W0 T - W0 T) with (Z.of_nat k) by lia.
  destruct (Z.of_nat k <? 0) eqn:Hneg; [discriminate|].
  rewrite Nat2Z.id, release_spec.
  destruct (k <? length (RegManager.wordsActive reg))%nat eqn:B;
    [|discriminate].
  apply Nat.ltb_lt in B. cbn [bind]. intros H. injection H as <-.
  unfold RegManager.getWord. cbn [RegManager.wordsActive RegManager.bytesActive].
  set (words := RegManager.wordsActive reg) in *.
  destruct (RegManager.acquire 0 (with_slot k false words))
    as [[j w]|] eqn:E.
  - destruct (acquire_spec _ _ _ _ E) as (j' & -> & [Lj Llow] & ->).
    exists j'. eexists. split; [reflexivity|].
    assert (Hle : (j' <= k)%nat).
    { destruct (Nat.le_gt_cases j' k) as [Hle|Hgt]; [exact Hle|].
      specialize (Llow k Hgt). rewrite nth_error_with_slot in Llow by exact B.
      rewrite Nat.eqb_refl in Llow. discriminate Llow. }
    split; [exact Hle|]. split.
    + intros -> m Hm. specialize (Llow m Hm).
      rewrite nth_error_with_slot in Llow by exact B.
      destruct (m =? k)%nat eqn:Em; [apply Nat.eqb_eq in Em; lia | exact Llow].
    + intros Hall. destruct (Nat.eq_dec j' k) as [Heq|Hne]; [exact Heq|].
      assert (Hlt : (j' < k)%nat) by lia.
      rewrite nth_error_with_slot in Lj by exact B.
      destruct (j' =? k)%nat eqn:Em; [apply Nat.eqb_eq in Em; lia|].
      rewrite (Hall j' Hlt) in Lj. discriminate Lj.
  - exfalso. apply acquire_none in E. rewrite Forall_forall in E.
    assert (Hin : In false (with_slot k false words)).
    { apply (nth_error_In _ k). rewrite nth_error_with_slot by exact B.
      rewrite Nat.eqb_refl. reflexivity. }
    apply E in Hin. discriminate Hin.
Qed.

Lemma getWord_after_freeWord_witness :
  exists j reg'',
    RegManager.getWord example_target
      (RegManager.mk [true; false; false] [false]) =
      Ok (to_byte (Z.of_nat j + W0 example_target), reg'') /\
    (j <= 2)%nat.
Proof.
  destruct (getWord_after_freeWord example_target
              (RegManager.mk [true; false; true] [false])
              (RegManager.mk [true; false; false] [false]) 2 eq_refl)
    as (j & reg'' & H1 & H2 & _).
  exists j, reg''. split; assumption.
Defined.

(** X6.  [freeWord] does not check that the register was acquired:
    releasing a free register changes nothing, releasing twice is
    releasing once, and the byte registers are never touched.  A register
    id outside the pool is an access outside the array. *)
Theorem freeWord_unchecked (T : Target) (reg : RegManager.t) (k : nat) :
  let r := Z.of_nat k + W0 T in
  (nth_error (RegManager.wordsActive reg) k = Some false ->
   RegManager.freeWord T reg r = Ok reg) /\
  (forall reg',
     RegManager.freeWord T reg r = Ok reg' ->
     RegManager.freeWord T reg' r = Ok reg' /\
     RegManager.bytesActive reg' = RegManager.bytesActive reg /\
     length (RegManager.wordsActive reg') = length (RegManager.wordsActive reg)) /\
  ((length (RegManager.wordsActive reg) <= k)%nat ->
   RegManager.freeWord T reg r = Undefined).
Proof.
  intros r. unfold RegManager.freeWord, r.
  replace (Z.of_nat k + W0 T - W0 T) with (Z.of_nat k) by lia.
  destruct (Z.of_nat k <? 0) eqn:Hneg; [apply Z.ltb_lt in Hneg; lia|].
  rewrite Nat2Z.id, release_spec.
  repeat split.
  - intros H. assert (B : (k < length (RegManager.wordsActive reg))%nat).
    { apply nth_error_Some. rewrite H. discriminate. }
    apply Nat.ltb_lt in B. rewrite B. cbn [bind].
    rewrite with_slot_same by exact H. destruct reg; reflexivity.
  - destruct (k <? length (RegManager.wordsActive reg))%nat eqn:B;
      [|discriminate H].
    injection H as <-. cbn [RegManager.wordsActive RegManager.bytesActive].
    rewrite release_spec.
    apply Nat.ltb_lt in B. rewrite with_slot_length by exact B.
    apply Nat.ltb_lt in B. rewrite B. cbn [bind].
    apply Nat.ltb_lt in B. rewrite with_slot_twice by exact B. reflexivity.
  - destruct (k <? length (RegManager.wordsActive reg))%nat eqn:B;
      [|discriminate H].
    injection H as <-. reflexivity.
  - destruct (k <? length (RegManager.wordsActive reg))%nat eqn:B;
      [|discriminate H].
    injection H as <-. cbn [RegManager.wordsActive].
    apply with_slot_length. apply Nat.ltb_lt. exact B.
  - intros H. apply Nat.ltb_ge in H. rewrite H. reflexivity.
Qed.

Lemma freeWord_unchecked_witness :
  RegManager.freeWord example_target
    (RegManager.mk [true; false; false] [false]) 1 =
  Ok (RegManager.mk [true; false; false] [false]).
Proof.
  exact (proj1 (freeWord_unchecked example_target
                  (RegManager.mk [true; false; false] [false]) 1) eq_refl).
Defined.

(** ** The binop resolver *)

Lemma apply_patterns_table (l r : Expr) :
  let t := result_type (evalType l) (evalType r) in
  apply_patterns arithmeticBinopPatterns l r =
  if ExprType.eqb t ExprType.UNKNOWN then (ExprType.UNKNOWN, l, r)
  else (t, cast_to t l, cast_to t r).
Proof.
  unfold arithmeticBinopPatterns, cast_to. simpl.
  destruct (evalType l), (evalType r); reflexivity.
Qed.

Lemma make_binop_table (l r : Expr) (opType : OpType.t) (line column : Z) :
  let t := result_type (evalType l) (evalType r) in
  make_binop l r opType line column =
  if ExprType.eqb t ExprType.UNKNOWN
  then throw BINOP_ILLEGAL_PATTERN line column
  else Ok (ExprBinop (cast_to t l) (cast_to t r) opType t line column).
Proof.
  intros t. unfold make_binop. rewrite apply_patterns_table. fold t.
  destruct (ExprType.eqb t ExprType.UNKNOWN) eqn:E; [reflexivity|].
  rewrite E. reflexivity.
Qed.

(** X7.  The pattern table as a function: the result type of a binop is
    the operand type of higher rank in the order bool, char, int, float,
    except that two bools give int; each operand whose type is not the
    result type is wrapped in a cast to it, the other is taken as it is;
    and the exception BinopIllegalPattern is raised exactly when an operand
    is of unknown type. *)
Theorem make_binop_by_rank
  (l r : Expr) (opType : OpType.t) (line column : Z) :
  let t := result_type (evalType l) (evalType r) in
  (evalType l <> ExprType.UNKNOWN -> evalType r <> ExprType.UNKNOWN ->
   t <> ExprType.UNKNOWN /\
   make_binop l r opType line column =
   Ok (ExprBinop (cast_to t l) (cast_to t r) opType t line column)) /\
  (evalType l = ExprType.UNKNOWN \/ evalType r = ExprType.UNKNOWN ->
   make_binop l r opType line column =
   throw BINOP_ILLEGAL_PATTERN line column).
Proof.
  intros t. pose proof (make_binop_table l r opType line column) as H.
  fold t in H. rewrite H. unfold t. split.
  - intros Hl Hr.
    destruct (evalType l), (evalType r); try contradiction;
      split; try discriminate; reflexivity.
  - intros [E|E]; rewrite E; [|destruct (evalType l)]; reflexivity.
Qed.

Lemma make_binop_by_rank_witness :
  make_binop (ExprChar 0 1 "a") (ExprInt 0 3 2) OpType.ADD 0 2 =
  Ok (ExprBinop (ExprCast (ExprChar 0 1 "a") ExprType.INT) (ExprInt 0 3 2)
        OpType.ADD ExprType.INT 0 2).
Proof.
  refine (proj2 (proj1 (make_binop_by_rank (ExprChar 0 1 "a") (ExprInt 0 3 2)
                          OpType.ADD 0 2) _ _)); discriminate.
Defined.

(** X8.  The resolution is symmetric for every pair of operands: swapping
    the operands gives the same result type, or the same exception, and
    the same two operand subtrees in swapped places. *)
Theorem make_binop_symmetric
  (l r : Expr) (opType : OpType.t) (line column : Z) :
  match make_binop l r opType line column,
        make_binop r l opType line column with
  | Ok (ExprBinop a b _ t _ _), Ok (ExprBinop b' a' _ t' _ _) =>
      a = a' /\ b = b' /\ t = t'
  | Throw e, Throw e' => e = e'
  | _, _ => False
  end.
Proof.
  rewrite !make_binop_table.
  assert (S : result_type (evalType r) (evalType l)
              = result_type (evalType l) (evalType r))
    by (destruct (evalType l), (evalType r); reflexivity).
  rewrite S.
  destruct (ExprType.eqb (result_type (evalType l) (evalType r))
              ExprType.UNKNOWN); [reflexivity | repeat split].
Qed.

Lemma cast_to_type (t : ExprType.t) (e : Expr) : evalType (cast_to t e) = t.
Proof.
  unfold cast_to. destruct (ExprType.eqb (evalType e) t) eqn:E; [|reflexivity].
  destruct (evalType e), t; try discriminate E; reflexivity.
Qed.

Lemma cast_to_well_typed (t : ExprType.t) (e : Expr) :
  well_typed e -> evalType e <> ExprType.UNKNOWN -> t <> ExprType.UNKNOWN ->
  well_typed (cast_to t e).
Proof.
  intros He Hu Ht. unfold cast_to.
  destruct (ExprType.eqb (evalType e) t) eqn:E; [exact He|].
  simpl. repeat split; try assumption.
  intros Heq. rewrite Heq in E. destruct t; discriminate E.
Qed.

Lemma make_binop_well_typed lhs rhs opType line column binop :
  make_binop lhs rhs opType line column = Ok binop ->
  well_typed lhs -> well_typed rhs -> well_typed binop.
Proof.
  rewrite make_binop_table. intros H Hl Hr.
  destruct (ExprType.eqb (result_type (evalType lhs) (evalType rhs))
              ExprType.UNKNOWN) eqn:E; [discriminate H|].
  injection H as <-.
  assert (Ht : result_type (evalType lhs) (evalType rhs) <> ExprType.UNKNOWN)
    by (intros Heq; rewrite Heq in E; discriminate E).
  assert (Hul : evalType lhs <> ExprType.UNKNOWN)
    by (intros Heq; rewrite Heq in Ht; apply Ht; reflexivity).
  assert (Hur : evalType rhs <> ExprType.UNKNOWN)
    by (intros Heq; rewrite Heq in Ht; apply Ht;
        destruct (evalType lhs); reflexivity).
  simpl. repeat split; try assumption;
    try apply cast_to_well_typed; try apply cast_to_type; assumption.
Qed.

(** ** The precedence passes *)

Lemma is_operator_folds (n : Node) :
  is_operator n =
  folds TokenType.STAR TokenType.SLASH n || folds TokenType.PLUS TokenType.DASH n.
Proof.
  destruct n as [token| | | |]; try reflexivity.
  unfold is_operator, folds. destruct (Token.type token); reflexivity.
Qed.

(** The pass steps over a node that it does not fold. *)
Lemma binop_pass_skip ft fo ot oo done node todo :
  folds ft ot node = false ->
  binop_pass ft fo ot oo done (node :: todo) =
  binop_pass ft fo ot oo (node :: done) todo.
Proof.
  destruct node as [token| | | |]; try reflexivity.
  simpl. intros ->. reflexivity.
Qed.

Lemma binop_pass_identity ft fo ot oo todo :
  forall done,
    Forall (fun n => folds ft ot n = false) todo ->
    binop_pass ft fo ot oo done todo = Ok (rev done ++ todo).
Proof.
  induction todo as [|node todo IH]; intros done H.
  - simpl. rewrite app_nil_r. reflexivity.
  - inversion H as [|? ? Hn Ht]; subst.
    rewrite (binop_pass_skip ft fo ot oo done node todo Hn), (IH _ Ht).
    simpl. rewrite <- app_assoc. reflexivity.
Qed.

(** X9.  The passes touch nothing but the four arithmetic operators: a
    list without a star, slash, plus or dash token comes out of [process]
    as it went in, whatever other tokens and groups it holds. *)
Theorem process_without_operators (outputList : NodeList) :
  Forall (fun n => is_operator n = false) outputList ->
  process outputList = Ok outputList.
Proof.
  intros H. unfold process.
  assert (H1 : Forall (fun n => folds TokenType.STAR TokenType.SLASH n = false)
                 outputList).
  { eapply Forall_impl; [|exact H]. intros n Hn. cbv beta in Hn. rewrite is_operator_folds in Hn.
    apply orb_false_iff in Hn. apply Hn. }
  assert (H2 : Forall (fun n => folds TokenType.PLUS TokenType.DASH n = false)
                 outputList).
  { eapply Forall_impl; [|exact H]. intros n Hn. cbv beta in Hn. rewrite is_operator_folds in Hn.
    apply orb_false_iff in Hn. apply Hn. }
  rewrite (binop_pass_identity _ _ _ _ _ [] H1). cbn [bind rev app].
  rewrite (binop_pass_identity _ _ _ _ _ [] H2). reflexivity.
Qed.

Lemma process_without_operators_witness :
  process [NodeExpr (ExprInt 0 1 1); NodeToken (punct TokenType.COMMA 0 2);
           NodeExpr (ExprInt 0 3 2)] =
  Ok [NodeExpr (ExprInt 0 1 1); NodeToken (punct TokenType.COMMA 0 2);
      NodeExpr (ExprInt 0 3 2)].
Proof.
  apply process_without_operators. repeat constructor.
Defined.

(** What a pass returns holds the nodes it was given, less the ones it
    folded, and new expression nodes. *)
Lemma binop_pass_keeps (R : Node -> Prop) ft fo ot oo n :
  (forall e, R (NodeExpr e)) ->
  forall todo done out,
    (length todo <= n)%nat ->
    binop_pass ft fo ot oo done todo = Ok out ->
    Forall R done -> Forall R todo -> Forall R out.
Proof.
  intros HR. induction n as [|n IH]; intros todo done out Hn H Hd Ht.
  - destruct todo; [|simpl in Hn; lia]. injection H as <-.
    apply Forall_rev. exact Hd.
  - destruct todo as [|node todo].
    { injection H as <-. apply Forall_rev. exact Hd. }
    simpl in Hn. inversion Ht as [|? ? Rn Rt]; subst.
    destruct (folds ft ot node) eqn:F.
    + destruct node as [token| | | |]; try discriminate F.
      simpl in H. simpl in F. rewrite F in H.
      destruct done as [|[| | | |lhs] done']; try discriminate H.
      destruct todo as [|[| | | |rhs] todo']; try discriminate H.
      destruct (make_binop lhs rhs _ (Token.line token) (Token.column token))
        as [binop|e|]; try discriminate H.
      cbn [bind] in H.
      apply (IH todo' (NodeExpr binop :: done') out); auto.
      * simpl in Hn. lia.
      * inversion Hd; subst. constructor; auto.
      * inversion Rt; subst. assumption.
    + rewrite (binop_pass_skip ft fo ot oo done node todo F) in H.
      apply (IH todo (node :: done) out); auto. lia.
Qed.

(** What a pass returns holds none of the tokens that it folds. *)
Lemma binop_pass_folds_all ft fo ot oo n :
  forall todo done out,
    (length todo <= n)%nat ->
    binop_pass ft fo ot oo done todo = Ok out ->
    Forall (fun x => folds ft ot x = false) done ->
    Forall (fun x => folds ft ot x = false) out.
Proof.
  induction n as [|n IH]; intros todo done out Hn H Hd.
  - destruct todo; [|simpl in Hn; lia]. injection H as <-.
    apply Forall_rev. exact Hd.
  - destruct todo as [|node todo].
    { injection H as <-. apply Forall_rev. exact Hd. }
    simpl in Hn.
    destruct (folds ft ot node) eqn:F.
    + destruct node as [token| | | |]; try discriminate F.
      simpl in H. simpl in F. rewrite F in H.
      destruct done as [|[| | | |lhs] done']; try discriminate H.
      destruct todo as [|[| | | |rhs] todo']; try discriminate H.
      destruct (make_binop lhs rhs _ (Token.line token) (Token.column token))
        as [binop|e|]; try discriminate H.
      cbn [bind] in H.
      apply (IH todo' (NodeExpr binop :: done') out); auto.
      * simpl in Hn. lia.
      * inversion Hd; subst. constructor; auto.
    + rewrite (binop_pass_skip ft fo ot oo done node todo F) in H.
      apply (IH todo (node :: done) out); auto. lia.
Qed.

Lemma TokenType_eqb_eq (a b : TokenType.t) :
  TokenType_eqb a b = true -> a = b.
Proof.
  unfold TokenType_eqb. intros H. apply Z.eqb_eq in H.
  assert (R : forall x, TokenType.of_int (TokenType.to_int x) = x)
    by (intros x; destruct x; reflexivity).
  rewrite <- (R a), <- (R b), H. reflexivity.
Qed.

Lemma expr_atoms_cast_to (t : ExprType.t) (e : Expr) :
  expr_atoms (cast_to t e) = expr_atoms e.
Proof.
  unfold cast_to. destruct (ExprType.eqb (evalType e) t); reflexivity.
Qed.

Lemma make_binop_atoms lhs rhs opType line column binop :
  make_binop lhs rhs opType line column = Ok binop ->
  expr_atoms binop =
  expr_atoms lhs ++ AtomOp opType line column :: expr_atoms rhs.
Proof.
  rewrite make_binop_table.
  destruct (ExprType.eqb _ ExprType.UNKNOWN); intros H; [discriminate H|].
  injection H as <-. cbn [expr_atoms]. rewrite !expr_atoms_cast_to.
  reflexivity.
Qed.

Lemma atoms_app (a b : NodeList) : atoms (a ++ b) = atoms a ++ atoms b.
Proof. apply flat_map_app. Qed.

(** A pass changes the grouping of the atoms, not the atoms. *)
Lemma binop_pass_atoms ft fo ot oo n :
  operator_of ft = Some fo -> operator_of ot = Some oo ->
  forall todo done out,
    (length todo <= n)%nat ->
    binop_pass ft fo ot oo done todo = Ok out ->
    atoms out = atoms (rev done ++ todo).
Proof.
  intros Hf Ho.
  induction n as [|n IH]; intros todo done out Hn H.
  - destruct todo; [|simpl in Hn; lia]. injection H as <-.
    rewrite app_nil_r. reflexivity.
  - destruct todo as [|node todo].
    { injection H as <-. rewrite app_nil_r. reflexivity. }
    simpl in Hn.
    destruct (folds ft ot node) eqn:F.
    + destruct node as [token| | | |]; try discriminate F.
      simpl in H. simpl in F. rewrite F in H.
      destruct done as [|[| | | |lhs] done']; try discriminate H.
      destruct todo as [|[| | | |rhs] todo']; try discriminate H.
      destruct (make_binop lhs rhs _ (Token.line token) (Token.column token))
        as [binop|e|] eqn:E; try discriminate H.
      cbn [bind] in H.
      rewrite (IH todo' (NodeExpr binop :: done') out) by
        (first [simpl in Hn; lia | exact H]).
      apply make_binop_atoms in E.
      assert (Op : operator_of (Token.type token) =
                   Some (if TokenType_eqb (Token.type token) ft then fo else oo)).
      { destruct (TokenType_eqb (Token.type token) ft) eqn:Ef.
        - apply TokenType_eqb_eq in Ef. rewrite Ef. exact Hf.
        - cbn [orb] in F. apply TokenType_eqb_eq in F. rewrite F. exact Ho. }
      cbn [rev]. unfold atoms. rewrite !flat_map_app.
      cbn [flat_map node_atoms]. rewrite Op, E, !app_nil_r.
      rewrite <- !app_assoc. cbn [app]. reflexivity.
    + rewrite (binop_pass_skip ft fo ot oo done node todo F) in H.
      rewrite (IH todo (node :: done) out) by (first [lia | exact H]).
      cbn [rev]. rewrite <- app_assoc. reflexivity.
Qed.

(** X10.  When [process] returns, no star, slash, plus or dash token is
    left in the list, and the list is made of what it was made of before,
    in the same order: every operator token of the input is now the root
    of a binop node, with its kind of operator and its position, between
    what stood on its left and what stood on its right, and no operand and
    no other node has been added, dropped or moved. *)
Theorem process_folds_every_operator (outputList out : NodeList) :
  process outputList = Ok out ->
  Forall (fun n => is_operator n = false) out /\
  atoms out = atoms outputList.
Proof.
  unfold process. intros H.
  destruct (binop_pass TokenType.STAR OpType.MULT TokenType.SLASH OpType.DIV
              [] outputList) as [mid|e|] eqn:E1; try discriminate H.
  cbn [bind] in H. split.
  - pose proof (binop_pass_folds_all _ _ _ _ _ _ _ _ (Nat.le_refl _) E1
                  (Forall_nil _)) as F1.
    pose proof (binop_pass_folds_all _ _ _ _ _ _ _ _ (Nat.le_refl _) H
                  (Forall_nil _)) as F2.
    pose proof (binop_pass_keeps
                  (fun x => folds TokenType.STAR TokenType.SLASH x = false)
                  _ _ _ _ _ (fun e => eq_refl) _ _ _ (Nat.le_refl _) H
                  (Forall_nil _) F1) as F3.
    rewrite Forall_forall in *. intros x Hx.
    rewrite is_operator_folds, (F2 x Hx), (F3 x Hx). reflexivity.
  - rewrite (binop_pass_atoms TokenType.PLUS OpType.ADD TokenType.DASH
               OpType.SUB _ eq_refl eq_refl _ _ _ (Nat.le_refl _) H).
    cbn [rev app].
    rewrite (binop_pass_atoms TokenType.STAR OpType.MULT TokenType.SLASH
               OpType.DIV _ eq_refl eq_refl _ _ _ (Nat.le_refl _) E1).
    reflexivity.
Qed.

Lemma process_folds_every_operator_witness :
  Forall (fun n => is_operator n = false)
    [NodeExpr (ExprBinop (ExprInt 0 1 8) (ExprInt 0 3 3) OpType.SUB
                 ExprType.INT 0 2)] /\
  atoms [NodeExpr (ExprBinop (ExprInt 0 1 8) (ExprInt 0 3 3) OpType.SUB
                     ExprType.INT 0 2)] =
  [AtomExpr (ExprInt 0 1 8); AtomOp OpType.SUB 0 2; AtomExpr (ExprInt 0 3 3)].
Proof.
  exact (process_folds_every_operator
           [NodeExpr (ExprInt 0 1 8); NodeToken (punct TokenType.DASH 0 2);
            NodeExpr (ExprInt 0 3 3)] _ eq_refl).
Defined.

Lemma binop_pass_chain ft fo ot oo chain :
  forall acc done,
    Forall (fun p => folds ft ot (NodeToken (fst p)) = true) chain ->
    binop_pass ft fo ot oo (NodeExpr acc :: done) (chain_nodes chain) =
    (e <- fold_chain ft fo oo acc chain ;; Ok (rev done ++ [NodeExpr e])).
Proof.
  induction chain as [|[token x] chain IH]; intros acc done H.
  - reflexivity.
  - inversion H as [|? ? Hf Hc]; subst. simpl in Hf.
    cbn [chain_nodes fold_chain binop_pass]. rewrite Hf.
    destruct (make_binop acc x _ (Token.line token) (Token.column token))
      as [binop|e|]; try reflexivity.
    cbn [bind]. apply IH. exact Hc.
Qed.

(** X11.  Chains are left associative: in [e0 op1 e1 ... opn en] with
    operators of one pass only, each operator takes the whole expression
    to its left as its left operand; the list becomes the single node of
    the left fold, or the first exception of that fold. *)
Theorem process_left_associative (e0 : Expr) (chain : list (Token.t * Expr)) :
  (Forall (fun p => folds TokenType.PLUS TokenType.DASH (NodeToken (fst p)) = true)
     chain ->
   process (NodeExpr e0 :: chain_nodes chain) =
   (e <- fold_chain TokenType.PLUS OpType.ADD OpType.SUB e0 chain ;;
    Ok [NodeExpr e])) /\
  (Forall (fun p => folds TokenType.STAR TokenType.SLASH (NodeToken (fst p)) = true)
     chain ->
   process (NodeExpr e0 :: chain_nodes chain) =
   (e <- fold_chain TokenType.STAR OpType.MULT OpType.DIV e0 chain ;;
    Ok [NodeExpr e])).
Proof.
  split; intros H; unfold process.
  - assert (H1 : Forall (fun n => folds TokenType.STAR TokenType.SLASH n = false)
                   (NodeExpr e0 :: chain_nodes chain)).
    { constructor; [reflexivity|]. induction H as [|[token x] c Hp _ IH];
        [constructor|].
      cbn [chain_nodes]. constructor; [|constructor; [reflexivity|exact IH]].
      destruct token as [ty tl tc tp]. cbn [fst folds Token.type] in *.
      destruct ty; try discriminate Hp; reflexivity. }
    rewrite (binop_pass_identity _ _ _ _ _ [] H1). cbn [bind rev app].
    cbn [binop_pass]. rewrite (binop_pass_chain _ _ _ _ chain e0 [] H).
    reflexivity.
  - cbn [binop_pass]. rewrite (binop_pass_chain _ _ _ _ chain e0 [] H).
    destruct (fold_chain TokenType.STAR OpType.MULT OpType.DIV e0 chain);
      reflexivity.
Qed.

Lemma process_left_associative_witness :
  process (NodeExpr (ExprInt 0 1 8)
           :: chain_nodes [(punct TokenType.DASH 0 2, ExprInt 0 3 3);
                           (punct TokenType.DASH 0 4, ExprInt 0 5 2)]) =
  Ok [NodeExpr
        (ExprBinop
           (ExprBinop (ExprInt 0 1 8) (ExprInt 0 3 3) OpType.SUB ExprType.INT 0 2)
           (ExprInt 0 5 2) OpType.SUB ExprType.INT 0 4)].
Proof.
  refine (proj1 (process_left_associative (ExprInt 0 1 8)
                   [(punct TokenType.DASH 0 2, ExprInt 0 3 3);
                    (punct TokenType.DASH 0 4, ExprInt 0 5 2)]) _).
  repeat constructor.
Defined.

(** X12.  Multiplication and division bind tighter than addition and
    subtraction, for any three operands and on either side: in
    [a + b * c] the product is the right operand of the sum, in
    [a * b + c] it is the left operand; an exception of the product comes
    first. *)
Theorem process_precedence
  (a b c : Expr) (add mul : Token.t) (addOp mulOp : OpType.t) :
  folds TokenType.PLUS TokenType.DASH (NodeToken add) = true ->
  folds TokenType.STAR TokenType.SLASH (NodeToken mul) = true ->
  operator_of (Token.type add) = Some addOp ->
  operator_of (Token.type mul) = Some mulOp ->
  process [NodeExpr a; NodeToken add; NodeExpr b; NodeToken mul; NodeExpr c] =
    (product <- make_binop b c mulOp (Token.line mul) (Token.column mul) ;;
     sum <- make_binop a product addOp (Token.line add) (Token.column add) ;;
     Ok [NodeExpr sum]) /\
  process [NodeExpr a; NodeToken mul; NodeExpr b; NodeToken add; NodeExpr c] =
    (product <- make_binop a b mulOp (Token.line mul) (Token.column mul) ;;
     sum <- make_binop product c addOp (Token.line add) (Token.column add) ;;
     Ok [NodeExpr sum]).
Proof.
  destruct add as [ta la ca pa], mul as [tm lm cm pm].
  cbn [folds Token.type Token.line Token.column].
  intros Ha Hm Hoa Hom.
  destruct ta; try discriminate Ha; injection Hoa as <-;
    (destruct tm; try discriminate Hm; injection Hom as <-);
    unfold process; cbn [binop_pass Token.type Token.line Token.column
                         TokenType_eqb TokenType.to_int Z.eqb Pos.eqb orb];
    split;
    repeat match goal with
           | |- context [make_binop ?x ?y ?o ?l ?k] =>
               destruct (make_binop x y o l k);
               cbn [bind rev app binop_pass Token.type Token.line Token.column
                    TokenType_eqb TokenType.to_int Z.eqb Pos.eqb orb]
           end;
    reflexivity.
Qed.

Lemma process_precedence_witness :
  process [NodeExpr (ExprInt 0 1 2); NodeToken (punct TokenType.PLUS 0 2);
           NodeExpr (ExprInt 0 3 3); NodeToken (punct TokenType.STAR 0 4);
           NodeExpr (ExprInt 0 5 4)] =
  Ok [NodeExpr
        (ExprBinop (ExprInt 0 1 2)
           (ExprBinop (ExprInt 0 3 3) (ExprInt 0 5 4) OpType.MULT ExprType.INT 0 4)
           OpType.ADD ExprType.INT 0 2)].
Proof.
  exact (proj1 (process_precedence (ExprInt 0 1 2) (ExprInt 0 3 3)
                  (ExprInt 0 5 4) (punct TokenType.PLUS 0 2)
                  (punct TokenType.STAR 0 4) OpType.ADD OpType.MULT
                  eq_refl eq_refl eq_refl eq_refl)).
Defined.

Lemma binop_pass_no_left ft fo ot oo token todo :
  folds ft ot (NodeToken token) = true ->
  binop_pass ft fo ot oo [] (NodeToken token :: todo) =
  throw BINOP_MISSING_EXPRESSION (Token.line token) (Token.column token).
Proof. simpl. intros ->. reflexivity. Qed.

Lemma binop_pass_no_right ft fo ot oo token done :
  folds ft ot (NodeToken token) = true ->
  binop_pass ft fo ot oo done [NodeToken token] =
  throw BINOP_MISSING_EXPRESSION (Token.line token) (Token.column token).
Proof.
  simpl. intros ->. destruct done as [|[| | | |lhs] done']; reflexivity.
Qed.

Lemma binop_pass_app ft fo ot oo pre :
  forall done todo,
    Forall (fun n => folds ft ot n = false) pre ->
    binop_pass ft fo ot oo done (pre ++ todo) =
    binop_pass ft fo ot oo (rev pre ++ done) todo.
Proof.
  induction pre as [|node pre IH]; intros done todo H; [reflexivity|].
  inversion H as [|? ? Hn Hp]; subst. cbn [app].
  rewrite (binop_pass_skip ft fo ot oo done node (pre ++ todo) Hn), (IH _ _ Hp).
  simpl. rewrite <- app_assoc. reflexivity.
Qed.

(** X13.  An operator needs an expression on both sides.  In a list that
    holds no other operator, an operator token at the head (so there is no
    unary minus) or at the end raises BinopMissingExpression at the
    position of that token. *)
Theorem process_operator_without_operand (token : Token.t) (others : NodeList) :
  is_operator (NodeToken token) = true ->
  Forall (fun n => is_operator n = false) others ->
  process (NodeToken token :: others) =
    throw BINOP_MISSING_EXPRESSION (Token.line token) (Token.column token) /\
  process (others ++ [NodeToken token]) =
    throw BINOP_MISSING_EXPRESSION (Token.line token) (Token.column token).
Proof.
  intros Hop Hoth. rewrite is_operator_folds in Hop.
  assert (H1 : Forall (fun n => folds TokenType.STAR TokenType.SLASH n = false)
                 others).
  { eapply Forall_impl; [|exact Hoth]. intros n Hn. cbv beta in Hn.
    rewrite is_operator_folds in Hn. apply orb_false_iff in Hn. apply Hn. }
  assert (H2 : Forall (fun n => folds TokenType.PLUS TokenType.DASH n = false)
                 others).
  { eapply Forall_impl; [|exact Hoth]. intros n Hn. cbv beta in Hn.
    rewrite is_operator_folds in Hn. apply orb_false_iff in Hn. apply Hn. }
  unfold process.
  destruct (folds TokenType.STAR TokenType.SLASH (NodeToken token)) eqn:F1.
  - split.
    + rewrite binop_pass_no_left by exact F1. reflexivity.
    + rewrite (binop_pass_app _ _ _ _ others [] _ H1).
      rewrite binop_pass_no_right by exact F1. reflexivity.
  - simpl in Hop. split.
    + rewrite (binop_pass_identity _ _ _ _ (NodeToken token :: others) []
                 (Forall_cons _ F1 H1)).
      cbn [bind rev app]. rewrite binop_pass_no_left by exact Hop. reflexivity.
    + assert (H1' : Forall (fun n => folds TokenType.STAR TokenType.SLASH n = false)
                      (others ++ [NodeToken token])).
      { apply Forall_app. split; [exact H1 | repeat constructor; exact F1]. }
      rewrite (binop_pass_identity _ _ _ _ _ [] H1'). cbn [bind rev app].
      rewrite (binop_pass_app _ _ _ _ others [] _ H2).
      rewrite binop_pass_no_right by exact Hop. reflexivity.
Qed.

Lemma process_operator_without_operand_witness :
  process [NodeToken (punct TokenType.DASH 0 1); NodeExpr (ExprInt 0 2 1)] =
  throw BINOP_MISSING_EXPRESSION 0 1.
Proof.
  refine (proj1 (process_operator_without_operand (punct TokenType.DASH 0 1)
                   [NodeExpr (ExprInt 0 2 1)] eq_refl _)).
  repeat constructor.
Defined.

(** ** Types of the tree *)

Lemma binop_pass_well_typed ft fo ot oo n :
  forall todo done out,
    (length todo <= n)%nat ->
    binop_pass ft fo ot oo done todo = Ok out ->
    Forall node_well_typed done -> Forall node_well_typed todo ->
    Forall node_well_typed out.
Proof.
  induction n as [|n IH]; intros todo done out Hn H Hd Ht.
  - destruct todo; [|simpl in Hn; lia]. injection H as <-.
    apply Forall_rev. exact Hd.
  - destruct todo as [|node todo].
    { injection H as <-. apply Forall_rev. exact Hd. }
    simpl in Hn. inversion Ht as [|? ? Rn Rt]; subst.
    destruct (folds ft ot node) eqn:F.
    + destruct node as [token| | | |]; try discriminate F.
      simpl in H. simpl in F. rewrite F in H.
      destruct done as [|[| | | |lhs] done']; try discriminate H.
      destruct todo as [|[| | | |rhs] todo']; try discriminate H.
      destruct (make_binop lhs rhs _ (Token.line token) (Token.column token))
        as [binop|e|] eqn:E; try discriminate H.
      cbn [bind] in H. inversion Hd; subst. inversion Rt; subst.
      apply (IH todo' (NodeExpr binop :: done') out); auto.
      * simpl in Hn. lia.
      * constructor; [|assumption].
        eapply make_binop_well_typed; eassumption.
    + rewrite (binop_pass_skip ft fo ot oo done node todo F) in H.
      apply (IH todo (node :: done) out); auto. lia.
Qed.

Lemma process_well_typed outputList out :
  process outputList = Ok out ->
  Forall node_well_typed outputList -> Forall node_well_typed out.
Proof.
  unfold process. intros H Hwt.
  destruct (binop_pass TokenType.STAR OpType.MULT TokenType.SLASH OpType.DIV
              [] outputList) as [mid|e|] eqn:E1; try discriminate H.
  cbn [bind] in H.
  eapply binop_pass_well_typed; [apply Nat.le_refl | exact H | constructor |].
  eapply binop_pass_well_typed; [apply Nat.le_refl | exact E1 | constructor |].
  exact Hwt.
Qed.

Lemma group_well_typed (group : NodeType.t) (nodeList : NodeList) :
  Forall node_well_typed nodeList ->
  node_well_typed (group_node group nodeList).
Proof.
  intros H.
  assert (G : (fix all (l : list Node) : Prop :=
                 match l with
                 | [] => True
                 | x :: l' => node_well_typed x /\ all l'
                 end) nodeList).
  { induction H; [exact I | split; assumption]. }
  destruct group; try exact G.
  simpl. destruct nodeList as [|[| | | |e] [|y l]]; try exact G.
  inversion H; subst. assumption.
Qed.

Lemma loop_well_typed fuel :
  forall front acc rest sv type out rest',
    condenseAST_loop fuel front acc rest sv type = Some (Ok (out, rest')) ->
    Forall node_well_typed acc -> Forall node_well_typed rest ->
    Forall node_well_typed out /\ Forall node_well_typed rest'.
Proof.
  induction fuel as [|fuel IH];
    intros front acc rest sv type out rest' H Ha Hr; [discriminate H|].
  assert (SP : forall sv acc rest,
             splice_process sv acc rest = Ok (out, rest') ->
             Forall node_well_typed acc -> Forall node_well_typed rest ->
             Forall node_well_typed out /\ Forall node_well_typed rest').
  { clear. intros sv acc rest H Ha Hr. unfold splice_process in H.
    destruct sv; [|discriminate H].
    destruct (process (rev acc)) as [o|e|] eqn:E; try discriminate H.
    injection H as <- <-. split; [|exact Hr].
    eapply process_well_typed; [exact E | apply Forall_rev; exact Ha]. }
  destruct rest as [|node rest1].
  - destruct type; cbn [condenseAST_loop] in H;
      apply (f_equal (fun o => match o with Some r => r | None => Undefined end))
        in H;
      try (eapply SP; eassumption);
      try (unfold missing_closing in H; destruct (acc ++ front); discriminate H).
    all: injection H as <- <-; split; constructor.
  - inversion Hr as [|? ? Hn Hr1]; subst.
    destruct (classify node) as [g|g|] eqn:Hcl.
    + rewrite (loop_opening _ _ _ _ _ _ _ _ Hcl) in H.
      destruct (condenseAST_loop fuel (node :: acc ++ front) [] rest1 true g)
        as [[[nodeList [|c rest'']]|e|]|] eqn:Ecallee; try discriminate H.
      destruct (IH _ _ _ _ _ _ _ Ecallee (Forall_nil _) Hr1) as [Wn Wc].
      inversion Wc; subst.
      eapply IH; [exact H | | assumption].
      constructor; [apply group_well_typed; exact Wn | exact Ha].
    + rewrite (loop_closing _ _ _ _ _ _ _ _ Hcl) in H.
      destruct (NodeType_eqb type g); [|discriminate H].
      apply (f_equal (fun o => match o with Some r => r | None => Undefined end))
        in H.
      eapply SP; eassumption.
    + rewrite (loop_plain _ _ _ _ _ _ _ Hcl) in H.
      eapply IH; [exact H | constructor; assumption | assumption].
Qed.

Lemma promote_all_well_typed tokenList :
  forall nodes tokens',
    promote_all tokenList = Ok (nodes, tokens') ->
    Forall node_well_typed nodes.
Proof.
  induction tokenList as [|token tokenList IH]; intros nodes tokens' H.
  - injection H as <- <-. constructor.
  - simpl in H.
    destruct (promote token) as [[node tok']|e|] eqn:E; try discriminate H.
    cbn [bind] in H.
    destruct (promote_all tokenList) as [[ns ts]|e|]; try discriminate H.
    injection H as <- <-. constructor; [|eapply IH; reflexivity].
    unfold promote in E.
    destruct (Token.type token), (Token.payload token);
      try discriminate E; injection E as <- _; exact I.
Qed.

(** X14.  The tree that [constructAST] returns is consistently typed, at
    every depth and inside every group: the two operands of each binop
    have the type of the binop, each cast is to a type other than that of
    its source, and no binop or cast is of the unknown type or casts from
    it. *)
Theorem constructAST_well_typed
  (tokenList tokenList' : TokenList) (outputList : NodeList) :
  constructAST tokenList = Ok (outputList, tokenList') ->
  Forall node_well_typed outputList.
Proof.
  unfold constructAST. intros H.
  destruct (promote_all tokenList) as [[nodes ts]|e|] eqn:E1; try discriminate H.
  cbn [bind fst snd] in H.
  destruct (condenseAST [] nodes NodeType.NONE) as [[out rest']|e|] eqn:E2;
    try discriminate H.
  injection H as <- _.
  pose proof (condenseAST_run [] nodes NodeType.NONE) as Hrun.
  rewrite E2 in Hrun.
  apply (loop_well_typed _ _ _ _ _ _ _ _ Hrun (Forall_nil _)).
  eapply promote_all_well_typed. exact E1.
Qed.

Lemma constructAST_well_typed_witness :
  Forall node_well_typed
    [NodeExpr
       (ExprBinop (ExprCast (ExprInt 0 1 3) ExprType.FLOAT)
          (ExprFloat 0 3 (float_of_int 2)) OpType.MULT ExprType.FLOAT 0 2)].
Proof.
  exact (constructAST_well_typed
           [int_token 0 1 3; punct TokenType.STAR 0 2;
            Token.mk TokenType.NUM_FLOAT 0 3 (PFloat (float_of_int 2))]
           _ _ eq_refl).
Defined.

(** ** Numbers *)

(** X15.  A text of decimal digits is read as the number it denotes,
    reduced to the 32-bit two's-complement range: the token becomes a
    NUM_INT at the same position.  A leading zero before another digit
    does not change the base. *)
Theorem parseNumber_decimal (line column : Z) (digits : list ascii) :
  digits <> [] ->
  forallb is_digit digits = true ->
  parseNumber (Token.mk TokenType.NUM_UNIDENTIFIED line column (PStr digits)) =
  Ok (0, Token.mk TokenType.NUM_INT line column
           (PInt (wrap_int_t (digits_value 10 digits)))).
Proof.
  intros Hne Hd.
  destruct (decimal_run digits Hne Hd) as (base & body & Pre & Run).
  unfold parseNumber. cbn [Token.type Token.payload Token.line Token.column].
  rewrite Pre, Run. reflexivity.
Qed.

Lemma parseNumber_decimal_witness :
  parseNumber
    (Token.mk TokenType.NUM_UNIDENTIFIED 0 4
       (PStr (list_ascii_of_string "4294967298"))) =
  Ok (0, int_token 0 4 2).
Proof.
  exact (parseNumber_decimal 0 4 (list_ascii_of_string "4294967298")
           ltac:(discriminate) eq_refl).
Defined.

(** X16.  After a leading zero the letters x, b and d select base 16, 2
    and 10 for the digits that follow, and a letter digit counts in either
    case; the prefix alone, with no digit after it, is the number 0. *)
Theorem parseNumber_prefixed
  (line column : Z) (t : ascii) (base : Z) (digits : list ascii) :
  prefix_base t = Some base ->
  forallb (digit_below base) digits = true ->
  parseNumber
    (Token.mk TokenType.NUM_UNIDENTIFIED line column
       (PStr ("0"%char :: t :: digits))) =
  Ok (0, Token.mk TokenType.NUM_INT line column
           (PInt (wrap_int_t (digits_value base digits)))).
Proof.
  intros Ht Hd. unfold prefix_base in Ht.
  pose proof (parse_digits_run base digits 0 Hd) as Run.
  change (wrap_int_t 0) with 0 in Run.
  unfold parseNumber, number_prefix.
  cbn [Token.type Token.payload Token.line Token.column nth skipn].
  change ("0" =? NUL)%char with false. change ("0" =? "0")%char with true.
  cbv iota.
  destruct (Ascii.eqb_spec t "x") as [->|_];
    [|destruct (Ascii.eqb_spec t "b") as [->|_];
      [|destruct (Ascii.eqb_spec t "d") as [->|_]; [|discriminate Ht]]];
    injection Ht as <-; cbn -[parse_digits digits_value wrap_int_t];
    rewrite Run; reflexivity.
Qed.

Lemma parseNumber_prefixed_witness :
  parseNumber
    (Token.mk TokenType.NUM_UNIDENTIFIED 0 3
       (PStr (list_ascii_of_string "0xfF"))) =
  Ok (0, int_token 0 3 255).
Proof.
  exact (parseNumber_prefixed 0 3 "x" 16 (list_ascii_of_string "fF")
           eq_refl eq_refl).
Defined.

Lemma parse_digits_float_iff base str :
  forall value p,
    parse_digits base value str = Some p ->
    ((exists float_, p = PFloat float_) <-> In "."%char (before_nul str)) /\
    ((exists int_, p = PInt int_) <-> ~ In "."%char (before_nul str)).
Proof.
  induction str as [|c str IH]; intros value p H.
  - injection H as <-. simpl. split; split.
    + intros [f F]; discriminate F.
    + intros [].
    + intros _ [].
    + intros _. eexists; reflexivity.
  - cbn [parse_digits before_nul] in *.
    destruct (c =? NUL)%char eqn:N.
    { injection H as <-. simpl. split; split.
      - intros [f F]; discriminate F.
      - intros [].
      - intros _ [].
      - intros _. eexists; reflexivity. }
    destruct (Ascii.eqb_spec c ".") as [->|P].
    { destruct (parse_fraction base _ _ str) as [f|]; [|discriminate H].
      injection H as <-. split; split.
      - intros _. left. reflexivity.
      - intros _. eexists; reflexivity.
      - intros [i F]; discriminate F.
      - intros F. contradiction F. left. reflexivity. }
    destruct (digit_value c) as [d|]; [|discriminate H].
    destruct (d >=? base); [discriminate H|].
    destruct (IH _ _ H) as [F I]. split.
    + rewrite F. simpl. split; [tauto | intros [E|E]; [contradiction P; auto | exact E]].
    + rewrite I. simpl. split; [intros G [E|E]; [apply P; auto | tauto] | tauto].
Qed.

Lemma number_prefix_point str base body :
  number_prefix str = Some (base, body) ->
  (In "."%char (before_nul str) <-> In "."%char (before_nul body)).
Proof.
  assert (Skip : forall c l, c <> "."%char ->
            (In "."%char (c :: l) <-> In "."%char l)).
  { intros c l Hc. simpl. split; [intros [E|E]; [contradiction | exact E] | tauto]. }
  unfold number_prefix. destruct str as [|c0 str]; [discriminate|].
  change (nth 0 (c0 :: str) NUL) with c0.
  change (nth 1 (c0 :: str) NUL) with (nth 0 str NUL).
  destruct (c0 =? NUL)%char eqn:N0; [discriminate|].
  destruct (Ascii.eqb_spec c0 "0") as [->|_].
  2:{ intros H; injection H as <- <-. tauto. }
  change (before_nul ("0"%char :: str)) with ("0"%char :: before_nul str).
  rewrite Skip by discriminate.
  destruct str as [|c1 str].
  { cbn. intros H; injection H as <- <-. simpl. tauto. }
  change (nth 0 (c1 :: str) NUL) with c1.
  change (skipn 2 ("0"%char :: c1 :: str)) with str.
  change (skipn 1 ("0"%char :: c1 :: str)) with (c1 :: str).
  destruct ((code c1 <? code "0") || (code c1 >? code "9")).
  2:{ intros H; injection H as <- <-.
      change (before_nul ("0"%char :: c1 :: str))
        with ("0"%char :: before_nul (c1 :: str)).
      rewrite Skip by discriminate. tauto. }
  assert (Drop : c1 <> NUL -> c1 <> "."%char ->
            (In "."%char (before_nul (c1 :: str)) <->
             In "."%char (before_nul str))).
  { intros Hn Hp. cbn [before_nul].
    destruct (Ascii.eqb_spec c1 NUL); [contradiction|]. apply Skip. exact Hp. }
  destruct (Ascii.eqb_spec c1 "x") as [->|_].
  { intros H; injection H as <- <-. apply Drop; discriminate. }
  destruct (Ascii.eqb_spec c1 "b") as [->|_].
  { intros H; injection H as <- <-. apply Drop; discriminate. }
  destruct (Ascii.eqb_spec c1 ".") as [->|_].
  { intros H; injection H as <- <-. tauto. }
  destruct (Ascii.eqb_spec c1 NUL) as [->|_].
  { intros H; injection H as <- <-. tauto. }
  cbn [orb].
  destruct (Ascii.eqb_spec c1 "d") as [->|_]; [|discriminate].
  intros H; injection H as <- <-. apply Drop; discriminate.
Qed.

(** X17.  [parseNumber] raises no exception.  When it returns 1 the token
    is as it was.  When it returns 0 the token keeps its position and has
    become either a NUM_INT that holds an integer or a NUM_FLOAT that
    holds a float, and it is the NUM_FLOAT exactly when the text has a
    decimal point. *)
Theorem parseNumber_result (token : Token.t) (str : list ascii) :
  Token.payload token = PStr str ->
  exists status token',
    parseNumber token = Ok (status, token') /\
    ((status = 1 /\ token' = token) \/
     (status = 0 /\
      Token.type token = TokenType.NUM_UNIDENTIFIED /\
      Token.line token' = Token.line token /\
      Token.column token' = Token.column token /\
      ((In "."%char (before_nul str) /\
        Token.type token' = TokenType.NUM_FLOAT /\
        exists float_, Token.payload token' = PFloat float_) \/
       (~ In "."%char (before_nul str) /\
        Token.type token' = TokenType.NUM_INT /\
        exists int_, Token.payload token' = PInt int_)))).
Proof.
  intros Hp. unfold parseNumber. rewrite Hp.
  destruct (Token.type token) eqn:Ty;
    try (exists 1, token; split; [reflexivity | left; split; reflexivity]).
  destruct (number_prefix str) as [[base body]|] eqn:Pre;
    [|exists 1, token; split; [reflexivity | left; split; reflexivity]].
  destruct (parse_digits base 0 body) as [p|] eqn:Dig;
    [|exists 1, token; split; [reflexivity | left; split; reflexivity]].
  destruct (parse_digits_float_iff base body 0 p Dig) as [F I].
  rewrite <- (number_prefix_point str base body Pre) in F, I.
  destruct p as [|s|i|f].
  - destruct (proj2 I) as [i E]; [|discriminate E].
    intros Hin. apply F in Hin. destruct Hin as [f E]. discriminate E.
  - destruct (proj2 I) as [i E]; [|discriminate E].
    intros Hin. apply F in Hin. destruct Hin as [f E]. discriminate E.
  - eexists 0, _. split; [reflexivity|]. right.
    repeat split. right. repeat split.
    + apply I. eexists; reflexivity.
    + eexists; reflexivity.
  - eexists 0, _. split; [reflexivity|]. right.
    repeat split. left. repeat split.
    + apply F. eexists; reflexivity.
    + eexists; reflexivity.
Qed.

Lemma parseNumber_result_witness :
  exists status token',
    parseNumber
      (Token.mk TokenType.NUM_UNIDENTIFIED 0 2
         (PStr (list_ascii_of_string "0.5"))) = Ok (status, token') /\
    ((status = 1 /\
      token' = Token.mk TokenType.NUM_UNIDENTIFIED 0 2
                 (PStr (list_ascii_of_string "0.5"))) \/
     (status = 0 /\
      TokenType.NUM_UNIDENTIFIED = TokenType.NUM_UNIDENTIFIED /\
      Token.line token' = 0 /\
      Token.column token' = 2 /\
      ((In "."%char (before_nul (list_ascii_of_string "0.5")) /\
        Token.type token' = TokenType.NUM_FLOAT /\
        exists float_, Token.payload token' = PFloat float_) \/
       (~ In "."%char (before_nul (list_ascii_of_string "0.5")) /\
        Token.type token' = TokenType.NUM_INT /\
        exists int_, Token.payload token' = PInt int_)))).
Proof.
  exact (parseNumber_result
           (Token.mk TokenType.NUM_UNIDENTIFIED 0 2
              (PStr (list_ascii_of_string "0.5")))
           (list_ascii_of_string "0.5") eq_refl).
Defined.

(** ** Tokens of the tokenizer *)

Lemma parseNumber_cases (line column : Z) (str : list ascii) :
  let token := Token.mk TokenType.NUM_UNIDENTIFIED line column (PStr str) in
  parseNumber token = Ok (1, token) \/
  exists token',
    parseNumber token = Ok (0, token') /\ well_formed token' /\
    Token.line token' = line /\ Token.column token' = column.
Proof.
  unfold parseNumber. cbn [Token.type Token.payload Token.line Token.column].
  destruct (number_prefix str) as [[base body]|]; [|left; reflexivity].
  destruct (parse_digits base 0 body) as [p|] eqn:D; [|left; reflexivity].
  destruct (parse_digits_float_iff base body 0 p D) as [F I].
  destruct p as [|s|i|f].
  - exfalso. destruct (proj2 I) as [i E]; [|discriminate E].
    intros Hin. apply F in Hin. destruct Hin as [f E]. discriminate E.
  - exfalso. destruct (proj2 I) as [i E]; [|discriminate E].
    intros Hin. apply F in Hin. destruct Hin as [f E]. discriminate E.
  - right. eexists. split; [reflexivity|]. repeat split. exists i. reflexivity.
  - right. eexists. split; [reflexivity|]. repeat split. exists f. reflexivity.
Qed.

Lemma find_token1_range c table :
  forall i,
    find_token1 i c table = -1 \/
    i + firstToken1 <= find_token1 i c table
      < i + firstToken1 + Z.of_nat (length table).
Proof.
  induction table as [|t table IH]; intros i; [left; reflexivity|].
  cbn [find_token1 length]. destruct (c =? t)%char.
  - right. lia.
  - destruct (IH (i + 1)) as [H|H]; [left; exact H | right; lia].
Qed.

Lemma find_token2_range token1Index c table :
  forall i,
    find_token2 i token1Index c table = -1 \/
    i + firstToken2 <= find_token2 i token1Index c table
      < i + firstToken2 + Z.of_nat (length table).
Proof.
  induction table as [|[first second] table IH]; intros i; [left; reflexivity|].
  cbn [find_token2 length].
  destruct ((c =? second)%char && (token1Index =? TokenType.to_int first)).
  - right. lia.
  - destruct (IH (i + 1)) as [H|H]; [left; exact H | right; lia].
Qed.

Lemma stringMatchAt_range match_ strings :
  forall i,
    stringMatchAt_from i match_ strings = -1 \/
    i <= stringMatchAt_from i match_ strings < i + Z.of_nat (length strings).
Proof.
  induction strings as [|s strings IH]; intros i; [left; reflexivity|].
  cbn [stringMatchAt_from length]. destruct (list_eq_dec ascii_dec match_ s).
  - right. lia.
  - destruct (IH (i + 1)) as [H|H]; [left; exact H | right; lia].
Qed.

(** The enumerators from TILDE to FALSE are those of the three tables;
    none of them carries a union member. *)
Lemma table_token_well_formed (index line column : Z) :
  TokenType.to_int TokenType.TILDE <= index <= TokenType.to_int TokenType.FALSE ->
  well_formed (Token.mk (TokenType.of_int index) line column NoPayload).
Proof.
  intros H. unfold TokenType.of_int.
  change (TokenType.to_int TokenType.TILDE) with 3 in H.
  change (TokenType.to_int TokenType.FALSE) with 61 in H.
  assert (Hn : (3 <= Z.to_nat index <= 61)%nat) by lia.
  clear H. revert Hn. generalize (Z.to_nat index). intros n Hn.
  do 62 (destruct n as [|n]; [first [exfalso; lia | reflexivity]|]).
  exfalso. lia.
Qed.

Lemma find_token1_pending (c : ascii) :
  token1_pending (find_token1 0 c token1s).
Proof.
  unfold token1_pending.
  destruct (find_token1_range c token1s 0) as [H|H]; [left; exact H | right; lia].
Qed.

Lemma end_of_token_tokens (st st' : L.state) :
  token1_pending (L.token1Index st) ->
  end_of_token st = Ok st' ->
  token1_pending (L.token1Index st') /\
  exists new, L.tokenList st' = L.tokenList st ++ new /\ Forall well_formed new.
Proof.
  intros Hp H. open_state st. unfold end_of_token in H.
  match type of H with
  | bind ?m _ = _ => destruct m as [[str' tokenList']|e|] eqn:R; try discriminate H
  end.
  cbn [bind] in H.
  assert (T : exists new, tokenList' = tokenList ++ new /\ Forall well_formed new).
  { clear H. destruct (strlen =? 0)%nat.
    { injection R as <- <-. exists []. rewrite app_nil_r. split; constructor. }
    destruct (buf_write strlen NUL str) as [b|e|]; try discriminate R.
    cbn [bind] in R. destruct (c_str b) as [s|e|]; try discriminate R.
    cbn [bind] in R. destruct isNumber.
    - destruct (parseNumber_cases line column s) as [E|(token' & E & W & _)];
        cbv zeta in E; rewrite E in R; cbn [bind fst snd] in R.
      + discriminate R.
      + injection R as <- <-. exists [token']. split; [reflexivity|].
        constructor; [exact W | constructor].
    - unfold stringMatchAt in R.
      pose proof (stringMatchAt_range s keywords 0) as K.
      change (Z.of_nat (length keywords)) with 14 in K.
      remember (stringMatchAt_from 0 s keywords) as keyword eqn:Ek. clear Ek.
      destruct (0 <=? keyword) eqn:P;
        injection R as <- <-; eexists; (split; [reflexivity|]);
        (constructor; [|constructor]).
      + apply Z.leb_le in P. apply table_token_well_formed.
        change firstKeyword with 48.
        change (TokenType.to_int TokenType.TILDE) with 3.
        change (TokenType.to_int TokenType.FALSE) with 61. lia.
      + eexists. reflexivity. }
  destruct (c =? DQUOTE)%char; [injection H as <-; split; assumption|].
  destruct (is_digit c).
  - destruct (buf_write 0 c str') as [b|e|]; try discriminate H.
    injection H as <-. split; assumption.
  - injection H as <-. split; assumption.
Qed.

Lemma token_processing_tokens (end_ : bool) (st st' : L.state) :
  token1_pending (L.token1Index st) ->
  token_processing end_ st = Ok st' ->
  token1_pending (L.token1Index st') /\
  exists new, L.tokenList st' = L.tokenList st ++ new /\ Forall well_formed new.
Proof.
  intros Hp H. open_state st. unfold token_processing in H.
  unfold token1_pending in Hp.
  change (Z.of_nat (length token1s)) with 32 in Hp.
  change firstToken1 with 3 in Hp.
  destruct (0 <=? token1Index) eqn:P1.
  - apply Z.leb_le in P1.
    pose proof (find_token2_range token1Index c token2s 0) as F.
    change (Z.of_nat (length token2s)) with 13 in F.
    change firstToken2 with 35 in F.
    remember (find_token2 0 token1Index c token2s) as token2Index eqn:E2.
    clear E2.
    destruct (0 <=? token2Index) eqn:P2; cbn [andb] in H.
    + apply Z.leb_le in P2.
      destruct (token2Index =? TokenType.to_int TokenType.SLASH_STAR).
      * injection H as <-. cbn [L.token1Index L.tokenList].
        split; [left; reflexivity|]. exists []. rewrite app_nil_r.
        split; constructor.
      * injection H as <-. cbn [L.token1Index L.tokenList].
        split; [left; reflexivity|]. eexists. split; [reflexivity|].
        constructor; [|constructor]. apply table_token_well_formed.
        change (TokenType.to_int TokenType.TILDE) with 3.
        change (TokenType.to_int TokenType.FALSE) with 61. lia.
    + match type of H with
      | (if ?b then _ else _) = _ => destruct b
      end.
      * apply end_of_token_tokens in H;
          [|apply find_token1_pending].
        destruct H as [Hp' (new & E & W)]. split; [exact Hp'|].
        cbn [L.tokenList] in *. rewrite E, <- app_assoc. eexists.
        split; [reflexivity|]. constructor; [|exact W].
        apply table_token_well_formed.
        change (TokenType.to_int TokenType.TILDE) with 3.
        change (TokenType.to_int TokenType.FALSE) with 61.
        destruct Hp as [Hp|Hp]; lia.
      * destruct (MAX_STR_SIZE <=? strlen)%nat; [discriminate H|].
        destruct (buf_write strlen c str) as [b|e|]; try discriminate H.
        injection H as <-. cbn [L.token1Index L.tokenList].
        split; [apply find_token1_pending|].
        eexists. split; [reflexivity|]. constructor; [|constructor].
        apply table_token_well_formed.
        change (TokenType.to_int TokenType.TILDE) with 3.
        change (TokenType.to_int TokenType.FALSE) with 61.
        destruct Hp as [Hp|Hp]; lia.
  - cbn [andb] in H.
    match type of H with
    | (if ?b then _ else _) = _ => destruct b
    end.
    + apply end_of_token_tokens in H; [exact H | apply find_token1_pending].
    + destruct (MAX_STR_SIZE <=? strlen)%nat; [discriminate H|].
      destruct (buf_write strlen c str) as [b|e|]; try discriminate H.
      injection H as <-. cbn [L.token1Index L.tokenList].
      split; [apply find_token1_pending|].
      exists []. rewrite app_nil_r. split; constructor.
Qed.

Lemma string_mode_tokens (st st' : L.state) :
  token1_pending (L.token1Index st) ->
  string_mode st = Ok st' ->
  token1_pending (L.token1Index st') /\
  exists new, L.tokenList st' = L.tokenList st ++ new /\ Forall well_formed new.
Proof.
  intros Hp H. open_state st. unfold string_mode in H.
  assert (Same : forall ch line' isEscaped',
            (if (MAX_STR_SIZE <=? strlen)%nat
             then throw STRING_TOO_LONG line' column
             else
               str0 <- buf_write strlen ch str ;;
               Ok (L.mk str0 (S strlen) ch line' column isComment
                        isBlockComment isStr isEscaped' isNumber hasDecimal
                        token1Index tokenList)) = Ok st' ->
            token1_pending (L.token1Index st') /\
            exists new, L.tokenList st' = tokenList ++ new /\
                        Forall well_formed new).
  { intros ch line' isEscaped' E.
    destruct (MAX_STR_SIZE <=? strlen)%nat; [discriminate E|].
    destruct (buf_write strlen ch str) as [b|e|]; try discriminate E.
    injection E as <-. split; [exact Hp|].
    exists []. rewrite app_nil_r. split; constructor. }
  destruct isEscaped.
  - repeat match type of H with
           | (if (c =? ?x)%char then _ else _) = _ => destruct (c =? x)%char
           end; eapply Same; exact H.
  - destruct (c =? DQUOTE)%char.
    + destruct (buf_write strlen NUL str) as [b|e|]; try discriminate H.
      cbn [bind] in H. destruct (c_str b) as [s|e|]; try discriminate H.
      injection H as <-. split; [left; reflexivity|].
      eexists. split; [reflexivity|]. constructor; [|constructor].
      eexists. reflexivity.
    + destruct (c =? BACKSLASH)%char.
      * injection H as <-. split; [exact Hp|].
        exists []. rewrite app_nil_r. split; constructor.
      * eapply Same; exact H.
Qed.

Lemma iteration_tokens (end_ : bool) (st st' : L.state) :
  token1_pending (L.token1Index st) ->
  iteration end_ st = Ok st' ->
  token1_pending (L.token1Index st') /\
  exists new, L.tokenList st' = L.tokenList st ++ new /\ Forall well_formed new.
Proof.
  intros Hp H.
  assert (Same : forall s, L.token1Index s = L.token1Index st ->
                   L.tokenList s = L.tokenList st ->
                   token1_pending (L.token1Index s) /\
                   exists new, L.tokenList s = L.tokenList st ++ new /\
                               Forall well_formed new).
  { intros s E1 E2. rewrite E1, E2. split; [exact Hp|].
    exists []. rewrite app_nil_r. split; constructor. }
  unfold iteration in H. destruct st as [str strlen c line column isComment
    isBlockComment isStr isEscaped isNumber hasDecimal token1Index tokenList].
  destruct isStr; [apply string_mode_tokens in H; assumption|].
  destruct isBlockComment.
  { repeat match type of H with
           | (if ?b then _ else _) = _ => destruct b
           end; injection H as <-; apply Same; reflexivity. }
  destruct isComment.
  { destruct (c =? NEWLINE)%char; injection H as <-; apply Same; reflexivity. }
  destruct isNumber; [|apply token_processing_tokens in H; assumption].
  unfold number_mode in H.
  match type of H with
  | bind (bind ?m _) _ = _ => destruct m as [str0|e|]; try discriminate H
  end.
  cbn [bind] in H.
  repeat match type of H with
         | bind (if ?b then _ else _) _ = _ => destruct b
         end;
    try (destruct (buf_write strlen c str) as [b|e|]; try discriminate H;
         injection H as <-; apply Same; reflexivity).
  cbn [bind] in H. apply token_processing_tokens in H; assumption.
Qed.

Lemma advance_get_tokens (ch : ascii) (st : L.state) :
  L.token1Index (get ch (advance st)) = L.token1Index st /\
  L.tokenList (get ch (advance st)) = L.tokenList st /\
  L.token1Index (advance st) = L.token1Index st /\
  L.tokenList (advance st) = L.tokenList st.
Proof.
  destruct st. unfold advance, get.
  destruct (c =? NEWLINE)%char; repeat split; reflexivity.
Qed.

Lemma feed_tokens (file : list ascii) :
  forall st st',
    token1_pending (L.token1Index st) ->
    feed file st = Ok st' ->
    token1_pending (L.token1Index st') /\
    exists new, L.tokenList st' = L.tokenList st ++ new /\ Forall well_formed new.
Proof.
  induction file as [|ch file IH]; intros st st' Hp H.
  - injection H as <-. split; [exact Hp|].
    exists []. rewrite app_nil_r. split; constructor.
  - cbn [feed] in H.
    destruct (iteration false (get ch (advance st))) as [st1|e|] eqn:E;
      try discriminate H.
    cbn [bind] in H.
    destruct (advance_get_tokens ch st) as (A1 & A2 & _).
    apply iteration_tokens in E; [|rewrite A1; exact Hp].
    destruct E as (P1 & new1 & E1 & W1). rewrite A2 in E1.
    destruct (IH st1 st' P1 H) as (P2 & new2 & E2 & W2).
    split; [exact P2|]. exists (new1 ++ new2).
    rewrite E2, E1, app_assoc. split; [reflexivity|].
    apply Forall_app. split; assumption.
Qed.

Lemma tokenize_loop_tokens (file : list ascii) (st st' : L.state) :
  token1_pending (L.token1Index st) ->
  tokenize_loop file st = Ok st' ->
  exists new, L.tokenList st' = L.tokenList st ++ new /\ Forall well_formed new.
Proof.
  intros Hp H.
  rewrite <- (app_nil_r file), tokenize_loop_feed in H.
  destruct (feed file st) as [st1|e|] eqn:E; try discriminate H.
  cbn [bind tokenize_loop] in H.
  destruct (feed_tokens file st st1 Hp E) as (P1 & new1 & E1 & W1).
  destruct (advance_get_tokens NUL st1) as (_ & _ & A1 & A2).
  apply iteration_tokens in H; [|rewrite A1; exact P1].
  destruct H as (_ & new2 & E2 & W2). rewrite A2 in E2.
  exists (new1 ++ new2). rewrite E2, E1, app_assoc. split; [reflexivity|].
  apply Forall_app. split; assumption.
Qed.

Lemma promote_all_well_formed (tokenList : TokenList) :
  Forall well_formed tokenList ->
  exists nodes tokenList',
    promote_all tokenList = Ok (nodes, tokenList') /\
    length nodes = length tokenList.
Proof.
  induction 1 as [|token tokenList W _ (nodes & tokenList' & E & L)].
  - exists [], []. split; reflexivity.
  - assert (P : exists node token', promote token = Ok (node, token')).
    { unfold well_formed in W. unfold promote.
      destruct (Token.type token);
        try (eexists _, _; reflexivity);
        destruct W as [v ->]; eexists _, _; reflexivity. }
    destruct P as (node & token' & P).
    exists (node :: nodes), (token' :: tokenList').
    cbn [promote_all]. rewrite P. cbn [bind]. rewrite E. cbn [bind fst snd length].
    split; [reflexivity | rewrite L; reflexivity].
Qed.

(** X18.  Every token that [tokenize] leaves in the list is well formed:
    NUM_INT holds an integer, NUM_FLOAT a float, IDENTIFIER and STRING a
    text, every other token nothing, and no NUM_UNIDENTIFIED is left.  So
    the first pass of [constructAST] turns the whole list into nodes, one
    for each token: its exception UNKNOWN for an identifier without text
    is not raised on the output of the tokenizer. *)
Theorem tokenize_well_formed (file : list ascii) (tokenList : TokenList) :
  tokenize file = Ok tokenList ->
  Forall well_formed tokenList /\
  exists nodes tokenList',
    promote_all tokenList = Ok (nodes, tokenList') /\
    length nodes = length tokenList.
Proof.
  unfold tokenize. intros H.
  destruct (tokenize_loop file L.init) as [st|e|] eqn:E; try discriminate H.
  injection H as <-.
  destruct (tokenize_loop_tokens file L.init st (or_introl eq_refl) E)
    as (new & En & W).
  assert (Wt : Forall well_formed (L.tokenList st)) by (rewrite En; exact W).
  split; [exact Wt | apply promote_all_well_formed; exact Wt].
Qed.

Lemma tokenize_well_formed_witness :
  Forall well_formed
    [Token.mk TokenType.IDENTIFIER 0 1 (PStr ["a"%char]);
     punct TokenType.PLUS_EQUALS 0 2;
     Token.mk TokenType.NUM_FLOAT 0 6
       (PFloat (float_add (float_of_int 1)
                  (float_div (float_of_int 5)
                     (float_mul (float_of_int 1) (float_of_int 10)))))].
Proof.
  exact (proj1 (tokenize_well_formed (src "a+=1.5") _ eq_refl)).
Defined.

(** X19.  The tokenizer only appends.  The tokens it has emitted when it
    has read a part of the file are the front of the list it returns for
    the whole file, unchanged; and an exception raised in that part is
    the outcome for the whole file. *)
Theorem tokenize_appends (read unread : list ascii) :
  (forall tokenList,
     tokenize (read ++ unread) = Ok tokenList ->
     exists st more,
       feed read L.init = Ok st /\
       tokenList = L.tokenList st ++ more /\ Forall well_formed more) /\
  (forall e, feed read L.init = Throw e ->
             tokenize (read ++ unread) = Throw e).
Proof.
  unfold tokenize. rewrite tokenize_loop_feed. split.
  - intros tokenList H.
    destruct (feed read L.init) as [st|e|] eqn:E; try discriminate H.
    cbn [bind] in H.
    destruct (tokenize_loop unread st) as [st'|e|] eqn:E'; try discriminate H.
    injection H as <-.
    destruct (feed_tokens read L.init st (or_introl eq_refl) E) as (P & _).
    destruct (tokenize_loop_tokens unread st st' P E') as (more & Em & W).
    exists st, more. repeat split; assumption.
  - intros e E. rewrite E. reflexivity.
Qed.

Lemma tokenize_appends_witness :
  exists st more,
    feed (src "1 ") L.init = Ok st /\
    [int_token 0 1 1; int_token 0 3 2] = L.tokenList st ++ more /\
    Forall well_formed more.
Proof.
  exact (proj1 (tokenize_appends (src "1 ") (src "2")) _ eq_refl).
Defined.

(** ** Whole files *)

Lemma blank_facts (c : ascii) :
  blank c = true ->
  find_token1 0 c token1s = -1 /\ (c =? DQUOTE)%char = false /\
  is_digit c = false.
Proof.
  unfold blank. intros H. apply orb_true_iff in H. destruct H as [H|H].
  - apply orb_true_iff in H.
    destruct H as [H|H]; apply Ascii.eqb_eq in H; subst c;
      repeat split; reflexivity.
  - apply Ascii.eqb_eq in H. subst c. repeat split; reflexivity.
Qed.

Lemma blank_step (st : L.state) (ch : ascii) (toks : TokenList) :
  between_tokens toks st -> blank ch = true ->
  exists st', iteration false (get ch (advance st)) = Ok st' /\
              between_tokens toks st'.
Proof.
  intros (Hs & Hb & Hc & Hn & Hl & Ht & Hk) Hch. open_state st.
  destruct (blank_facts ch Hch) as (F & Q & D).
  unfold advance, get. destruct (c =? NEWLINE)%char;
    unfold iteration, token_processing;
    change (0 <=? -1) with false; cbn [andb];
    rewrite F; change (0 <=? -1) with false;
    unfold blank in Hch; cbn [orb];
    rewrite D in *; cbn [orb]; rewrite orb_false_r, Hch;
    unfold end_of_token; cbn [Nat.eqb bind]; rewrite Q, D;
    eexists; (split; [reflexivity|]); repeat split.
Qed.

Lemma blank_feed (file : list ascii) :
  forall st toks,
    between_tokens toks st -> forallb blank file = true ->
    exists st', feed file st = Ok st' /\ between_tokens toks st'.
Proof.
  induction file as [|ch file IH]; intros st toks Hst Hb.
  - exists st. split; [reflexivity | exact Hst].
  - cbn [forallb] in Hb. apply andb_prop in Hb. destruct Hb as [Hch Hb].
    destruct (blank_step st ch toks Hst Hch) as (st1 & E1 & H1).
    destruct (IH st1 toks H1 Hb) as (st2 & E2 & H2).
    exists st2. cbn [feed]. rewrite E1. cbn [bind]. split; assumption.
Qed.

Lemma between_tokens_end (st : L.state) (toks : TokenList) :
  between_tokens toks st ->
  exists st', tokenize_loop [] st = Ok st' /\ L.tokenList st' = toks.
Proof.
  intros (Hs & Hb & Hc & Hn & Hl & Ht & Hk). open_state st.
  cbn [tokenize_loop]. unfold advance.
  destruct (c =? NEWLINE)%char;
    unfold iteration, token_processing;
    change (0 <=? -1) with false; cbn [andb];
    rewrite !orb_true_r; unfold end_of_token; cbn [Nat.eqb bind];
    destruct (c =? DQUOTE)%char; try (eexists; split; reflexivity);
    destruct (is_digit c); eexists; split; reflexivity.
Qed.

(** X20.  A file of spaces, tabs and newlines, or of nothing at all,
    gives no token and an empty tree; [makeBytecode] then reads the first
    node of an empty list, so that the compilation of such a file has no
    defined outcome. *)
Theorem compile_blank_file (T : Target) (file : list ascii) :
  forallb blank file = true ->
  tokenize file = Ok [] /\
  constructAST [] = Ok ([], []) /\
  (forall outputFile, makeBytecode T [] outputFile = Undefined) /\
  compile_ T file = Undefined.
Proof.
  intros Hb.
  assert (Ht : tokenize file = Ok []).
  { assert (H0 : between_tokens [] L.init) by (repeat split).
    destruct (blank_feed file L.init [] H0 Hb) as (st1 & E1 & H1).
    destruct (between_tokens_end st1 [] H1) as (st2 & E2 & H2).
    unfold tokenize. rewrite <- (app_nil_r file), tokenize_loop_feed, E1.
    cbn [bind]. rewrite E2. cbn [bind]. rewrite H2. reflexivity. }
  repeat split.
  - exact Ht.
  - unfold compile_. rewrite Ht. reflexivity.
Qed.

Lemma compile_blank_file_witness :
  compile_ example_target [SPACE; NEWLINE; TAB] = Undefined.
Proof.
  exact (proj2 (proj2 (proj2
           (compile_blank_file example_target [SPACE; NEWLINE; TAB] eq_refl)))).
Defined.

Lemma doubled_facts (op : ascii) (type : TokenType.t) :
  doubled op = Some type ->
  0 <= find_token1 0 op token1s /\
  find_token2 0 (find_token1 0 op token1s) op token2s = TokenType.to_int type /\
  type <> TokenType.SLASH_STAR /\ op <> NEWLINE.
Proof.
  unfold doubled.
  destruct (Ascii.eqb_spec op "+") as [->|_];
    [|destruct (Ascii.eqb_spec op "-") as [->|_];
      [|destruct (Ascii.eqb_spec op "=") as [->|_];
        [|destruct (Ascii.eqb_spec op "/") as [->|_]; [|discriminate]]]];
    intros H; injection H as <-; repeat split; try discriminate;
    vm_compute; discriminate.
Qed.

Lemma doubled_read (st : L.state) (op : ascii) (type : TokenType.t) :
  between_tokens (L.tokenList st) st ->
  doubled op = Some type ->
  exists st',
    iteration false (get op (advance st)) = Ok st' /\
    L.isStr st' = false /\ L.isBlockComment st' = false /\
    L.isComment st' = false /\ L.isNumber st' = false /\
    L.token1Index st' = find_token1 0 op token1s /\
    L.tokenList st' = L.tokenList st /\ L.c st' = op.
Proof.
  intros (Hs & Hb & Hc & Hn & Hl & Ht & _) Hd.
  destruct (doubled_facts op type Hd) as (T1 & _ & _ & _).
  apply Z.leb_le in T1. open_state st.
  assert (Hq : (op =? DQUOTE)%char = false).
  { destruct (Ascii.eqb_spec op DQUOTE) as [->|]; [discriminate Hd | reflexivity]. }
  assert (Hg : is_digit op = false).
  { revert Hd. unfold doubled.
    destruct (Ascii.eqb_spec op "+") as [->|_]; [reflexivity|].
    destruct (Ascii.eqb_spec op "-") as [->|_]; [reflexivity|].
    destruct (Ascii.eqb_spec op "=") as [->|_]; [reflexivity|].
    destruct (Ascii.eqb_spec op "/") as [->|_]; [reflexivity | discriminate]. }
  unfold advance, get.
  destruct (c =? NEWLINE)%char;
    unfold iteration, token_processing;
    change (0 <=? -1) with false; cbn [andb];
    rewrite T1; cbn [orb]; unfold end_of_token; cbn [Nat.eqb bind];
    rewrite Hq, Hg; eexists; (split; [reflexivity|]); repeat split.
Qed.

(** X21.  The last character of a file is seen twice: when the end of the
    file is reached the body of the loop runs once more with the character
    it has read last.  So a +, -, = or / that ends the file, read when
    nothing is pending, gives one token, and it is the doubled one: ++,
    --, == or //. *)
Theorem last_operator_is_doubled
  (read : list ascii) (st : L.state) (op : ascii) (type : TokenType.t) :
  feed read L.init = Ok st ->
  between_tokens (L.tokenList st) st ->
  doubled op = Some type ->
  exists line column,
    tokenize (read ++ [op]) = Ok (L.tokenList st ++ [punct type line column]).
Proof.
  intros E Hst Hd.
  destruct (doubled_facts op type Hd) as (T1 & T2 & NS & NL).
  destruct (doubled_read st op type Hst Hd)
    as (st1 & E1 & Hs & Hb & Hc & Hn & Ht & Hk & Hop).
  unfold tokenize. rewrite tokenize_loop_feed, E. cbn [bind tokenize_loop].
  rewrite E1. cbn [bind]. rewrite <- Hk. clear E E1 Hst Hk st.
  open_state st1.
  apply Z.leb_le in T1. apply Ascii.eqb_neq in NL.
  assert (NS' : (TokenType.to_int type =? TokenType.to_int TokenType.SLASH_STAR)
                = false).
  { destruct type; try reflexivity. contradiction NS; reflexivity. }
  assert (P2 : (0 <=? TokenType.to_int type) = true)
    by (destruct type; reflexivity).
  assert (Ty : TokenType.of_int (TokenType.to_int type) = type)
    by (destruct type; reflexivity).
  unfold advance. rewrite NL.
  unfold iteration, token_processing. rewrite T1, T2, P2. cbn [andb].
  rewrite NS', Ty. cbn [bind L.tokenList].
  eexists _, _. reflexivity.
Qed.

Lemma last_operator_is_doubled_witness :
  exists line column,
    tokenize (src "1 +") =
    Ok ([int_token 0 1 1] ++ [punct TokenType.PLUS_PLUS line column]).
Proof.
  refine (last_operator_is_doubled (src "1 ") _ "+" TokenType.PLUS_PLUS
            eq_refl _ eq_refl).
  repeat split.
Defined.

Lemma end_of_token_c (st st' : L.state) :
  end_of_token st = Ok st' -> L.c st' = L.c st.
Proof.
  intros H. open_state st. unfold end_of_token in H.
  match type of H with
  | bind ?m _ = _ => destruct m as [[str' tokenList']|e|]; try discriminate H
  end.
  cbn [bind] in H.
  destruct (c =? DQUOTE)%char; [injection H as <-; reflexivity|].
  destruct (is_digit c).
  - destruct (buf_write 0 c str') as [b|e|]; try discriminate H.
    injection H as <-. reflexivity.
  - injection H as <-. reflexivity.
Qed.

Lemma token_processing_c (end_ : bool) (st st' : L.state) :
  token_processing end_ st = Ok st' -> L.c st' = L.c st.
Proof.
  intros H. open_state st. unfold token_processing in H.
  repeat match type of H with
         | (if ?b then _ else _) = _ => destruct b
         end;
    try (injection H as <-; reflexivity);
    try (apply end_of_token_c in H; exact H);
    try discriminate H;
    destruct (buf_write strlen c str) as [b|e|]; try discriminate H;
    injection H as <-; reflexivity.
Qed.

Lemma iteration_c (end_ : bool) (st st' : L.state) :
  L.isStr st = false ->
  iteration end_ st = Ok st' -> L.c st' = L.c st.
Proof.
  intros Hs H. open_state st. unfold iteration in H.
  destruct isBlockComment.
  { repeat match type of H with
           | (if ?b then _ else _) = _ => destruct b
           end; injection H as <-; reflexivity. }
  destruct isComment.
  { destruct (c =? NEWLINE)%char; injection H as <-; reflexivity. }
  destruct isNumber; [|apply token_processing_c in H; exact H].
  unfold number_mode in H.
  match type of H with
  | bind (bind ?m _) _ = _ => destruct m as [str0|e|]; try discriminate H
  end.
  cbn [bind] in H.
  repeat match type of H with
         | bind (if ?b then _ else _) _ = _ => destruct b
         end;
    try (destruct (buf_write strlen c str) as [b|e|]; try discriminate H;
         injection H as <-; reflexivity).
  cbn [bind] in H. apply token_processing_c in H. exact H.
Qed.

Lemma digit_facts (c : ascii) :
  is_digit c = true ->
  is_upper c = false /\ is_lower c = false /\
  (c =? "x")%char = false /\ (c =? "b")%char = false /\
  (c =? ".")%char = false /\ (c =? DQUOTE)%char = false /\
  (c =? NEWLINE)%char = false /\
  find_token1 0 c token1s = -1 /\ alnum c = true.
Proof.
  destruct c as [[] [] [] [] [] [] [] []]; vm_compute; intros H;
    try discriminate H; repeat split.
Qed.

(** The first digit of a file. *)
Lemma number_open_digit (d : ascii) :
  is_digit d = true ->
  exists st, feed [d] L.init = Ok st /\ in_number [d] false st /\ L.c st = d.
Proof.
  intros Hd. destruct (digit_facts d Hd) as (_ & _ & _ & _ & _ & Q & N & F & _).
  cbn [feed]. unfold L.init, advance, get.
  change ("255" =? NEWLINE)%char with false. cbv iota.
  unfold iteration, token_processing.
  change (0 <=? -1) with false. cbn [andb]. rewrite F.
  change (0 <=? -1) with false. rewrite Hd. rewrite !orb_true_r. cbn [orb].
  unfold end_of_token. cbn [Nat.eqb bind]. rewrite Q, Hd.
  unfold buf_write. cbn [Nat.leb bind set_cell].
  eexists. split; [reflexivity|]. split; [|reflexivity].
  repeat split; try (cbn; lia).
  - exists []. reflexivity.
  - apply Ascii.eqb_neq. exact N.
  - constructor; [|constructor].
    intros ->. discriminate Hd.
Qed.

Lemma digits_number_body (digits : list ascii) (hasDecimal : bool) :
  forallb is_digit digits = true -> number_body hasDecimal digits = true.
Proof.
  induction digits as [|c digits IH]; [reflexivity|].
  cbn [forallb number_body]. intros H. apply andb_prop in H.
  destruct H as [Hc Hd].
  destruct (digit_facts c Hc) as (_ & _ & _ & _ & _ & _ & _ & _ & A).
  rewrite A. exact (IH Hd).
Qed.

(** The end of the file after a digit of a number. *)
Lemma number_end (st : L.state) (acc : list ascii) (hd : bool) :
  in_number acc hd st ->
  is_digit (L.c st) = true ->
  (length acc <= MAX_STR_SIZE)%nat ->
  (st' <- tokenize_loop [] st ;; Ok (L.tokenList st')) =
  (r <- parseNumber (Token.mk TokenType.NUM_UNIDENTIFIED 0
                       (Z.of_nat (length acc)) (PStr acc)) ;;
   if fst r =? 0 then Ok [snd r]
   else throw INVALID_NUMBER 0 (Z.of_nat (length acc))).
Proof.
  intros (Hs & Hbc & Hc & Hn & Hh & [junk Hb] & Hl & H2 & Ht & Ht1 & Hli & Hco
          & Hnl & Hnul) Hd Hlen.
  open_state st.
  destruct (digit_facts c Hd) as (U & Lo & X & B & P & Q & N & F & _).
  assert (H1 : exists a0, (if (length acc =? 1)%nat
                           then buf_read 0 (map Some acc ++ junk)
                           else Ok NUL) = Ok a0).
  { destruct acc as [|a0 acc']; [simpl in H2; lia|].
    destruct (length (a0 :: acc') =? 1)%nat; eexists; reflexivity. }
  destruct H1 as [a0 H1].
  assert (H0 : (length acc =? 0)%nat = false) by (apply Nat.eqb_neq; lia).
  assert (Hin : (length acc <=? MAX_STR_SIZE)%nat = true)
    by (apply Nat.leb_le; exact Hlen).
  cbn [tokenize_loop].
  unfold advance, iteration, number_mode.
  rewrite N, H1. cbn [bind negb].
  rewrite X, B, U, Lo, P. rewrite !andb_false_r. cbn [orb andb bind].
  unfold token_processing. change (0 <=? -1) with false. cbn [andb].
  rewrite F. change (0 <=? -1) with false. rewrite Hd. cbn [orb].
  rewrite !orb_true_r.
  unfold end_of_token, buf_write. rewrite H0, Hin. cbn [bind].
  rewrite set_cell_app, c_str_app by exact Hnul. cbn [bind].
  replace (Z.of_nat (length acc) - 1 + 1) with (Z.of_nat (length acc)) by lia.
  destruct (parseNumber _) as [[status token']|e|]; cbn [bind fst snd];
    try reflexivity.
  destruct (status =? 0); cbn [bind]; [|reflexivity].
  rewrite Q, Hd. cbn [Nat.leb bind L.tokenList]. reflexivity.
Qed.

Lemma feed_snoc (file : list ascii) (ch : ascii) (st : L.state) :
  feed (file ++ [ch]) st =
  (st1 <- feed file st ;; iteration false (get ch (advance st1))).
Proof.
  revert st. induction file as [|a file IH]; intros st; cbn [app feed bind].
  - destruct (iteration false (get ch (advance st))); reflexivity.
  - destruct (iteration false (get a (advance st))); cbn [bind];
      [apply IH | reflexivity | reflexivity].
Qed.

Lemma get_advance_fields (ch : ascii) (st : L.state) :
  L.c (get ch (advance st)) = ch /\
  L.isStr (get ch (advance st)) = L.isStr st.
Proof.
  destruct st. unfold advance, get.
  destruct (c =? NEWLINE)%char; split; reflexivity.
Qed.

(** A file that is a run of digits, as the tokenizer leaves the loop
    before the end of the file. *)
Lemma digits_feed (d : ascii) (rest : list ascii) :
  is_digit d = true ->
  forallb is_digit rest = true ->
  (length (d :: rest) <= MAX_STR_SIZE)%nat ->
  exists st hd,
    feed (d :: rest) L.init = Ok st /\ in_number (d :: rest) hd st /\
    is_digit (L.c st) = true.
Proof.
  intros H0. induction rest as [|x rest IH] using rev_ind; intros Hr Hlen.
  - destruct (number_open_digit d H0) as (st0 & E0 & I0 & C0).
    exists st0, false. split; [exact E0|]. split; [exact I0|].
    rewrite C0. exact H0.
  - rewrite forallb_app in Hr. apply andb_prop in Hr. destruct Hr as [Hr Hx].
    cbn [forallb] in Hx. rewrite andb_true_r in Hx.
    assert (Hlen' : (length (d :: rest) < MAX_STR_SIZE)%nat).
    { cbn [length] in *. rewrite length_app in Hlen. cbn [length] in Hlen.
      rewrite Nat.add_1_r in Hlen. exact Hlen. }
    destruct (IH Hr (Nat.lt_le_incl _ _ Hlen')) as (st1 & hd1 & E1 & I1 & _).
    destruct (digit_facts x Hx) as (_ & _ & _ & _ & _ & _ & _ & _ & A).
    assert (Hb : number_body hd1 [x] = true).
    { cbn [number_body]. rewrite A. reflexivity. }
    destruct (number_step st1 x (d :: rest) hd1 I1 Hb (Nat.lt_le_incl _ _ Hlen'))
      as (st2 & hd2 & E2 & I2 & _).
    exists st2, hd2.
    change (d :: rest ++ [x]) with ((d :: rest) ++ [x]).
    rewrite feed_snoc, E1. cbn [bind].
    split; [exact E2|]. split; [exact I2|].
    destruct (get_advance_fields x st1) as (Gc & Gs).
    rewrite (iteration_c false _ st2) by
      (first [rewrite Gs; apply I1 | exact E2]).
    rewrite Gc. exact Hx.
Qed.

(** X22.  A file that is one decimal numeral of at most 1024 digits is
    compiled to one move-word-immediate record.  The tokenizer gives one
    NUM_INT with the value of the digits, reduced to 32 bits, at the
    column after the last digit; the tree is that one integer literal;
    and on a target with a word register the output file holds the opcode,
    the first word register and the bytes of the value, the byte counter
    being 6.  On a target without word registers the compilation raises
    OutOfRegisters. *)
Theorem compile_decimal_literal (T : Target) (digits : list ascii) :
  digits <> [] ->
  forallb is_digit digits = true ->
  (length digits <= MAX_STR_SIZE)%nat ->
  let value := wrap_int_t (digits_value 10 digits) in
  let column := Z.of_nat (length digits) in
  tokenize digits = Ok [int_token 0 column value] /\
  constructAST [int_token 0 column value] =
    Ok ([NodeExpr (ExprInt 0 column value)], [int_token 0 column value]) /\
  ((0 < NUM_WORD_REGISTERS T)%nat ->
   compile_ T digits =
   Ok (0, Bytecode.mk (RegManager.new T) 6 (to_byte (W0 T))
            (mov_w_record T (to_byte (W0 T)) value))) /\
  (NUM_WORD_REGISTERS T = 0%nat ->
   compile_ T digits = throw OUT_OF_REGISTERS (-1) (-1)).
Proof.
  intros Hne Hd Hlen value column.
  assert (Ht : tokenize digits = Ok [int_token 0 column value]).
  { destruct (decimal_run digits Hne Hd) as (base & body & Pre & Run).
    destruct digits as [|d rest]; [contradiction Hne; reflexivity|].
    pose proof Hd as Hd'. cbn [forallb] in Hd'. apply andb_prop in Hd'.
    destruct Hd' as [H0 Hr].
    destruct (digits_feed d rest H0 Hr Hlen) as (st & hd & E & I & C).
    pose proof (number_end st (d :: rest) hd I C Hlen) as End.
    unfold parseNumber in End.
    cbn [Token.type Token.payload Token.line Token.column] in End.
    rewrite Pre, Run in End. cbn [bind fst snd Z.eqb] in End.
    unfold tokenize. rewrite <- (app_nil_r (d :: rest)), tokenize_loop_feed, E.
    cbn [bind]. exact End. }
  assert (Ha : constructAST [int_token 0 column value] =
               Ok ([NodeExpr (ExprInt 0 column value)],
                   [int_token 0 column value])) by reflexivity.
  split; [exact Ht|]. split; [exact Ha|]. split.
  - intros Hreg. unfold compile_. rewrite Ht. cbn [bind]. rewrite Ha.
    cbn [bind fst]. unfold makeBytecode.
    rewrite (makeExprBytecode_int T 0 column value [] 0 Hreg). reflexivity.
  - intros Hreg. unfold compile_. rewrite Ht. cbn [bind]. rewrite Ha.
    cbn [bind fst]. unfold makeBytecode, makeExprBytecode, RegManager.getWord,
      RegManager.new. rewrite Hreg. reflexivity.
Qed.

Lemma compile_decimal_literal_witness :
  compile_ example_target (src "0123") =
  Ok (0, Bytecode.mk (RegManager.new example_target) 6 0 [1; 0; 123; 0; 0; 0]).
Proof.
  refine (proj1 (proj2 (proj2
            (compile_decimal_literal example_target (src "0123")
               ltac:(discriminate) eq_refl _))) _).
  - apply Nat.leb_le. reflexivity.
  - apply Nat.ltb_lt. reflexivity.
Defined.

(** ** Groups *)

Lemma loop_fuel_mono fuel :
  forall front acc rest sv type r more,
    condenseAST_loop fuel front acc rest sv type = Some r ->
    condenseAST_loop (fuel + more) front acc rest sv type = Some r.
Proof.
  induction fuel as [|fuel IH]; intros front acc rest sv type r more H;
    [discriminate H|].
  change (S fuel + more)%nat with (S (fuel + more)).
  destruct rest as [|node rest1]; [exact H|].
  destruct (classify node) as [g|g|] eqn:Hcl.
  - rewrite (loop_opening fuel _ _ _ _ _ _ _ Hcl) in H.
    rewrite (loop_opening (fuel + more) _ _ _ _ _ _ _ Hcl).
    destruct (condenseAST_loop fuel (node :: acc ++ front) [] rest1 true g)
      as [callee|] eqn:Ecallee; [|discriminate H].
    rewrite (IH _ _ _ _ _ _ more Ecallee).
    destruct callee as [[nodeList [|c rest'']]|e|]; try exact H.
    apply IH. exact H.
  - rewrite (loop_closing fuel _ _ _ _ _ _ _ Hcl) in H.
    rewrite (loop_closing (fuel + more) _ _ _ _ _ _ _ Hcl). exact H.
  - rewrite (loop_plain fuel _ _ _ _ _ _ Hcl) in H.
    rewrite (loop_plain (fuel + more) _ _ _ _ _ _ Hcl). apply IH. exact H.
Qed.

Lemma condenseAST_by_fuel fuel front rest type r :
  condenseAST_loop fuel front [] rest true type = Some r ->
  condenseAST front rest type = r.
Proof.
  intros H. pose proof (condenseAST_run front rest type) as Hrun.
  apply (loop_fuel_mono _ _ _ _ _ _ _ (S (length rest))) in H.
  apply (loop_fuel_mono _ _ _ _ _ _ _ fuel) in Hrun.
  rewrite Nat.add_comm, H in Hrun. injection Hrun as ->. reflexivity.
Qed.

Lemma loop_plain_run (seg : NodeList) :
  forall fuel front acc rest sv type,
    Forall (fun n => classify n = Plain) seg ->
    condenseAST_loop (length seg + fuel) front acc (seg ++ rest) sv type =
    condenseAST_loop fuel front (rev seg ++ acc) rest sv type.
Proof.
  induction seg as [|node seg IH]; intros fuel front acc rest sv type H;
    [reflexivity|].
  inversion H as [|? ? Hn Hs]; subst.
  cbn [length app Nat.add rev].
  rewrite (loop_plain _ _ _ _ _ _ _ Hn), (IH _ _ _ _ _ _ Hs), <- app_assoc.
  reflexivity.
Qed.

(** X23.  Without brackets the grouping loop only walks to the end of the
    list: the outcome is that of the two precedence passes on the whole
    list, and nothing is left in the input list. *)
Theorem condenseAST_without_brackets (front l : NodeList) :
  Forall (fun n => classify n = Plain) l ->
  condenseAST front l NodeType.NONE =
  (outputList <- process l ;; Ok (outputList, [])).
Proof.
  intros H. apply (condenseAST_by_fuel (length l + 1)).
  rewrite <- (app_nil_r l) at 2.
  rewrite (loop_plain_run l 1 front [] [] true NodeType.NONE H).
  cbn [condenseAST_loop]. unfold splice_process.
  rewrite app_nil_r, rev_involutive. reflexivity.
Qed.

Lemma condenseAST_without_brackets_witness :
  condenseAST []
    [NodeExpr (ExprInt 0 1 1); NodeToken (punct TokenType.PLUS 0 2);
     NodeExpr (ExprInt 0 3 2)] NodeType.NONE =
  Ok ([NodeExpr (ExprBinop (ExprInt 0 1 1) (ExprInt 0 3 2) OpType.ADD
                   ExprType.INT 0 2)], []).
Proof.
  refine (condenseAST_without_brackets [] _ _).
  repeat constructor.
Defined.

Lemma group_run (pre inner post : NodeList) (opening closing : Node)
  (group : NodeType.t) :
  Forall (fun n => classify n = Plain) pre ->
  Forall (fun n => classify n = Plain) inner ->
  Forall (fun n => classify n = Plain) post ->
  classify opening = Opening group ->
  classify closing = Closing group ->
  condenseAST [] (pre ++ opening :: inner ++ closing :: post) NodeType.NONE =
  (nodeList <- process inner ;;
   splice_process (match pre with [] => false | _ => true end)
     (rev post ++ group_node group nodeList :: rev pre) []).
Proof.
  intros Hpre Hin Hpost Hop Hcl.
  pose proof (classify_group closing group (or_intror Hcl)) as Hg.
  assert (Hgg : NodeType_eqb group group = true)
    by (destruct group; try discriminate Hg; reflexivity).
  assert (Hsv : (true && match rev pre with [] => false | _ => true end)%bool =
                match pre with [] => false | _ => true end).
  { destruct pre as [|p pre']; [reflexivity|].
    cbn [rev andb]. destruct (rev pre'); reflexivity. }
  apply (condenseAST_by_fuel
           (length pre + S (length inner + S (length post + 1)))).
  rewrite (loop_plain_run pre _ [] [] _ true NodeType.NONE Hpre).
  rewrite app_nil_r, (loop_opening _ _ _ _ _ _ _ _ Hop).
  rewrite (loop_plain_run inner _ _ [] _ true group Hin).
  rewrite app_nil_r, (loop_closing _ _ _ _ _ _ _ _ Hcl), Hgg.
  unfold splice_process at 1. rewrite !app_nil_r, rev_involutive.
  destruct (process inner) as [nodeList|e|]; cbn [bind]; try reflexivity.
  rewrite Hsv.
  assert (F : (length inner + S (length post + 1) =
               length post + S (length inner + 1))%nat) by lia.
  rewrite F.
  pose proof (loop_plain_run post (S (length inner + 1)) []
                (group_node group nodeList :: rev pre) []
                (match pre with [] => false | _ => true end)
                NodeType.NONE Hpost) as R.
  rewrite app_nil_r in R. rewrite R. reflexivity.
Qed.

(** X24.  One group after at least one node.  The nodes between the
    brackets go through the precedence passes first; the group that
    holds their result (or the result itself, for parentheses around one
    expression) takes the place of the brackets and of what was between
    them, and the list around it goes through the passes in its turn.  An
    exception of the inner passes is the outcome. *)
Theorem condenseAST_one_group
  (first : Node) (pre inner post : NodeList) (opening closing : Node)
  (group : NodeType.t) :
  Forall (fun n => classify n = Plain) (first :: pre) ->
  Forall (fun n => classify n = Plain) inner ->
  Forall (fun n => classify n = Plain) post ->
  classify opening = Opening group ->
  classify closing = Closing group ->
  condenseAST [] ((first :: pre) ++ opening :: inner ++ closing :: post)
    NodeType.NONE =
  (nodeList <- process inner ;;
   outputList <- process
     ((first :: pre) ++ group_node group nodeList :: post) ;;
   Ok (outputList, [])).
Proof.
  intros Hpre Hin Hpost Hop Hcl.
  rewrite (group_run (first :: pre) inner post opening closing group
             Hpre Hin Hpost Hop Hcl).
  destruct (process inner) as [nodeList|e|]; cbn [bind]; try reflexivity.
  unfold splice_process.
  rewrite rev_app_distr, rev_involutive.
  change (rev (group_node group nodeList :: rev (first :: pre)))
    with (rev (rev (first :: pre)) ++ [group_node group nodeList]).
  rewrite rev_involutive, <- app_assoc. reflexivity.
Qed.

Lemma condenseAST_one_group_witness :
  condenseAST []
    [NodeExpr (ExprInt 0 1 2); NodeToken (punct TokenType.STAR 0 2);
     NodeToken (punct TokenType.LEFT_PAREN 0 3);
     NodeExpr (ExprInt 0 4 3); NodeToken (punct TokenType.PLUS 0 5);
     NodeExpr (ExprInt 0 6 4);
     NodeToken (punct TokenType.RIGHT_PAREN 0 7)] NodeType.NONE =
  Ok ([NodeExpr
         (ExprBinop (ExprInt 0 1 2)
            (ExprBinop (ExprInt 0 4 3) (ExprInt 0 6 4) OpType.ADD
               ExprType.INT 0 5)
            OpType.MULT ExprType.INT 0 2)], []).
Proof.
  refine (condenseAST_one_group (NodeExpr (ExprInt 0 1 2))
            [NodeToken (punct TokenType.STAR 0 2)]
            [NodeExpr (ExprInt 0 4 3); NodeToken (punct TokenType.PLUS 0 5);
             NodeExpr (ExprInt 0 6 4)]
            []
            (NodeToken (punct TokenType.LEFT_PAREN 0 3))
            (NodeToken (punct TokenType.RIGHT_PAREN 0 7))
            NodeType.PAREN_GROUP _ _ _ eq_refl eq_refl);
    repeat constructor.
Defined.

(** X25.  A group at the very start of a list.  The iterator [start] of
    the call points to the opening bracket, which the loop erases from the
    list when the group is complete; the splice at the end of the call
    then starts from an iterator that is no longer one of the list.  So
    the outcome is the exception of the passes inside the brackets when
    there is one, and is not defined otherwise. *)
Theorem condenseAST_leading_group
  (inner post : NodeList) (opening closing : Node) (group : NodeType.t) :
  Forall (fun n => classify n = Plain) inner ->
  Forall (fun n => classify n = Plain) post ->
  classify opening = Opening group ->
  classify closing = Closing group ->
  condenseAST [] (opening :: inner ++ closing :: post) NodeType.NONE =
  (nodeList <- process inner ;; Undefined).
Proof.
  intros Hin Hpost Hop Hcl.
  exact (group_run [] inner post opening closing group
           (Forall_nil _) Hin Hpost Hop Hcl).
Qed.

Lemma condenseAST_leading_group_witness :
  condenseAST []
    [NodeToken (punct TokenType.LEFT_PAREN 0 1); NodeExpr (ExprInt 0 2 1);
     NodeToken (punct TokenType.RIGHT_PAREN 0 3)] NodeType.NONE = Undefined.
Proof.
  refine (condenseAST_leading_group [NodeExpr (ExprInt 0 2 1)] []
            (NodeToken (punct TokenType.LEFT_PAREN 0 1))
            (NodeToken (punct TokenType.RIGHT_PAREN 0 3))
            NodeType.PAREN_GROUP _ _ eq_refl eq_refl);
    repeat constructor.
Defined.

(** ** Words and the size of the buffer *)

Lemma letter_facts (c : ascii) :
  is_letter c = true ->
  is_digit c = false /\ (c =? DQUOTE)%char = false /\
  (c =? NEWLINE)%char = false /\ (c =? SPACE)%char = false /\
  (c =? TAB)%char = false /\ (c =? NUL)%char = false /\
  find_token1 0 c token1s = -1.
Proof.
  destruct c as [[] [] [] [] [] [] [] []]; vm_compute; intros H;
    try discriminate H; repeat split.
Qed.

Lemma word_open : in_word [] L.init.
Proof.
  repeat split; try discriminate.
  - exists []. reflexivity.
  - constructor.
Qed.

Lemma word_step (st : L.state) (ch : ascii) (acc : list ascii) :
  in_word acc st -> is_letter ch = true ->
  iteration false (get ch (advance st)) =
  if (MAX_STR_SIZE <=? length acc)%nat
  then throw STRING_TOO_LONG 0 (Z.of_nat (length acc))
  else
    Ok (L.mk (set_cell (length acc) ch (L.str st)) (S (length acc)) ch 0
             (Z.of_nat (length acc)) false false false (L.isEscaped st) false
             (L.hasDecimal st) (-1) []).
Proof.
  intros (Hs & Hbc & Hc & Hn & _ & Hl & Ht & Ht1 & Hli & Hco & Hnl & _) Hch.
  open_state st. apply Ascii.eqb_neq in Hnl.
  destruct (letter_facts ch Hch) as (D & Q & N & S & T & _ & F).
  unfold advance, get. rewrite Hnl.
  unfold iteration, token_processing.
  change (0 <=? -1) with false. cbn [andb]. rewrite F.
  change (0 <=? -1) with false. rewrite S, N, T, Q, D. cbn [orb].
  replace (Z.of_nat (length acc) - 1 + 1) with (Z.of_nat (length acc)) by lia.
  destruct (MAX_STR_SIZE <=? length acc)%nat eqn:Full; [reflexivity|].
  unfold buf_write.
  replace (length acc <=? MAX_STR_SIZE)%nat with true; [reflexivity|].
  symmetry. apply Nat.leb_le. apply Nat.leb_gt in Full.
  apply Nat.lt_le_incl. exact Full.
Qed.

Lemma word_feed (word : list ascii) :
  forall st acc,
    in_word acc st -> forallb is_letter word = true ->
    (length acc + length word <= MAX_STR_SIZE)%nat ->
    exists st', feed word st = Ok st' /\ in_word (acc ++ word) st'.
Proof.
  induction word as [|ch word IH]; intros st acc Hst Hw Hlen.
  - exists st. rewrite app_nil_r. split; [reflexivity | exact Hst].
  - cbn [forallb] in Hw. apply andb_prop in Hw. destruct Hw as [Hch Hw].
    cbn [length] in Hlen.
    pose proof (word_step st ch acc Hst Hch) as E.
    assert (Full : (MAX_STR_SIZE <=? length acc)%nat = false).
    { apply Nat.leb_gt. eapply Nat.lt_le_trans; [|exact Hlen].
      rewrite <- Nat.add_succ_comm. apply Nat.lt_lt_add_r, Nat.lt_succ_diag_r. }
    rewrite Full in E.
    destruct (letter_facts ch Hch) as (_ & _ & N & _ & _ & Z0 & _).
    destruct Hst as (_ & _ & _ & _ & [junk Hb] & _ & _ & _ & _ & _ & _ & Hnul).
    match type of E with
    | _ = Ok ?s => assert (I : in_word (acc ++ [ch]) s)
    end.
    { repeat split; cbn [L.strlen L.str L.column L.c].
      - exists (tl junk). rewrite Hb. apply set_cell_app.
      - rewrite length_app. cbn [length]. rewrite Nat.add_1_r. reflexivity.
      - rewrite length_app. cbn [length]. lia.
      - apply Ascii.eqb_neq. exact N.
      - apply Forall_app. split; [exact Hnul|].
        constructor; [apply Ascii.eqb_neq; exact Z0 | constructor]. }
    destruct (IH _ (acc ++ [ch]) I Hw) as (st2 & E2 & I2).
    { rewrite length_app. cbn [length]. rewrite <- Nat.add_assoc. exact Hlen. }
    exists st2. cbn [feed]. rewrite E. cbn [bind].
    rewrite <- app_assoc in I2. split; assumption.
Qed.

Lemma word_end (st : L.state) (acc : list ascii) :
  in_word acc st -> acc <> [] ->
  (length acc <= MAX_STR_SIZE)%nat ->
  (st' <- tokenize_loop [] st ;; Ok (L.tokenList st')) =
  Ok [word_token acc 0 (Z.of_nat (length acc))].
Proof.
  intros (Hs & Hbc & Hc & Hn & [junk Hb] & Hl & Ht & Ht1 & Hli & Hco & Hnl
          & Hnul) Hne Hlen.
  open_state st. apply Ascii.eqb_neq in Hnl.
  assert (H0 : (length acc =? 0)%nat = false).
  { destruct acc; [contradiction Hne; reflexivity | reflexivity]. }
  assert (Hin : (length acc <=? MAX_STR_SIZE)%nat = true)
    by (apply Nat.leb_le; exact Hlen).
  cbn [tokenize_loop]. unfold advance. rewrite Hnl.
  unfold iteration, token_processing.
  change (0 <=? -1) with false. cbn [andb]. rewrite !orb_true_r.
  unfold end_of_token, buf_write. rewrite H0, Hin. cbn [bind].
  rewrite set_cell_app, c_str_app by exact Hnul. cbn [bind].
  replace (Z.of_nat (length acc) - 1 + 1) with (Z.of_nat (length acc)) by lia.
  unfold word_token.
  destruct (0 <=? stringMatchAt acc keywords); cbn [bind];
    (destruct (c =? DQUOTE)%char; [reflexivity|]);
    destruct (is_digit c); reflexivity.
Qed.

(** X26.  A file that is one word of at most 1024 letters gives one
    token, at the column after the last letter: the token of the keyword
    that the word is, which holds no text, or else an IDENTIFIER that
    holds the word. *)
Theorem tokenize_word (word : list ascii) :
  word <> [] ->
  forallb is_letter word = true ->
  (length word <= MAX_STR_SIZE)%nat ->
  tokenize word = Ok [word_token word 0 (Z.of_nat (length word))].
Proof.
  intros Hne Hw Hlen.
  destruct (word_feed word L.init [] word_open Hw Hlen) as (st & E & I).
  cbn [app] in I.
  unfold tokenize. rewrite <- (app_nil_r word), tokenize_loop_feed, E.
  cbn [bind]. rewrite app_nil_r. exact (word_end st word I Hne Hlen).
Qed.

Lemma tokenize_word_witness :
  tokenize (src "while") = Ok [punct TokenType.WHILE 0 5] /\
  tokenize (src "While") =
  Ok [Token.mk TokenType.IDENTIFIER 0 5 (PStr (src "While"))].
Proof.
  split.
  - refine (tokenize_word (src "while") ltac:(discriminate) eq_refl _).
    apply Nat.leb_le. reflexivity.
  - refine (tokenize_word (src "While") ltac:(discriminate) eq_refl _).
    apply Nat.leb_le. reflexivity.
Defined.

Lemma number_overrun (st : L.state) (acc : list ascii) (hd : bool) :
  in_number acc hd st ->
  length acc = S MAX_STR_SIZE ->
  forall end_ ch, iteration end_ (get ch (advance st)) = Undefined.
Proof.
  intros (Hs & Hbc & Hc & Hn & Hh & _ & Hl & _ & Ht & Ht1 & _ & _ & Hnl & _)
         Hlen end_ ch.
  open_state st. apply Ascii.eqb_neq in Hnl.
  assert (H1 : (length acc =? 1)%nat = false).
  { rewrite Hlen. reflexivity. }
  assert (H0 : (length acc =? 0)%nat = false).
  { rewrite Hlen. reflexivity. }
  assert (Hw : forall x, buf_write (length acc) x str = Undefined).
  { intros x. unfold buf_write.
    replace (length acc <=? MAX_STR_SIZE)%nat with false; [reflexivity|].
    symmetry. apply Nat.leb_gt. rewrite Hlen. apply Nat.lt_succ_diag_r. }
  unfold advance, get. rewrite Hnl.
  unfold iteration, number_mode. rewrite H1. cbn [bind andb].
  match goal with
  | |- bind (if ?b then _ else _) _ = _ => destruct b
  end.
  - rewrite Hw. reflexivity.
  - cbn [bind]. unfold token_processing.
    change (0 <=? -1) with false. cbn [andb].
    rewrite orb_true_r. cbn [orb].
    unfold end_of_token. rewrite H0, Hw. reflexivity.
Qed.

(** X27.  The buffer of the tokenizer has room for 1024 characters and
    the NUL.  The check that guards it is made where a letter of a word is
    stored, not where a digit of a number is: the letter after the 1024th
    of a word raises StringTooLong at its own position, whatever follows,
    while a number of 1025 digits is stored in full and the next step,
    whatever follows, writes past the end of the buffer. *)
Theorem long_word_and_long_number (text rest : list ascii) :
  length text = S MAX_STR_SIZE ->
  (forallb is_letter text = true ->
   tokenize (text ++ rest) =
   throw STRING_TOO_LONG 0 (Z.of_nat MAX_STR_SIZE)) /\
  (forallb is_digit text = true ->
   tokenize (text ++ rest) = Undefined).
Proof.
  intros Hlen.
  assert (Hne : text <> []) by (intros ->; discriminate Hlen).
  destruct (exists_last Hne) as (front & last & ->).
  rewrite length_app in Hlen. cbn [length] in Hlen.
  rewrite Nat.add_1_r in Hlen. injection Hlen as Hlen.
  split; intros Ht; rewrite forallb_app in Ht; apply andb_prop in Ht;
    destruct Ht as [Hf Hl]; cbn [forallb] in Hl; rewrite andb_true_r in Hl;
    unfold tokenize; rewrite tokenize_loop_feed, feed_snoc.
  - destruct (word_feed front L.init [] word_open Hf) as (st & E & I).
    { rewrite Hlen. apply Nat.le_refl. }
    cbn [app] in I. rewrite E. cbn [bind].
    rewrite (word_step st last front I Hl), Hlen, Nat.leb_refl. reflexivity.
  - destruct front as [|d front'].
    { discriminate Hlen. }
    cbn [forallb] in Hf. apply andb_prop in Hf. destruct Hf as [H0 Hf'].
    destruct (digits_feed d front' H0 Hf') as (st & hd & E & I & _).
    { rewrite Hlen. apply Nat.le_refl. }
    rewrite E. cbn [bind].
    destruct (digit_facts last Hl) as (_ & _ & _ & _ & _ & _ & _ & _ & A).
    assert (Hb : number_body hd [last] = true).
    { cbn [number_body]. rewrite A. reflexivity. }
    destruct (number_step st last (d :: front') hd I Hb) as (st1 & hd1 & E1 & I1 & _).
    { rewrite Hlen. apply Nat.le_refl. }
    rewrite E1. cbn [bind].
    assert (Hlen1 : length ((d :: front') ++ [last]) = S MAX_STR_SIZE).
    { rewrite length_app, Hlen. cbn [length]. apply Nat.add_1_r. }
    pose proof (number_overrun st1 _ hd1 I1 Hlen1) as Over.
    destruct rest as [|ch rest'].
    + cbn [tokenize_loop]. specialize (Over true (L.c (advance st1))).
      rewrite get_same in Over. rewrite Over. reflexivity.
    + cbn [tokenize_loop]. rewrite (Over false ch). reflexivity.
Qed.

Lemma long_word_and_long_number_witness :
  tokenize (repeat "a"%char (S MAX_STR_SIZE) ++ [SPACE]) =
  throw STRING_TOO_LONG 0 (Z.of_nat MAX_STR_SIZE).
Proof.
  refine (proj1 (long_word_and_long_number
                   (repeat "a"%char (S MAX_STR_SIZE)) [SPACE] _) _).
  - vm_compute. reflexivity.
  - vm_compute. reflexivity.
Defined.

(** ** The output file *)

(** X28.  [makeBytecode] looks at the first node only, whatever follows
    it.  When it returns, the value is 0, the stream has only been
    appended to and the byte counter is the number of bytes appended (an
    [int_t] taking four bytes): nothing, or one move-word-immediate record
    into the register it reports, when the first node is an integer
    literal. *)
Theorem makeBytecode_output
  (T : Target) (node : Node) (rest : NodeList) (outputFile : list Z)
  (r : Z) (b : Bytecode.state) :
  (forall v, length (int_t_bytes T v) = 4%nat) ->
  makeBytecode T (node :: rest) outputFile = Ok (r, b) ->
  (forall rest', makeBytecode T (node :: rest') outputFile = Ok (r, b)) /\
  r = 0 /\
  exists emitted,
    Bytecode.outputFile b = outputFile ++ emitted /\
    Bytecode.byteCounter b = Z.of_nat (length emitted) /\
    (emitted = [] /\ Bytecode.rid1 b = 0 \/
     exists line column int_,
       node = NodeExpr (ExprInt line column int_) /\
       emitted = mov_w_record T (Bytecode.rid1 b) int_).
Proof.
  intros Hsize H. split; [intros rest'; destruct node; exact H|].
  unfold makeBytecode in H.
  destruct node as [token|l|l|l|expr];
    try (injection H as <- <-; split; [reflexivity|]; exists [];
         rewrite app_nil_r; repeat split; left; split; reflexivity).
  destruct expr;
    try (injection H as <- <-; split; [reflexivity|]; exists [];
         rewrite app_nil_r; repeat split; left; split; reflexivity).
  unfold makeExprBytecode in H.
  destruct (RegManager.getWord T (RegManager.new T)) as [[rid reg']|e|];
    try discriminate H.
  cbn [bind fst snd] in H. injection H as <- <-. split; [reflexivity|].
  exists (mov_w_record T rid int_).
  unfold ASM_WRITE, mov_w_record, sizeof_opcode_t, sizeof_reg_t, sizeof_int_t.
  cbn [Emit.outputFile Emit.byteCounter Bytecode.outputFile
       Bytecode.byteCounter Bytecode.rid1 Emit.reg].
  split; [rewrite <- !app_assoc; reflexivity|].
  split; [cbn [app length]; rewrite Hsize; reflexivity|].
  right. exists line, column, int_. split; reflexivity.
Qed.

Lemma makeBytecode_output_witness :
  makeBytecode example_target
    [NodeExpr (ExprInt 0 1 7); NodeToken (punct TokenType.PLUS 0 2);
     NodeExpr (ExprInt 0 3 8)] [255] =
  Ok (0, Bytecode.mk (RegManager.new example_target) 6 0
           [255; 1; 0; 7; 0; 0; 0]).
Proof.
  exact (proj1 (makeBytecode_output example_target (NodeExpr (ExprInt 0 1 7))
                  [] [255] _ _ (fun v => eq_refl) eq_refl)
           [NodeToken (punct TokenType.PLUS 0 2); NodeExpr (ExprInt 0 3 8)]).
Defined.

(** X29.  An identifier has no type yet: its evaluation type is the
    unknown one.  So an arithmetic operator with an identifier on either
    side raises BinopIllegalPattern at the position of the operator,
    whatever the other operand is. *)
Theorem identifier_operand_rejected
  (line column : Z) (str : list ascii) (other : Expr) (token : Token.t) :
  is_operator (NodeToken token) = true ->
  process [NodeExpr (ExprIdentifier line column str); NodeToken token;
           NodeExpr other] =
    throw BINOP_ILLEGAL_PATTERN (Token.line token) (Token.column token) /\
  process [NodeExpr other; NodeToken token;
           NodeExpr (ExprIdentifier line column str)] =
    throw BINOP_ILLEGAL_PATTERN (Token.line token) (Token.column token).
Proof.
  intros Hop.
  assert (L : forall opType,
             make_binop (ExprIdentifier line column str) other opType
               (Token.line token) (Token.column token) =
             throw BINOP_ILLEGAL_PATTERN (Token.line token) (Token.column token)).
  { intros opType. rewrite make_binop_table. reflexivity. }
  assert (R : forall opType,
             make_binop other (ExprIdentifier line column str) opType
               (Token.line token) (Token.column token) =
             throw BINOP_ILLEGAL_PATTERN (Token.line token) (Token.column token)).
  { intros opType. rewrite make_binop_table.
    cbn [evalType]. destruct (evalType other); reflexivity. }
  destruct token as [ty tl tc tp]. cbn [is_operator operator_of Token.type] in Hop.
  cbn [Token.line Token.column] in *.
  destruct ty; try discriminate Hop; split; unfold process;
    cbn [binop_pass Token.type Token.line Token.column TokenType_eqb
         TokenType.to_int Z.eqb Pos.eqb orb bind rev app];
    rewrite ?L, ?R; reflexivity.
Qed.

Lemma identifier_operand_rejected_witness :
  process [NodeExpr (ExprIdentifier 0 1 ["x"%char]);
           NodeToken (punct TokenType.PLUS 0 2);
           NodeExpr (ExprInt 0 3 1)] =
  throw BINOP_ILLEGAL_PATTERN 0 2.
Proof.
  exact (proj1 (identifier_operand_rejected 0 1 ["x"%char] (ExprInt 0 3 1)
                  (punct TokenType.PLUS 0 2) eq_refl)).
Defined.

(** ** Escape sequences *)

Lemma c_str_before_nul (acc : list ascii) (junk : buffer) :
  c_str (map Some (acc ++ [NUL]) ++ junk) = Ok (before_nul acc).
Proof.
  induction acc as [|a acc IH]; [reflexivity|].
  cbn [app map c_str before_nul].
  destruct (a =? NUL)%char; [reflexivity|].
  cbn [app map] in IH. rewrite IH. reflexivity.
Qed.

Lemma string_escape (st : L.state) (e : ascii) (acc : list ascii)
  (toks : TokenList) :
  in_string acc toks st ->
  (length acc < MAX_STR_SIZE)%nat ->
  exists st', feed [BACKSLASH; e] st = Ok st' /\
              in_string (acc ++ [unescape e]) toks st'.
Proof.
  intros (Hs & He & [junk Hb] & Hl & Ht & Hc & Hbc & Hn) Hlen.
  open_state st.
  assert (Hfull : (MAX_STR_SIZE <=? length acc)%nat = false)
    by (apply Nat.leb_gt; exact Hlen).
  assert (Hin : (length acc <=? MAX_STR_SIZE)%nat = true)
    by (apply Nat.leb_le, Nat.lt_le_incl; exact Hlen).
  assert (I : forall x line column c',
             in_string (acc ++ [x]) toks
               (L.mk (set_cell (length acc) x (map Some acc ++ junk))
                     (S (length acc)) c' line column false false true false
                     false hasDecimal token1Index toks)).
  { intros x line' column' c'. repeat split; cbn [L.str L.strlen].
    - exists (tl junk). apply set_cell_app.
    - rewrite length_app. cbn [length]. rewrite Nat.add_1_r. reflexivity. }
  assert (E1 : exists line' column',
             iteration false
               (get BACKSLASH
                  (advance
                     (L.mk (map Some acc ++ junk) (length acc) c line column
                           false false true false false hasDecimal
                           token1Index toks))) =
             Ok (L.mk (map Some acc ++ junk) (length acc) BACKSLASH line'
                      column' false false true true false hasDecimal
                      token1Index toks)).
  { unfold advance, get. destruct (c =? NEWLINE)%char;
      eexists _, _; reflexivity. }
  destruct E1 as (line' & column' & E1).
  cbn [feed]. rewrite E1. cbn [bind].
  unfold advance, get.
  change (BACKSLASH =? NEWLINE)%char with false. cbv iota.
  unfold iteration, string_mode, unescape, buf_write.
  rewrite Hfull, Hin.
  destruct (e =? "n")%char;
    [cbn [bind]; eexists; split; [reflexivity | apply I]|].
  destruct (e =? "c")%char;
    [cbn [bind]; eexists; split; [reflexivity | apply I]|].
  destruct (e =? "0")%char;
    [cbn [bind]; eexists; split; [reflexivity | apply I]|].
  destruct (e =? "t")%char;
    cbn [bind]; eexists; (split; [reflexivity | apply I]).
Qed.

Lemma string_close_text (st : L.state) (acc : list ascii) (toks : TokenList) :
  in_string acc toks st ->
  (length acc <= MAX_STR_SIZE)%nat ->
  exists line column st',
    tokenize_loop [DQUOTE] st = Ok st' /\
    L.tokenList st' =
      toks ++ [Token.mk TokenType.STRING line column (PStr (before_nul acc))].
Proof.
  intros (Hs & He & [junk Hb] & Hl & Ht & Hc & Hbc & Hn) Hlen.
  open_state st.
  assert (Hin : (length acc <=? MAX_STR_SIZE)%nat = true)
    by (apply Nat.leb_le; exact Hlen).
  unfold tokenize_loop, advance, get, iteration, string_mode, buf_write.
  destruct (Ascii.eqb c NEWLINE);
    rewrite Hin; simpl bind; rewrite set_cell_app, c_str_before_nul;
    simpl bind; do 3 eexists; (split; [reflexivity|]); reflexivity.
Qed.

(** X30.  Inside a string literal a backslash takes the next character
    out of its role: n, c, 0 and t stand for the newline, the escape
    character, the NUL and the tab, every other character (a quote, a
    backslash) for itself.  The token holds the text as a C string, so it
    ends before the first NUL that an escape has put into it. *)
Theorem string_escape_sequence (before after : list ascii) (e : ascii) :
  Forall plain_char before ->
  Forall plain_char after ->
  (length before + 1 + length after <= MAX_STR_SIZE)%nat ->
  exists line column,
    tokenize (DQUOTE :: before ++ BACKSLASH :: e :: after ++ [DQUOTE]) =
    Ok [Token.mk TokenType.STRING line column
          (PStr (before_nul (before ++ unescape e :: after)))].
Proof.
  intros Hb Ha Hlen.
  destruct string_open as (st0 & E0 & I0).
  destruct (string_feed before st0 [] [] I0 Hb) as (st1 & E1 & I1).
  { cbn [length]. eapply Nat.le_trans; [|exact Hlen].
    rewrite <- Nat.add_assoc. apply Nat.le_add_r. }
  cbn [app] in I1.
  destruct (string_escape st1 e before [] I1) as (st2 & E2 & I2).
  { eapply Nat.lt_le_trans; [|exact Hlen].
    rewrite Nat.add_1_r. apply Nat.lt_lt_add_r, Nat.lt_succ_diag_r. }
  destruct (string_feed after st2 (before ++ [unescape e]) [] I2 Ha)
    as (st3 & E3 & I3).
  { rewrite length_app. exact Hlen. }
  rewrite <- app_assoc in I3. cbn [app] in I3.
  destruct (string_close_text st3 _ [] I3) as (line & column & st4 & E4 & T4).
  { rewrite length_app. cbn [length]. rewrite Nat.add_succ_r, <- Nat.add_1_r,
      <- Nat.add_assoc, (Nat.add_comm (length after) 1), Nat.add_assoc.
    exact Hlen. }
  exists line, column. unfold tokenize.
  change (DQUOTE :: before ++ BACKSLASH :: e :: after ++ [DQUOTE])
    with ([DQUOTE] ++ before ++ [BACKSLASH; e] ++ after ++ [DQUOTE]).
  rewrite tokenize_loop_feed, E0. cbn [bind].
  rewrite tokenize_loop_feed, E1. cbn [bind].
  rewrite tokenize_loop_feed, E2. cbn [bind].
  rewrite tokenize_loop_feed, E3. cbn [bind].
  rewrite E4. cbn [bind]. rewrite T4. reflexivity.
Qed.

Lemma string_escape_sequence_witness :
  exists line column,
    tokenize (DQUOTE :: src "a" ++ BACKSLASH :: "0"%char :: src "b" ++ [DQUOTE]) =
    Ok [Token.mk TokenType.STRING line column (PStr (src "a"))].
Proof.
  refine (string_escape_sequence (src "a") (src "b") "0" _ _ _).
  - repeat constructor; discriminate.
  - repeat constructor; discriminate.
  - apply Nat.leb_le. reflexivity.
Defined.
